(** * Typed Eva: a shallow embedding of the static type checker

    The development follows the two source files of the checker:
    [Type.js] (the type hierarchy, whose constructor function doubles as
    the registry of declared names) and [EvaTC.js] (the checker proper).

    Conventions of the embedding.
    - An expression node is a JavaScript value: a number, a boolean, a
      string token, an array of nodes, or [undefined] (which the parser
      never emits but which array reads and destructuring produce).
      Number literals are integers; tokens are ASCII strings.
    - A thrown exception is the result [Exn]; the checker has no handler,
      so the state at the point of the throw is never observed again.
    - Type objects are immutable once built, so they are modelled as
      values.  Object identity ([===]) matters for classes and unions
      only: a class is identified by the scope it owns, a union by an
      allocation stamp; primitives are singletons identified by name.
    - Scopes are mutable objects shared by reference, so they live in a
      store ([heap]) and are named by their index in it.
    - The registry is the set of own properties of the JavaScript function
      object [Type]; the model keeps the entries that hold type objects.
      The built-in and static members of that function object ([name],
      [length], [prototype], [fromString], [Function], [Alias], [Class],
      [Union], [GenericFunction]) are not type names of the language and
      are left out.  A declared type or class name is a string token; any
      other value in that position is the outcome [OutsideModel].
    - Recursion that is not structural ([tc], through desugaring and
      generic calls; [equals], through the exchange of its arguments) is
      unfolded to a bound, and reaching the bound is the outcome
      [Timeout].  The properties show where the bound cannot be reached
      and that no outcome depends on it. *)

From Stdlib Require Import ZArith String Ascii List Bool Lia DecimalString.
From stdpp Require Import base option list strings gmap fin_maps.

Local Open Scope string_scope.
Local Set Warnings "-register-all".

(** ** Expression nodes *)

Inductive sexp : Type :=
| Undefined
| Num (n : Z)
| Bool (b : bool)
| Str (s : string)
| Arr (l : list sexp).

(** A string literal of the language is a token that carries its own
    quote marks. *)
Definition dquote : ascii := "034"%char.
Definition quoted (s : string) : string :=
  String dquote (s ++ String dquote EmptyString).

(** ** JavaScript string primitives used by the checker *)

Module Js.

Definition in_range (lo hi : nat) (c : ascii) : bool :=
  let n := nat_of_ascii c in Nat.leb lo n && Nat.leb n hi.

Definition is_lower (c : ascii) : bool := in_range 97 122 c.
Definition is_upper (c : ascii) : bool := in_range 65 90 c.
Definition is_digit (c : ascii) : bool := in_range 48 57 c.

(** [\w] *)
Definition is_word (c : ascii) : bool :=
  is_lower c || is_upper c || is_digit c || Ascii.eqb c "_".

(** [\s], restricted to ASCII *)
Definition is_space (c : ascii) : bool :=
  in_range 9 13 c || Ascii.eqb c " ".

(** [[a-z,\s]] *)
Definition is_param_char (c : ascii) : bool :=
  is_lower c || Ascii.eqb c "," || is_space c.

(** [[+\-*/]] *)
Definition is_arith_char (c : ascii) : bool :=
  Ascii.eqb c "+" || Ascii.eqb c "-" || Ascii.eqb c "*" || Ascii.eqb c "/".

(** [[+\-*/<>=a-zA-Z0-9_:]] *)
Definition is_name_char (c : ascii) : bool :=
  is_arith_char c || Ascii.eqb c "<" || Ascii.eqb c ">" || Ascii.eqb c "="
  || is_word c || Ascii.eqb c ":".

Definition not_gt (c : ascii) : bool := negb (Ascii.eqb c ">").

Fixpoint all_chars (p : ascii -> bool) (s : string) : bool :=
  match s with
  | EmptyString => true
  | String c r => p c && all_chars p r
  end.

(** Longest prefix of [s] whose characters satisfy [p], and the rest. *)
Fixpoint span (p : ascii -> bool) (s : string) : string * string :=
  match s with
  | EmptyString => (EmptyString, EmptyString)
  | String c r =>
      if p c then let '(a, b) := span p r in (String c a, b)
      else (EmptyString, s)
  end.

Definition strip_prefix (p s : string) : option string :=
  if String.prefix p s
  then Some (substring (String.length p) (String.length s - String.length p) s)
  else None.

Definition nonempty (s : string) : bool :=
  match s with EmptyString => false | _ => true end.

(** [s.slice(1, -1)] *)
Definition slice_1_m1 (s : string) : string :=
  substring 1 (String.length s - 2) s.

(** [s.slice(-1)] *)
Definition slice_m1 (s : string) : string :=
  substring (String.length s - 1) 1 s.

(** [s.split(',')] *)
Fixpoint split_comma_aux (cur : string) (s : string) : list string :=
  match s with
  | EmptyString => [cur]
  | String c r =>
      if Ascii.eqb c ","
      then cur :: split_comma_aux EmptyString r
      else split_comma_aux (cur ++ String c EmptyString) r
  end.
Definition split_comma (s : string) : list string :=
  split_comma_aux EmptyString s.

(** [s.split(/,\s*/g)]: [skip] is set while the blanks that follow a
    comma are being consumed by the separator. *)
Fixpoint split_comma_ws_aux (skip : bool) (cur : string) (s : string)
  : list string :=
  match s with
  | EmptyString => [cur]
  | String c r =>
      if Ascii.eqb c ","
      then cur :: split_comma_ws_aux true EmptyString r
      else if skip && is_space c
           then split_comma_ws_aux true cur r
           else split_comma_ws_aux false (cur ++ String c EmptyString) r
  end.
Definition split_comma_ws (s : string) : list string :=
  split_comma_ws_aux false EmptyString s.

(** [/^[+\-*/]$/.test(s)] *)
Definition re_arith (s : string) : bool :=
  match s with
  | String c EmptyString => is_arith_char c
  | _ => false
  end.

(** [/^[+\-*/<>=a-zA-Z0-9_:]+$/.test(s)] *)
Definition re_name (s : string) : bool :=
  nonempty s && all_chars is_name_char s.

(** [/^<([^>]+)>$/.exec(s)], returning the captured group. *)
Definition re_angle (s : string) : option string :=
  match s with
  | String c r =>
      if Ascii.eqb c "<"
      then let '(inner, rest) := span not_gt r in
           if nonempty inner && String.eqb rest ">" then Some inner else None
      else None
  | EmptyString => None
  end.

(** [/^Fn<(\w+)<([a-z,\s]+)>>$/.exec(s)], returning both groups. *)
Definition re_fn_params (s : string) : option (string * string) :=
  match strip_prefix "Fn<" s with
  | Some r =>
      let '(ret, r1) := span is_word r in
      match r1 with
      | String c r2 =>
          if nonempty ret && Ascii.eqb c "<"
          then let '(ps, r3) := span is_param_char r2 in
               if nonempty ps && String.eqb r3 ">>" then Some (ret, ps)
               else None
          else None
      | EmptyString => None
      end
  | None => None
  end.

(** [/^Fn<(\w+)>$/.exec(s)], returning the group. *)
Definition re_fn_ret (s : string) : option string :=
  match strip_prefix "Fn<" s with
  | Some r =>
      let '(ret, r1) := span is_word r in
      if nonempty ret && String.eqb r1 ">" then Some ret else None
  | None => None
  end.

Fixpoint join (sep : string) (l : list string) : string :=
  match l with
  | [] => EmptyString
  | [x] => x
  | x :: r => x ++ sep ++ join sep r
  end.

(** [String(v)]: inside [Array.prototype.join] an [undefined] element
    prints as the empty string. *)
Fixpoint toString (v : sexp) : string :=
  match v with
  | Undefined => "undefined"
  | Num n => NilZero.string_of_int (Z.to_int n)
  | Bool true => "true"
  | Bool false => "false"
  | Str s => s
  | Arr l =>
      join "," (List.map (fun e => match e with
                                   | Undefined => EmptyString
                                   | _ => toString e
                                   end) l)
  end.

(** [v[i]] for a value on which property reads do not throw. *)
Definition index (v : sexp) (i : nat) : sexp :=
  match v with
  | Str s => match String.get i s with
             | Some c => Str (String c EmptyString)
             | None => Undefined
             end
  | Arr l => nth i l Undefined
  | _ => Undefined
  end.

(** [v.length] of a string or an array. *)
Definition length (v : sexp) : option nat :=
  match v with
  | Str s => Some (String.length s)
  | Arr l => Some (List.length l)
  | _ => None
  end.

(** The elements an array pattern [[a, b, ...] = v] draws from [v];
    [None] when [v] is not iterable. *)
Definition iter (v : sexp) : option (list sexp) :=
  match v with
  | Arr l => Some l
  | Str s => Some (List.map (fun c => Str (String c EmptyString))
                            (list_ascii_of_string s))
  | _ => None
  end.

(** [v === 'kw'] *)
Definition is_str (v : sexp) (kw : string) : bool :=
  match v with
  | Str s => String.eqb s kw
  | _ => false
  end.

End Js.


(** ** Outcomes *)

(** The exceptions of the checker ([throw] of a message) and of the
    JavaScript runtime underneath it. *)
Inductive error : Type :=
| DuplicateType            (* Type ... is already defined *)
| UnknownType              (* Type ... is not defined / Unknown type: ... *)
| UnknownClass             (* Unknown class: ... *)
| TypeMismatch             (* Expected "..." type for ..., but got "..." *)
| ReturnTypeMismatch       (* Expected function ... to return ... *)
| OperatorOperandMismatch  (* Unxpected type: ... allowed: ... *)
| UnknownOperator          (* Unknown operator: ... *)
| ArityMismatch            (* Operator '...' expects ... operands *)
| NoActualTypes            (* No actual types provided in generic call *)
| UnknownExpression        (* Unknown type for expression ... *)
| UnboundName              (* TypeEnvironment.lookup on an absent name *)
| JsTypeError              (* property read on undefined, call of a non-function, non-iterable pattern *)
| JsReferenceError         (* read of an undeclared identifier *)
| OutsideModel.            (* a declared name that is not a string token *)

(** A computation returns, throws, or is cut off by the step bound that
    stands for the JavaScript call stack. *)
Inductive result (A : Type) : Type :=
| Val (a : A)
| Exn (e : error)
| Timeout.
Arguments Val {A} a.
Arguments Exn {A} e.
Arguments Timeout {A}.

Definition rbind {A B} (m : result A) (k : A -> result B) : result B :=
  match m with
  | Val a => k a
  | Exn e => Exn e
  | Timeout => Timeout
  end.

Declare Scope result_scope.
Delimit Scope result_scope with result.
Notation "'let?' x := m 'in' k" := (rbind m (fun x => k))
  (at level 10, x pattern, m at level 100, k at level 200) : result_scope.

(** ** The type hierarchy ([Type.js]) *)

Inductive ty : Type :=
| Prim (name : string)
| Function (name : string) (paramTypes : list ty) (returnType : ty)
| Alias (name : string) (parent : ty)
| Class (name : string) (superClass : option ty) (env : nat)
| Union (stamp : nat) (name : string) (optionTypes : list ty)
| GenericFunction (name : string) (genericTypes : list string)
    (params returnType body : sexp) (env : nat).

(** A JavaScript value in type position: a type object or [undefined]. *)
Abbreviation jsval := (option ty).

Module Ty.

(** [t.getName()], which is [t.name] once the object is built. *)
Definition getName (t : ty) : string :=
  match t with
  | Prim n | Function n _ _ | Alias n _ | Class n _ _ | Union _ n _
  | GenericFunction n _ _ _ _ _ => n
  end.

(** [a === b] on type objects, for the kinds that are ever compared by
    identity: primitives are singletons, a class owns exactly one
    scope, a union carries its allocation stamp. *)
Definition same (a b : ty) : bool :=
  match a, b with
  | Prim n, Prim m => String.eqb n m
  | Class _ _ e1, Class _ _ e2 => Nat.eqb e1 e2
  | Union i _ _, Union j _ _ => Nat.eqb i j
  | _, _ => false
  end.

(** [a != b] on values that are type objects or [undefined]. *)
Definition loose_ne (a b : jsval) : bool :=
  match a, b with
  | None, None => false
  | Some x, Some y => negb (same x y)
  | _, _ => true
  end.

Definition is_alias (t : ty) : bool :=
  match t with Alias _ _ => true | _ => false end.
Definition is_union (t : ty) : bool :=
  match t with Union _ _ _ => true | _ => false end.

(** [Type.Function.prototype.getName] when no name was given. *)
Definition Function_getName (paramTypes : list ty) (returnType : ty) : string :=
  "Fn<" ++ getName returnType
  ++ (match paramTypes with
      | [] => EmptyString
      | _ => "<" ++ Js.join "," (List.map getName paramTypes) ++ ">"
      end)
  ++ ">".

(** [new Type.Function({paramTypes, returnType})] *)
Definition mkFunction (paramTypes : list ty) (returnType : ty) : ty :=
  Function (Function_getName paramTypes returnType) paramTypes returnType.

Section Equals.
(** [Type.null] as it reads when the comparison runs. *)
Variable null_ : jsval.
(** The dynamically dispatched [a.equals(b)]. *)
Variable equals : ty -> jsval -> result bool.

Local Open Scope result_scope.

(** [xs.some(t => t.equals(other))] *)
Fixpoint some_equals (xs : list ty) (other : jsval) : result bool :=
  match xs with
  | [] => Val false
  | t :: r =>
      let? b := equals t other in
      if b then Val true else some_equals r other
  end.

(** [Type.prototype.equals], inherited by primitives and generic
    functions. *)
Definition Type_equals (this : ty) (other : jsval) : result bool :=
  match other with
  | None => Exn JsTypeError
  | Some o =>
      if is_alias o then equals o (Some this)
      else if is_union o then equals o (Some this)
      else Val (String.eqb (getName this) (getName o))
  end.

(** The loop of [Type.Function.prototype.equals] over the parameters. *)
Fixpoint params_equal (ps qs : list ty) : result bool :=
  match ps with
  | [] => Val true
  | p :: ps' =>
      let? b := equals p (hd_error qs) in
      if b then params_equal ps' (tl qs) else Val false
  end.

Definition Function_equals (paramTypes : list ty) (returnType : ty)
  (other : jsval) : result bool :=
  match other with
  | Some (Function _ qs r) =>
      if negb (Nat.eqb (List.length paramTypes) (List.length qs))
      then Val false
      else
        let? b := params_equal paramTypes qs in
        if negb b then Val false
        else
          let? b' := equals returnType (Some r) in
          if negb b' then Val false else Val true
  | _ => Exn JsTypeError
  end.

Definition Alias_equals (name_ : string) (parent : ty) (other : jsval)
  : result bool :=
  match other with
  | None => Exn JsTypeError
  | Some o =>
      if String.eqb name_ (getName o) then Val true
      else equals parent other
  end.

Definition Class_equals (this : ty) (superClass : jsval) (other : jsval)
  : result bool :=
  if match other with Some o => same this o | None => false end
  then Val true
  else
    match other with
    | Some (Alias _ _ as o) => equals o (Some this)
    | _ =>
        if loose_ne superClass null_
        then match superClass with
             | Some s => equals s other
             | None => Exn JsTypeError
             end
        else Val false
    end.

(** The loop of [Type.Union.prototype.includesAll]. *)
Fixpoint includes_each (this : ty) (types : list jsval) : result bool :=
  match types with
  | [] => Val true
  | t :: r =>
      let? b := equals this t in
      if negb b then Val false else includes_each this r
  end.

Definition includesAll (this : ty) (optionTypes : list ty)
  (types : list jsval) : result bool :=
  if negb (Nat.eqb (List.length types) (List.length optionTypes))
  then Val false
  else includes_each this types.

Definition Union_equals (this : ty) (optionTypes : list ty)
  (other : jsval) : result bool :=
  if match other with Some o => same this o | None => false end
  then Val true
  else
    match other with
    | Some (Alias _ _ as o) => equals o (Some this)
    | Some (Union _ _ os) => includesAll this optionTypes (List.map Some os)
    | _ => some_equals optionTypes other
    end.

(** Method dispatch on the class of the receiver. *)
Definition dispatch_equals (this : ty) (other : jsval) : result bool :=
  match this with
  | Prim _ | GenericFunction _ _ _ _ _ _ => Type_equals this other
  | Function _ ps r => Function_equals ps r other
  | Alias n p => Alias_equals n p other
  | Class _ s _ => Class_equals this s other
  | Union _ _ os => Union_equals this os other
  end.
End Equals.

(** [this.equals(other)], unfolded to at most [fuel] nested calls. *)
Fixpoint equals_upto (fuel : nat) (null_ : jsval) (this : ty) (other : jsval)
  : result bool :=
  match fuel with
  | O => Timeout
  | S n => dispatch_equals null_ (equals_upto n null_) this other
  end.

(** Size of a type object, counting every node once. *)
Fixpoint size (t : ty) : nat :=
  match t with
  | Prim _ | GenericFunction _ _ _ _ _ _ => 1
  | Function _ ps r => S (list_sum (List.map size ps) + size r)
  | Alias _ p => S (size p)
  | Class _ s _ => S (match s with Some x => size x | None => 0 end)
  | Union _ _ os => S (list_sum (List.map size os))
  end.

Definition size_val (v : jsval) : nat :=
  match v with Some t => size t | None => 0 end.

(** Every call of [equals] either shrinks the pair of its arguments or
    swaps them once before shrinking, so twice their joint size bounds
    the nesting. *)
Definition equals_bound (this : ty) (other : jsval) : nat :=
  2 * (size this + size_val other) + 2.

Definition equals (null_ : jsval) (this : ty) (other : jsval) : result bool :=
  equals_upto (equals_bound this other) null_ this other.

(** Whether [this.equals(other)] begins by handing over to
    [other.equals(this)]: it does so at most once in a row, since the
    receiver is then an alias, or a union facing neither alias nor
    union. *)
Definition swaps (this : ty) (other : jsval) : nat :=
  match other with
  | Some (Alias _ _) => match this with Alias _ _ => 0 | _ => 1 end
  | Some (Union _ _ _) =>
      match this with
      | Prim _ | GenericFunction _ _ _ _ _ _ => 1
      | _ => 0
      end
  | _ => 0
  end.

(** The nesting that [this.equals(other)] needs at most. *)
Definition need (this : ty) (other : jsval) : nat :=
  2 * (size this + size_val other) + swaps this other + 1.

End Ty.

(** ** Scopes and the checker state *)

(** Modelled from the spec: [TypeEnvironment.js] is not among the source
    files.  A scope is a record of bindings with a link to its parent;
    [define] writes the current scope only, [lookup] walks up to the root
    and fails with UnboundName when the name is absent everywhere, and a
    new scope is built from its initial bindings and its parent.  A bound
    value may be [undefined], since [define] stores whatever it is given. *)
Record TypeEnvironment : Type := mkEnv {
  record : gmap string jsval;
  parent : option nat;
}.

(** The mutable world of one checker: the registry (own properties of
    [Type]), the store of scopes, and the stamp of the next union. *)
Record state : Type := mkState {
  Type_ : gmap string ty;
  heap : list TypeEnvironment;
  stamp : nat;
}.

Definition M (A : Type) : Type := state -> result (A * state).

Definition ret {A} (a : A) : M A := fun st => Val (a, st).
Definition throw {A} (e : error) : M A := fun _ => Exn e.
Definition timeout {A} : M A := fun _ => Timeout.
Definition bind {A B} (m : M A) (k : A -> M B) : M B :=
  fun st =>
    match m st with
    | Val (a, st') => k a st'
    | Exn e => Exn e
    | Timeout => Timeout
    end.
Definition lift {A} (r : result A) : M A :=
  fun st => match r with
            | Val a => Val (a, st)
            | Exn e => Exn e
            | Timeout => Timeout
            end.

Declare Scope checker_scope.
Delimit Scope checker_scope with checker.
Notation "'do' x <- m ; k" := (bind m (fun x => k))
  (at level 10, x pattern, m at level 100, k at level 200,
   format "'[v' 'do'  x  <-  m ; '/' k ']'") : checker_scope.
Notation "m ;; k" := (bind m (fun _ => k))
  (at level 100, k at level 200, right associativity) : checker_scope.
Local Open Scope checker_scope.

Fixpoint mapM {A B} (f : A -> M B) (l : list A) : M (list B) :=
  match l with
  | [] => ret []
  | x :: r => do y <- f x; do ys <- mapM f r; ret (y :: ys)
  end.

Module Env.

(** Modelled from the spec: [new TypeEnvironment(record, parent)]. *)
Definition new (rec : gmap string jsval) (par : option nat) : M nat :=
  fun st =>
    Val (List.length (heap st),
         mkState (Type_ st) (heap st ++ [mkEnv rec par]) (stamp st)).

(** Modelled from the spec: [env.define(name, type)] writes the current
    scope, overwriting, and returns the type. *)
Definition define (env : nat) (name : sexp) (v : jsval) : M jsval :=
  fun st =>
    match heap st !! env with
    | Some sc =>
        Val (v, mkState (Type_ st)
                  (<[env := mkEnv (<[Js.toString name := v]> (record sc))
                                  (parent sc)]> (heap st))
                  (stamp st))
    | None => Exn JsTypeError
    end.

(** Modelled from the spec: the walk of [lookup] from the current scope
    up the parent links, over at most [fuel] scopes. *)
Fixpoint resolve (fuel : nat) (h : list TypeEnvironment) (env : nat)
  (name : string) : result jsval :=
  match fuel with
  | O => Timeout
  | S n =>
      match h !! env with
      | None => Exn JsTypeError
      | Some sc =>
          match record sc !! name with
          | Some v => Val v
          | None =>
              match parent sc with
              | Some p => resolve n h p name
              | None => Exn UnboundName
              end
          end
      end
  end.

(** Modelled from the spec: [env.lookup(name)].  A chain of distinct
    scopes is no longer than the store. *)
Definition lookup (env : nat) (name : sexp) : M jsval :=
  fun st =>
    lift (resolve (S (List.length (heap st))) (heap st) env
            (Js.toString name)) st.

(** Scopes are created after their parents: every parent link points to
    an older scope. *)
Definition well_founded (h : list TypeEnvironment) : Prop :=
  forall e sc p, h !! e = Some sc -> parent sc = Some p -> p < e.

End Env.

(** ** The registry and [Type.fromString] ([Type.js]) *)

Module Reg.

(** [Type[key]] *)
Definition get (key : sexp) : M jsval :=
  fun st => Val (Type_ st !! Js.toString key, st).

(** [Type.number], [Type.null], ... *)
Definition static (key : string) : M jsval :=
  fun st => Val (Type_ st !! key, st).

(** [Type.hasOwnProperty(key)] *)
Definition hasOwnProperty (key : sexp) : M bool :=
  fun st => Val (bool_decide (is_Some (Type_ st !! Js.toString key)), st).

(** [Type[key] = t] *)
Definition set (key : string) (t : ty) : M unit :=
  fun st => Val (tt, mkState (<[key := t]> (Type_ st)) (heap st) (stamp st)).

(** The identity of a freshly constructed union object. *)
Definition fresh_stamp : M nat :=
  fun st => Val (stamp st, mkState (Type_ st) (heap st) (S (stamp st))).

Section FromString.
(** The nested call [Type.fromString(...)]. *)
Variable fromString : sexp -> M ty.

(** [Type.Function.fromString(typeStr)] *)
Definition Function_fromString (typeStr : string) : M ty :=
  do known <- hasOwnProperty (Str typeStr);
  if known
  then do t <- get (Str typeStr);
       match t with Some t => ret t | None => throw JsTypeError end
  else
    match Js.re_fn_params typeStr with
    | Some (returnTypeStr, paramsStr) =>
        do paramTypes <- mapM (fun p => fromString (Str p))
                              (Js.split_comma_ws paramsStr);
        do returnType <- fromString (Str returnTypeStr);
        let t := Function typeStr paramTypes returnType in
        set typeStr t;; ret t
    | None =>
        match Js.re_fn_ret typeStr with
        | Some returnTypeStr =>
            do returnType <- fromString (Str returnTypeStr);
            let t := Function typeStr [] returnType in
            set typeStr t;; ret t
        | None => throw UnknownType
        end
    end.

(** [Type.fromString(typeStr)] *)
Definition Type_fromString (typeStr : sexp) : M ty :=
  do known <- hasOwnProperty typeStr;
  if known
  then do t <- get typeStr;
       match t with Some t => ret t | None => throw JsTypeError end
  else
    match typeStr with
    | Str s =>
        if String.prefix "Fn<" s then Function_fromString s
        else throw UnknownType
    | _ => throw JsTypeError
    end.
End FromString.

Fixpoint fromString_upto (fuel : nat) (typeStr : sexp) : M ty :=
  match fuel with
  | O => timeout
  | S n => Type_fromString (fromString_upto n) typeStr
  end.

(** The pieces of a function descriptor contain no angle bracket, so the
    nested calls never reach [Type.Function.fromString] again: two
    levels are all the recursion there is. *)
Definition fromString (typeStr : sexp) : M ty := fromString_upto 2 typeStr.

(** The registry when [Type.js] has been loaded. *)
Definition initial : gmap string ty :=
  <["number" := Prim "number"]>
  (<["string" := Prim "string"]>
  (<["boolean" := Prim "boolean"]>
  (<["null" := Prim "null"]>
  (<["any" := Prim "any"]> ∅)))).

End Reg.

Definition initial_state : state := mkState Reg.initial [] 0.


(** ** The checker ([EvaTC.js]) *)

Module EvaTC.

(** [a.equals(b)] with [Type.null] read from the registry. *)
Definition equals (a : jsval) (b : jsval) : M bool :=
  fun st =>
    match a with
    | Some t => lift (Ty.equals (Type_ st !! "null") t b) st
    | None => Exn JsTypeError
    end.

(** [t.getField(name)]: only classes have the method. *)
Definition getField (t : jsval) (name : sexp) : M jsval :=
  match t with
  | Some (Class _ _ e) => Env.lookup e name
  | _ => throw JsTypeError
  end.

Definition _isNumber (exp : sexp) : bool :=
  match exp with Num _ => true | _ => false end.

Definition _isString (exp : sexp) : bool :=
  match exp with
  | Str s => Js.is_str (Js.index exp 0) (String dquote EmptyString)
             && String.eqb (Js.slice_m1 s) (String dquote EmptyString)
  | _ => false
  end.

Definition _isBoolean (exp : sexp) : bool :=
  match exp with
  | Bool _ => true
  | _ => Js.is_str exp "true" || Js.is_str exp "false"
  end.

(** The first test of [tc] that reads [exp[0]]: it throws on
    [undefined]. *)
Definition _isBinary (exp : sexp) : M bool :=
  match exp with
  | Undefined => throw JsTypeError
  | _ => ret (Js.re_arith (Js.toString (Js.index exp 0)))
  end.

Definition _isBooleanBinary (exp : sexp) : bool :=
  let op := Js.index exp 0 in
  Js.is_str op "==" || Js.is_str op "!=" || Js.is_str op ">="
  || Js.is_str op "<=" || Js.is_str op ">" || Js.is_str op "<".

Definition _isVariableName (exp : sexp) : bool :=
  match exp with
  | Str s => Js.re_name s
  | _ => false
  end.

Definition isArray (exp : sexp) : bool :=
  match exp with Arr _ => true | _ => false end.

Definition has_length (exp : sexp) (n : nat) : bool :=
  match Js.length exp with
  | Some k => Nat.eqb k n
  | None => false
  end.

Definition matches_angle (v : sexp) : bool :=
  match Js.re_angle (Js.toString v) with Some _ => true | None => false end.

Definition _isGenericLambdaFunction (exp : sexp) : bool :=
  has_length exp 6 && matches_angle (Js.index exp 1).

Definition _isGenericDefFunction (exp : sexp) : bool :=
  has_length exp 7 && matches_angle (Js.index exp 2).

Definition _transformDefToVarLambda (exp : sexp) : sexp :=
  if _isGenericDefFunction exp
  then
    Arr [Str "var"; Js.index exp 1;
         Arr [Str "lambda"; Js.index exp 2; Js.index exp 3; Js.index exp 4;
              Js.index exp 5; Js.index exp 6]]
  else
    Arr [Str "var"; Js.index exp 1;
         Arr [Str "lambda"; Js.index exp 2; Js.index exp 3; Js.index exp 4;
              Js.index exp 5]].

(** [v.slice(1, -1)] on a string or an array. *)
Definition slice_1_m1 (v : sexp) : M sexp :=
  match v with
  | Str s => ret (Str (Js.slice_1_m1 s))
  | Arr l => ret (Arr (removelast (tl l)))
  | _ => throw JsTypeError
  end.

(** The array pattern [[a, b] = v]. *)
Definition destruct2 (v : sexp) : M (sexp * sexp) :=
  match Js.iter v with
  | Some l => ret (nth 0 l Undefined, nth 1 l Undefined)
  | None => throw JsTypeError
  end.

Definition _isTypeCastCondition (condition : sexp) : M bool :=
  do (op, lhs) <- destruct2 condition;
  if Js.is_str op "=="
  then match lhs with
       | Undefined => throw JsTypeError
       | _ => ret (Js.is_str (Js.index lhs 0) "typeof")
       end
  else ret false.

Definition _getSpecifiedType (condition : sexp) : M (sexp * sexp) :=
  match Js.iter condition with
  | Some l =>
      do (_, name) <- destruct2 (nth 1 l Undefined);
      do specificType <- slice_1_m1 (nth 2 l Undefined);
      ret (name, specificType)
  | None => throw JsTypeError
  end.

Definition _checkArity (exp : sexp) (arity : nat) : M unit :=
  if has_length exp (S arity) then ret tt else throw ArityMismatch.

Definition _getOperandTypesForOperator (operator : sexp) : M (list jsval) :=
  if Js.is_str operator "+"
  then do s <- Reg.static "string"; do n <- Reg.static "number"; ret [s; n]
  else if Js.is_str operator "-" || Js.is_str operator "/"
          || Js.is_str operator "*"
  then do n <- Reg.static "number"; ret [n]
  else throw UnknownOperator.

(** [allowedTypes.some(t => t.equals(type_))] *)
Fixpoint some_allowed (allowedTypes : list jsval) (type_ : jsval) : M bool :=
  match allowedTypes with
  | [] => ret false
  | t :: r =>
      do b <- equals t type_;
      if b then ret true else some_allowed r type_
  end.

(** [type_.includesAll(types)] on a union. *)
Definition includesAll (type_ : ty) (optionTypes : list ty)
  (types : list jsval) : M bool :=
  fun st =>
    lift (Ty.includesAll (Ty.equals (Type_ st !! "null"))
            type_ optionTypes types) st.

Definition _expectOperatorType (type_ : jsval) (allowedTypes : list jsval)
  : M unit :=
  match type_ with
  | Some (Union _ _ optionTypes as u) =>
      do ok <- includesAll u optionTypes allowedTypes;
      if ok then ret tt else throw OperatorOperandMismatch
  | _ =>
      do ok <- some_allowed allowedTypes type_;
      if ok then ret tt else throw OperatorOperandMismatch
  end.

Definition _expect (actualType expectedType : jsval) : M jsval :=
  do ok <- equals actualType expectedType;
  if negb ok then throw TypeMismatch else ret actualType.

(** The loop of [_checkFunctionCall] over the arguments. *)
Fixpoint check_args (paramTypes : list ty) (argTypes : list jsval) : M unit :=
  match argTypes with
  | [] => ret tt
  | argType :: rest =>
      do any <- Reg.static "any";
      (if match hd_error paramTypes, any with
          | Some p, Some a => Ty.same p a
          | None, None => true
          | _, _ => false
          end
       then ret tt
       else do _ <- _expect argType (hd_error paramTypes); ret tt);;
      check_args (tl paramTypes) rest
  end.

Definition _checkFunctionCall (fn : jsval) (argTypes : list jsval)
  : M jsval :=
  match fn with
  | Some (Function _ paramTypes returnType) =>
      if negb (Nat.eqb (List.length paramTypes) (List.length argTypes))
      then throw JsReferenceError
      else check_args paramTypes argTypes;; ret (Some returnType)
  | _ => throw JsTypeError
  end.

Definition _getGenericTypesMap (genericTypes : list string)
  (actualType : list string) : gmap string sexp :=
  fold_left
    (fun boundTypes i =>
       <[nth i genericTypes EmptyString :=
           match actualType !! i with
           | Some a => Str a
           | None => Undefined
           end]> boundTypes)
    (seq 0 (List.length genericTypes)) ∅.

(** [map.has(k) ? map.get(k) : k] *)
Definition bound (genericTypesMap : gmap string sexp) (k : sexp) : sexp :=
  match k with
  | Str s => match genericTypesMap !! s with
             | Some a => a
             | None => k
             end
  | _ => k
  end.

Definition _bindFunctionTypes (params returnType : sexp)
  (genericTypesMap : gmap string sexp) : M (sexp * sexp) :=
  match params with
  | Undefined => throw JsTypeError
  | _ =>
      do actualParams <-
        mapM (fun i =>
                do (paramName, paramType) <- destruct2 (Js.index params i);
                ret (Arr [paramName; bound genericTypesMap paramType]))
             (seq 0 (match Js.length params with Some n => n | None => 0 end));
      ret (Arr actualParams, bound genericTypesMap returnType)
  end.

Definition _extractActualCallTypes (exp : sexp) : M (list string) :=
  match Js.re_angle (Js.toString (Js.index exp 1)) with
  | None => throw NoActualTypes
  | Some inner => ret (Js.split_comma inner)
  end.

Definition _createGenericFunctionType (exp : sexp) (env : nat) : M jsval :=
  do genericTypesStr <- slice_1_m1 (Js.index exp 1);
  match genericTypesStr with
  | Str s =>
      ret (Some (GenericFunction ("lambda <" ++ s ++ ">") (Js.split_comma s)
                   (Js.index exp 2) (Js.index exp 4) (Js.index exp 5) env))
  | _ => throw JsTypeError
  end.

(** [params.map(([name, typeStr]) => Type.fromString(typeStr))] *)
Definition signature_types (params : sexp) : M (list ty) :=
  match params with
  | Arr l =>
      mapM (fun p => do (_, typeStr) <- destruct2 p; Reg.fromString typeStr) l
  | _ => throw JsTypeError
  end.

(** The [forEach] of [_tcFunction]: the record of parameter bindings and
    the list of parameter types. *)
Fixpoint bind_params (l : list sexp) (paramsRecord : gmap string jsval)
  (paramTypes : list ty) : M (gmap string jsval * list ty) :=
  match l with
  | [] => ret (paramsRecord, paramTypes)
  | p :: r =>
      do (name, typeStr) <- destruct2 p;
      do paramType <- Reg.fromString typeStr;
      bind_params r (<[Js.toString name := Some paramType]> paramsRecord)
                  (paramTypes ++ [paramType])
  end.

Section Check.
(** The recursive call [this.tc(exp, env)]. *)
Variable tc : sexp -> nat -> M jsval.

Definition _tcBlock (block : sexp) (env : nat) : M jsval :=
  match Js.iter block with
  | Some l =>
      fold_left (fun acc exp => acc;; tc exp env) (tl l) (ret None)
  | None => throw JsTypeError
  end.

Definition _tcBody (body : sexp) (env : nat) : M jsval :=
  match body with
  | Undefined => throw JsTypeError
  | _ =>
      if Js.is_str (Js.index body 0) "begin" then _tcBlock body env
      else tc body env
  end.

Definition _binary (exp : sexp) (env : nat) : M jsval :=
  _checkArity exp 2;;
  do t1 <- tc (Js.index exp 1) env;
  do t2 <- tc (Js.index exp 2) env;
  do allowedTypes <- _getOperandTypesForOperator (Js.index exp 0);
  _expectOperatorType t1 allowedTypes;;
  _expectOperatorType t2 allowedTypes;;
  _expect t2 t1.

Definition _booleanBinary (exp : sexp) (env : nat) : M jsval :=
  _checkArity exp 2;;
  do t1 <- tc (Js.index exp 1) env;
  do t2 <- tc (Js.index exp 2) env;
  do _ <- _expect t2 t1;
  Reg.static "boolean".

Definition _tcFunction (params returnTypeStr body : sexp) (env : nat)
  : M jsval :=
  do returnType <- Reg.fromString returnTypeStr;
  match params with
  | Arr l =>
      do (paramsRecord, paramTypes) <- bind_params l ∅ [];
      do fnEnv <- Env.new paramsRecord (Some env);
      do actualReturnType <- _tcBody body fnEnv;
      do ok <- equals (Some returnType) actualReturnType;
      if negb ok then throw ReturnTypeMismatch
      else ret (Some (Ty.mkFunction paramTypes returnType))
  | _ => throw JsTypeError
  end.

Definition _createSimpleFunctionType (exp : sexp) (env : nat) : M jsval :=
  _tcFunction (Js.index exp 1) (Js.index exp 3) (Js.index exp 4) env.

(** [(type <name> <base>)] *)
Definition tc_type (exp : sexp) : M jsval :=
  let name := Js.index exp 1 in
  let base := Js.index exp 2 in
  match base with
  | Undefined => throw JsTypeError
  | _ =>
      if Js.is_str (Js.index base 0) "or"
      then
        do optionTypes <-
          mapM Reg.fromString
               (match base with Arr l => tl l | _ => [] end);
        match name with
        | Str n =>
            do i <- Reg.fresh_stamp;
            let u := Union i n optionTypes in
            Reg.set n u;; ret (Some u)
        | _ => throw OutsideModel
        end
      else
        do dup <- Reg.hasOwnProperty name;
        if dup then throw DuplicateType
        else
          do known <- Reg.hasOwnProperty base;
          if negb known then throw UnknownType
          else
            do parent <- Reg.get base;
            match name, parent with
            | Str n, Some p =>
                let a := Alias n p in
                Reg.set n a;; ret (Some a)
            | Str _, None => throw JsTypeError
            | _, _ => throw OutsideModel
            end
  end.

(** [new Type.Class({name, superClass})]: the default applies to an
    [undefined] superclass; the scope is built last, below the scope of
    the superclass when that is not [Type.null].  A superclass value that
    has no [env] of its own hands [undefined] to the scope constructor,
    which is taken to mean no parent.  Returns the class and the scope it
    owns ([classType.env]). *)
Definition new_Class (name : string) (superClass : jsval) : M (ty * nat) :=
  do null_ <- Reg.static "null";
  let superClass := match superClass with
                    | None => null_
                    | Some _ => superClass
                    end in
  do env <-
    (if Ty.loose_ne superClass null_
     then match superClass with
          | Some (Class _ _ e) => Env.new ∅ (Some e)
          | Some (GenericFunction _ _ _ _ _ e) => Env.new ∅ (Some e)
          | Some _ => Env.new ∅ None
          | None => throw JsTypeError
          end
     else Env.new ∅ None);
  ret (Class name superClass env, env).

(** [(class <Name> <Super> <Body>)] *)
Definition tc_class (exp : sexp) (env : nat) : M jsval :=
  let name := Js.index exp 1 in
  let superClassName := Js.index exp 2 in
  let body := Js.index exp 3 in
  do superClass <- Reg.get superClassName;
  match name with
  | Str n =>
      do (classType, classEnv) <- new_Class n superClass;
      do _ <- Env.define env name (Some classType);
      Reg.set n classType;;
      do _ <- _tcBody body classEnv;
      ret (Some classType)
  | _ => throw OutsideModel
  end.

(** [(new <Class> <Arguments>...)] *)
Definition tc_new (exp : sexp) (env : nat) : M jsval :=
  let className := Js.index exp 1 in
  let argValues := match exp with Arr l => tl (tl l) | _ => [] end in
  do classType <- Reg.get className;
  match classType with
  | None => throw UnknownClass
  | Some _ =>
      do argTypes <- mapM (fun arg => tc arg env) argValues;
      do ctor <- getField classType (Str "constructor");
      _checkFunctionCall ctor (classType :: argTypes)
  end.

(** [(super <ClassName>)] *)
Definition tc_super (exp : sexp) : M jsval :=
  do classType <- Reg.get (Js.index exp 1);
  match classType with
  | None => throw UnknownClass
  | Some (Class _ superClass _) => ret superClass
  | Some _ => ret None
  end.

(** [(prop <instance> <name>)] *)
Definition tc_prop (exp : sexp) (env : nat) : M jsval :=
  do instanceType <- tc (Js.index exp 1) env;
  getField instanceType (Js.index exp 2).

(** [(var x 10)], [(var (x number) 10)] *)
Definition tc_var (exp : sexp) (env : nat) : M jsval :=
  let name := Js.index exp 1 in
  let value := Js.index exp 2 in
  do valueType <- tc value env;
  if isArray name
  then
    let varName := Js.index name 0 in
    let typeStr := Js.index name 1 in
    do expectedType <- Reg.fromString typeStr;
    do _ <- _expect valueType (Some expectedType);
    Env.define env varName (Some expectedType)
  else Env.define env name valueType.

(** [(set x 10)], [(set (prop self x) 10)] *)
Definition tc_set (exp : sexp) (env : nat) : M jsval :=
  let ref := Js.index exp 1 in
  let value := Js.index exp 2 in
  match ref with
  | Undefined => throw JsTypeError
  | _ =>
      if Js.is_str (Js.index ref 0) "prop"
      then
        do instanceType <- tc (Js.index ref 1) env;
        do valueType <- tc value env;
        do propType <- getField instanceType (Js.index ref 2);
        _expect valueType propType
      else
        do valueType <- tc value env;
        do varType <- tc ref env;
        _expect valueType varType
  end.

(** [(begin ...)] *)
Definition tc_begin (exp : sexp) (env : nat) : M jsval :=
  do blockEnv <- Env.new ∅ (Some env);
  _tcBlock exp blockEnv.

(** [(if <condition> <consequent> <alternative>)] *)
Definition tc_if (exp : sexp) (env : nat) : M jsval :=
  let condition := Js.index exp 1 in
  let consequent := Js.index exp 2 in
  let alternative := Js.index exp 3 in
  do t1 <- tc condition env;
  do boolean <- Reg.static "boolean";
  do _ <- _expect t1 boolean;
  do cast <- _isTypeCastCondition condition;
  do consequentEnv <-
    (if cast
     then
       do (name, specificType) <- _getSpecifiedType condition;
       do t <- Reg.fromString specificType;
       Env.new {[Js.toString name := Some t]} (Some env)
     else ret env);
  do t2 <- tc consequent consequentEnv;
  do t3 <- tc alternative env;
  _expect t3 t2.

(** [(while <condition> <body>)] *)
Definition tc_while (exp : sexp) (env : nat) : M jsval :=
  do t1 <- tc (Js.index exp 1) env;
  do boolean <- Reg.static "boolean";
  do _ <- _expect t1 boolean;
  tc (Js.index exp 2) env.

(** [(def <name> <params> -> <ret> <body>)] *)
Definition tc_def (exp : sexp) (env : nat) : M jsval :=
  let varExp := _transformDefToVarLambda exp in
  (if negb (_isGenericDefFunction exp)
   then
     let name := Js.index exp 1 in
     let params := Js.index exp 2 in
     let returnTypeStr := Js.index exp 4 in
     do paramTypes <- signature_types params;
     do returnType <- Reg.fromString returnTypeStr;
     do _ <- Env.define env name
               (Some (Ty.mkFunction paramTypes returnType));
     ret tt
   else ret tt);;
  tc varExp env.

(** [(lambda <params> -> <ret> <body>)] *)
Definition tc_lambda (exp : sexp) (env : nat) : M jsval :=
  if _isGenericLambdaFunction exp
  then _createGenericFunctionType exp env
  else _createSimpleFunctionType exp env.

(** [(<fn> <args>...)] *)
Definition tc_call (exp : sexp) (env : nat) : M jsval :=
  do fn <- tc (Js.index exp 0) env;
  do (actualFn, argValues) <-
    match fn with
    | Some (GenericFunction _ genericTypes params returnType body fenv) =>
        do actualTypes <- _extractActualCallTypes exp;
        let genericTypesMap :=
          _getGenericTypesMap genericTypes actualTypes in
        do (boundParams, boundReturnType) <-
          _bindFunctionTypes params returnType genericTypesMap;
        do actualFn <- _tcFunction boundParams boundReturnType body fenv;
        ret (actualFn, match exp with Arr l => tl (tl l) | _ => [] end)
    | _ => ret (fn, match exp with Arr l => tl l | _ => [] end)
    end;
  do argTypes <- mapM (fun arg => tc arg env) argValues;
  _checkFunctionCall actualFn argTypes.

(** One unfolding of [tc]: the tests in the order of the source. *)
Definition tc_step (exp : sexp) (env : nat) : M jsval :=
  if _isNumber exp then Reg.static "number"
  else if _isString exp then Reg.static "string"
  else if _isBoolean exp then Reg.static "boolean"
  else
    do binary <- _isBinary exp;
    if binary then _binary exp env
    else if _isBooleanBinary exp then _booleanBinary exp env
    else
      let tag := Js.index exp 0 in
      if Js.is_str tag "type" then tc_type exp
      else if Js.is_str tag "class" then tc_class exp env
      else if Js.is_str tag "new" then tc_new exp env
      else if Js.is_str tag "super" then tc_super exp
      else if Js.is_str tag "prop" then tc_prop exp env
      else if Js.is_str tag "var" then tc_var exp env
      else if _isVariableName exp then Env.lookup env exp
      else if Js.is_str tag "set" then tc_set exp env
      else if Js.is_str tag "begin" then tc_begin exp env
      else if Js.is_str tag "if" then tc_if exp env
      else if Js.is_str tag "while" then tc_while exp env
      else if Js.is_str tag "def" then tc_def exp env
      else if Js.is_str tag "lambda" then tc_lambda exp env
      else if isArray exp then tc_call exp env
      else throw UnknownExpression.
End Check.

(** [tc], unfolded to at most [fuel] nested calls. *)
Fixpoint tc (fuel : nat) (exp : sexp) (env : nat) : M jsval :=
  match fuel with
  | O => timeout
  | S n => tc_step (tc n) exp env
  end.

(** [_createGlobal] *)
Definition _createGlobal : M nat :=
  do version <- Reg.static "string";
  do sum <- Reg.fromString (Str "Fn<number<number,number>>");
  do square <- Reg.fromString (Str "Fn<number<number>>");
  do typeof <- Reg.fromString (Str "Fn<string<any>>");
  Env.new (<["VERSION" := version]>
           (<["sum" := Some sum]>
           (<["square" := Some square]>
           (<["typeof" := Some typeof]> ∅)))) None.

(** [tcGlobal] *)
Definition tcGlobal (fuel : nat) (exp : sexp) (global : nat) : M jsval :=
  _tcBody (tc fuel) exp global.

(** [new EvaTC()] on a freshly loaded [Type], then [tcGlobal(exp)]. *)
Definition run (fuel : nat) (exp : sexp) : result (jsval * state) :=
  (do global <- _createGlobal; tcGlobal fuel exp global) initial_state.

End EvaTC.

(** ** Notions used by the statements *)

(** [s'] extends [s] and agrees with it on every scope of [s] outside
    [P]. *)
Definition unchanged_outside (P : nat -> Prop) (s s' : state) : Prop :=
  List.length (heap s) <= List.length (heap s')
  /\ forall e, e < List.length (heap s) -> ~ P e -> heap s' !! e = heap s !! e.

(** Whenever [m] returns, it has written at most the scopes in [P] and
    scopes it created itself. *)
Definition Frame {A} (P : nat -> Prop) (m : M A) : Prop :=
  forall s a s', m s = Val (a, s') -> unchanged_outside P s s'.

Definition nowhere : nat -> Prop := fun _ => False.

(** Wherever [m] returns or throws, [m'] does the same. *)
Definition Extends {A} (m m' : M A) : Prop :=
  forall s, m s <> Timeout -> m' s = m s.

(** [m] returns or throws in every state: no bound is reached. *)
Definition Total {A} (m : M A) : Prop := forall s, m s <> Timeout.

(** Whenever [m] returns, it has written no scope at all. *)
Definition Quiet {A} (m : M A) : Prop :=
  forall s a s', m s = Val (a, s') -> heap s' = heap s.

(** [m] writes within [P], and the scope [f a] it hands over is in [P]
    or was created by [m]. *)
Definition Scoped {A} (P : nat -> Prop) (m : M A) (f : A -> nat) : Prop :=
  forall s a s', m s = Val (a, s') ->
    unchanged_outside P s s' /\ (P (f a) \/ List.length (heap s) <= f a).


(** The compound forms that fall through every keyword test of [tc] and
    reach the function-call branch. *)
Definition keywords : list string :=
  ["type"; "class"; "new"; "super"; "prop"; "var"; "set"; "begin"; "if";
   "while"; "def"; "lambda"].

Definition is_call_form (exp : sexp) : bool :=
  EvaTC.isArray exp
  && negb (Js.re_arith (Js.toString (Js.index exp 0)))
  && negb (EvaTC._isBooleanBinary exp)
  && forallb (fun kw => negb (Js.is_str (Js.index exp 0) kw)) keywords.

(** The narrowing condition [(== (typeof x) "T")]: an equality test
    between a [typeof] query on the bare name [x] and the quoted type
    name [T]. *)
Definition typeof_is (x T : string) : sexp :=
  Arr [Str "=="; Arr [Str "typeof"; Str x]; Str (quoted T)].

(** The value component of an outcome. *)
Definition value {A} (r : result (A * state)) : result A :=
  match r with
  | Val (a, _) => Val a
  | Exn e => Exn e
  | Timeout => Timeout
  end.

(** ** Sample programs *)

Module Sample.

Definition number_t : ty := Prim "number".
Definition string_t : ty := Prim "string".
Definition boolean_t : ty := Prim "boolean".

(** [(begin e1 e2 ...)] *)
Definition begin_ (es : list sexp) : sexp := Arr (Str "begin" :: es).

(** [(type name (or o1 o2 ...))] *)
Definition type_or (name : string) (options : list string) : sexp :=
  Arr [Str "type"; Str name; Arr (Str "or" :: List.map Str options)].

(** [(var (name descriptor) value)] *)
Definition var_typed (name : string) (descriptor value : sexp) : sexp :=
  Arr [Str "var"; Arr [Str name; descriptor]; value].

(** [(def fact ((n number)) -> number
       (if (== n 0) 1 ( * n (fact (- n 1)))))] *)
Definition fact : sexp :=
  Arr [Str "def"; Str "fact"; Arr [Arr [Str "n"; Str "number"]];
       Str "->"; Str "number";
       Arr [Str "if"; Arr [Str "=="; Str "n"; Num 0]; Num 1;
            Arr [Str "*"; Str "n";
                 Arr [Str "fact"; Arr [Str "-"; Str "n"; Num 1]]]]].

(** [(begin (type U (or number string)) (var (y U) 10))] *)
Definition widening : sexp :=
  begin_ [type_or "U" ["number"; "string"]; var_typed "y" (Str "U") (Num 10)].

(** [(var (y (or number string)) 10)] *)
Definition inline_union_var : sexp :=
  var_typed "y" (Arr [Str "or"; Str "number"; Str "string"]) (Num 10).

(** [(def loop ((n number)) -> number (loop n))] *)
Definition loop : sexp :=
  Arr [Str "def"; Str "loop"; Arr [Arr [Str "n"; Str "number"]];
       Str "->"; Str "number"; Arr [Str "loop"; Str "n"]].

(** [(begin (var true 5) true)] *)
Definition shadowed_true : sexp :=
  begin_ [Arr [Str "var"; Str "true"; Num 5]; Str "true"].

(** [(lambda <T> ((x T)) -> T x)] *)
Definition identity : sexp :=
  Arr [Str "lambda"; Str "<T>"; Arr [Arr [Str "x"; Str "T"]];
       Str "->"; Str "T"; Str "x"].

(** [((lambda <T> ((x T)) -> T x) <number,string> 5)] *)
Definition identity_two_actuals : sexp :=
  Arr [identity; Str "<number,string>"; Num 5].

(** [(lambda <T,U> ((x T)) -> T x)] *)
Definition first_of_two : sexp :=
  Arr [Str "lambda"; Str "<T,U>"; Arr [Arr [Str "x"; Str "T"]];
       Str "->"; Str "T"; Str "x"].

(** [((lambda <T,U> ((x T)) -> T x) <number> 5)] *)
Definition first_of_two_one_actual : sexp :=
  Arr [first_of_two; Str "<number>"; Num 5].

(** The state of a checker after
    [(begin (type U (or number string)) (var (x U) 10))]. *)
Definition after_union_x : state :=
  match EvaTC.run 4 (begin_ [type_or "U" ["number"; "string"];
                             var_typed "x" (Str "U") (Num 10)]) with
  | Val (_, st) => st
  | _ => initial_state
  end.

(** The state of a checker after [(begin (type U (or number string)))]. *)
Definition after_union : state :=
  match EvaTC.run 4 (begin_ [type_or "U" ["number"; "string"]]) with
  | Val (_, st) => st
  | _ => initial_state
  end.

(** The state of a freshly constructed checker; its global scope is
    scope 0. *)
Definition fresh : state :=
  match EvaTC._createGlobal initial_state with
  | Val (_, st) => st
  | _ => initial_state
  end.

(** The state of a checker after
    [(begin (type U (or number string)) (var (x U) 10))], with one more
    scope below the global one in which [x] is narrowed to [string]. *)
Definition narrowed : state :=
  mkState (Type_ after_union_x)
    (heap after_union_x ++ [mkEnv {["x" := Some string_t]} (Some 0)])
    (stamp after_union_x).

(** The global scope of a state. *)
Definition global_scope (st : state) : TypeEnvironment :=
  default (mkEnv ∅ None) (heap st !! 0).

(** A fresh checker whose global scope already binds [fact] to its
    declared type. *)
Definition fact_prebound : state :=
  mkState (Type_ fresh)
    (<[0 := mkEnv (<["fact" := Some (Ty.mkFunction [number_t] number_t)]>
                     (record (global_scope fresh)))
                  (parent (global_scope fresh))]> (heap fresh))
    (stamp fresh).

(** The state in which the body of [fact] is checked: the scope of the
    parameter [n] sits below the global scope. *)
Definition fact_body : state :=
  mkState (Type_ fact_prebound)
    (heap fact_prebound ++ [mkEnv {["n" := Some number_t]} (Some 0)])
    (stamp fact_prebound).

(** [(begin (type N (or number)) (var (y N) 10) (+ y y))] *)
Definition plus_on_singleton_union : sexp :=
  begin_ [type_or "N" ["number"]; var_typed "y" (Str "N") (Num 10);
          Arr [Str "+"; Str "y"; Str "y"]].

(** [(begin (type U (or string number)) (type V (or U boolean))
            (var (v V) true) (+ v v))] *)
Definition plus_on_boolean_in_union : sexp :=
  begin_ [type_or "U" ["string"; "number"]; type_or "V" ["U"; "boolean"];
          var_typed "v" (Str "V") (Str "true");
          Arr [Str "+"; Str "v"; Str "v"]].

(** [(begin (type U (or number string)) (type U (or number boolean)))] *)
Definition union_declared_twice : sexp :=
  begin_ [type_or "U" ["number"; "string"]; type_or "U" ["number"; "boolean"]].

(** [(begin (type int number) (class int null (begin)))] *)
Definition class_over_alias : sexp :=
  begin_ [Arr [Str "type"; Str "int"; Str "number"];
          Arr [Str "class"; Str "int"; Str "null"; begin_ []]].

(** [(begin (type int number) (type int string))] *)
Definition alias_declared_twice : sexp :=
  begin_ [Arr [Str "type"; Str "int"; Str "number"];
          Arr [Str "type"; Str "int"; Str "string"]].

(** [(class A Missing (begin (var x 1)))] *)
Definition class_with_unknown_super : sexp :=
  Arr [Str "class"; Str "A"; Str "Missing"; begin_ [Arr [Str "var"; Str "x"; Num 1]]].

(** [(begin (type F Fn<number<number>>) (var (f F) square))] *)
Definition function_alias_var : sexp :=
  begin_ [Arr [Str "type"; Str "F"; Str "Fn<number<number>>"];
          var_typed "f" (Str "F") (Str "square")].

End Sample.



(** ** Notions used by the further statements *)

(** The type at the end of a chain of aliases. *)
Fixpoint root (t : ty) : ty :=
  match t with
  | Alias _ p => root p
  | _ => t
  end.

Definition is_prim (t : ty) : bool :=
  match t with Prim _ => true | _ => false end.

Definition is_function (t : ty) : bool :=
  match t with Function _ _ _ => true | _ => false end.

Definition is_class (t : ty) : bool :=
  match t with Class _ _ _ => true | _ => false end.

(** The class reached from [t] by [k] superclass links. *)
Fixpoint nth_super (k : nat) (t : ty) : option ty :=
  match k with
  | O => Some t
  | S k' =>
      match t with
      | Class _ (Some s) _ => nth_super k' s
      | _ => None
      end
  end.

(** What an outcome is when it is not the bound. *)
Definition settled {A} (r : result A) : Prop :=
  (exists a, r = Val a) \/ (exists e, r = Exn e).

(** A token that [tc] takes for the name of a variable: it passes the
    literal and operator tests that precede the identifier test. *)
Definition reads_as_name (s : string) : bool :=
  negb (EvaTC._isString (Str s))
  && negb (EvaTC._isBoolean (Str s))
  && negb (Js.re_arith (Js.toString (Js.index (Str s) 0)))
  && negb (EvaTC._isBooleanBinary (Str s))
  && EvaTC._isVariableName (Str s).

(** A token whose first character is one of [+ - * / < >]. *)
Definition operator_led (s : string) : bool :=
  match s with
  | String c _ => Js.is_arith_char c || Ascii.eqb c "<" || Ascii.eqb c ">"
  | EmptyString => false
  end.

(** The operands of a call [(f a b ...)]. *)
Definition operands (exp : sexp) : list sexp :=
  match exp with Arr l => tl l | _ => [] end.

(** Whenever [m] returns, the state it leaves is related by [R] to the
    state it started from. *)
Definition Respects {A} (R : state -> state -> Prop) (m : M A) : Prop :=
  forall s a s', m s = Val (a, s') -> R s s'.

(** Every name of the registry of [s] is still a name of the registry of
    [s']. *)
Definition registry_grows (s s' : state) : Prop :=
  forall k, is_Some (Type_ s !! k) -> is_Some (Type_ s' !! k).

(** Every scope of [s] is still a scope of [s'], below the same parent,
    and binds at least the names it bound. *)
Definition scopes_grow (s s' : state) : Prop :=
  forall e sc, heap s !! e = Some sc ->
    exists sc', heap s' !! e = Some sc'
                /\ parent sc' = parent sc
                /\ forall k, is_Some (record sc !! k) ->
                             is_Some (record sc' !! k).

(** A name made of lower-case letters, at least one. *)
Definition lower_name (s : string) : bool :=
  Js.nonempty s && Js.all_chars Js.is_lower s.

(** A name made of word characters, at least one. *)
Definition word_name (s : string) : bool :=
  Js.nonempty s && Js.all_chars Js.is_word s.

(** * Properties *)

(** ** The string primitives on sample inputs *)

Example re_fn_params_ex :
  Js.re_fn_params "Fn<number<number, string>>" = Some ("number", "number, string")
  /\ Js.split_comma_ws "number, string" = ["number"; "string"]
  /\ Js.re_fn_ret "Fn<number>" = Some "number"
  /\ Js.re_angle "<T,U>" = Some "T,U"
  /\ Js.toString (Arr [Str "<a"; Num (-5); Undefined; Arr [Str "b>"]]) = "<a,-5,,b>"
  /\ Js.slice_1_m1 (quoted "string") = "string"
  /\ Js.slice_m1 "ab" = "b".
Proof. repeat split; reflexivity. Qed.

Example fromString_sum :
  match Reg.fromString (Str "Fn<number<number,number>>") initial_state with
  | Val (t, st) =>
      t = Function "Fn<number<number,number>>"
            [Prim "number"; Prim "number"] (Prim "number")
      /\ Type_ st !! "Fn<number<number,number>>" = Some t
  | _ => False
  end.
Proof. vm_compute. split; reflexivity. Qed.

Lemma substring_prefix (s t : string) :
  substring 0 (String.length s) (s ++ t) = s.
Proof.
  induction s as [|c s IH]; simpl.
  - destruct t; reflexivity.
  - rewrite IH. reflexivity.
Qed.

Lemma length_append (s t : string) :
  String.length (s ++ t) = String.length s + String.length t.
Proof. induction s; simpl; auto. Qed.

(** Stripping the quote marks of a literal gives back what they enclose. *)
Lemma slice_quoted (s : string) : Js.slice_1_m1 (quoted s) = s.
Proof.
  unfold Js.slice_1_m1, quoted. simpl String.length.
  rewrite length_append. simpl.
  replace (String.length s + 1 - 1) with (String.length s) by lia.
  apply substring_prefix.
Qed.

(** ** Laws of the checker monad *)

Lemma bind_Val {A B} (m : M A) (k : A -> M B) s b s' :
  bind m k s = Val (b, s') ->
  exists a s1, m s = Val (a, s1) /\ k a s1 = Val (b, s').
Proof.
  unfold bind. destruct (m s) as [[a s1]| |]; try discriminate. eauto.
Qed.

Lemma bind_of_Val {A B} (m : M A) (k : A -> M B) s a s1 :
  m s = Val (a, s1) -> bind m k s = k a s1.
Proof. intros H. unfold bind. rewrite H. reflexivity. Qed.

Lemma bind_of_Exn {A B} (m : M A) (k : A -> M B) s e :
  m s = Exn e -> bind m k s = Exn e.
Proof. intros H. unfold bind. rewrite H. reflexivity. Qed.

(** ** Computations that write no scope *)

Lemma Quiet_ret {A} (a : A) : Quiet (ret a).
Proof. intros s a' s' [= <- <-]. reflexivity. Qed.

Lemma Quiet_throw {A} e : Quiet (@throw A e).
Proof. intros s a s' H. discriminate. Qed.

Lemma Quiet_timeout {A} : Quiet (@timeout A).
Proof. intros s a s' H. discriminate. Qed.

Lemma Quiet_lift {A} (r : result A) : Quiet (lift r).
Proof. intros s a s' H. unfold lift in H. destruct r; inversion H; auto. Qed.

Lemma Quiet_bind {A B} (m : M A) (k : A -> M B) :
  Quiet m -> (forall a, Quiet (k a)) -> Quiet (bind m k).
Proof.
  intros Hm Hk s b s' H. apply bind_Val in H as (a & s1 & E & H).
  rewrite (Hk _ _ _ _ H). eauto.
Qed.

Create HintDb quiet.

Ltac quiet_step :=
  match goal with
  | |- Quiet (bind _ _) => apply Quiet_bind; [|intros]
  | |- Quiet (ret _) => apply Quiet_ret
  | |- Quiet (throw _) => apply Quiet_throw
  | |- Quiet timeout => apply Quiet_timeout
  | |- Quiet (lift _) => apply Quiet_lift
  | |- Quiet (if ?b then _ else _) => destruct b
  | |- Quiet (match ?x with _ => _ end) => destruct x
  | |- Quiet _ => solve [eauto with quiet]
  end.
Ltac quiet := repeat quiet_step.

(** For the primitives that are state transformers written out in full. *)
Ltac quiet_prim :=
  let H := fresh "H" in
  intros ? ? ? H;
  repeat match type of H with
    | context [match ?x with _ => _ end] => destruct x; try discriminate
    end;
  inversion H; subst; reflexivity.

Lemma Quiet_get key : Quiet (Reg.get key).
Proof. unfold Reg.get. quiet_prim. Qed.
Lemma Quiet_static key : Quiet (Reg.static key).
Proof. unfold Reg.static. quiet_prim. Qed.
Lemma Quiet_hasOwnProperty key : Quiet (Reg.hasOwnProperty key).
Proof. unfold Reg.hasOwnProperty. quiet_prim. Qed.
Lemma Quiet_set key t : Quiet (Reg.set key t).
Proof. unfold Reg.set. quiet_prim. Qed.
Lemma Quiet_fresh_stamp : Quiet Reg.fresh_stamp.
Proof. unfold Reg.fresh_stamp. quiet_prim. Qed.
Lemma Quiet_lookup env name : Quiet (Env.lookup env name).
Proof. unfold Env.lookup, lift. quiet_prim. Qed.
Lemma Quiet_equals a b : Quiet (EvaTC.equals a b).
Proof. unfold EvaTC.equals, lift. quiet_prim. Qed.
Lemma Quiet_includesAll u os ts : Quiet (EvaTC.includesAll u os ts).
Proof. unfold EvaTC.includesAll, lift. quiet_prim. Qed.
#[local] Hint Resolve Quiet_get Quiet_static Quiet_hasOwnProperty Quiet_set
  Quiet_fresh_stamp Quiet_lookup Quiet_equals Quiet_includesAll : quiet.

Lemma Quiet_mapM {A B} (f : A -> M B) l :
  (forall x, Quiet (f x)) -> Quiet (mapM f l).
Proof. intros Hf. induction l; simpl; quiet. Qed.

Lemma Quiet_Type_fromString rec typeStr :
  (forall d, Quiet (rec d)) -> Quiet (Reg.Type_fromString rec typeStr).
Proof.
  intros Hr. unfold Reg.Type_fromString, Reg.Function_fromString.
  quiet; apply Quiet_mapM; intros; apply Hr.
Qed.

Lemma Quiet_fromString_upto fuel typeStr :
  Quiet (Reg.fromString_upto fuel typeStr).
Proof.
  revert typeStr. induction fuel; intros; simpl.
  - apply Quiet_timeout.
  - apply Quiet_Type_fromString. auto.
Qed.

Lemma Quiet_fromString typeStr : Quiet (Reg.fromString typeStr).
Proof. apply Quiet_fromString_upto. Qed.
#[local] Hint Resolve Quiet_fromString : quiet.

Lemma Quiet_getField t name : Quiet (EvaTC.getField t name).
Proof. unfold EvaTC.getField. quiet. Qed.
Lemma Quiet_isBinary exp : Quiet (EvaTC._isBinary exp).
Proof. unfold EvaTC._isBinary. quiet. Qed.
Lemma Quiet_slice v : Quiet (EvaTC.slice_1_m1 v).
Proof. unfold EvaTC.slice_1_m1. quiet. Qed.
Lemma Quiet_destruct2 v : Quiet (EvaTC.destruct2 v).
Proof. unfold EvaTC.destruct2. quiet. Qed.
#[local] Hint Resolve Quiet_getField Quiet_isBinary Quiet_slice
  Quiet_destruct2 : quiet.

Lemma Quiet_isTypeCastCondition c : Quiet (EvaTC._isTypeCastCondition c).
Proof. unfold EvaTC._isTypeCastCondition. quiet. Qed.
Lemma Quiet_getSpecifiedType c : Quiet (EvaTC._getSpecifiedType c).
Proof. unfold EvaTC._getSpecifiedType. quiet. Qed.
Lemma Quiet_checkArity exp n : Quiet (EvaTC._checkArity exp n).
Proof. unfold EvaTC._checkArity. quiet. Qed.
Lemma Quiet_getOperandTypes op : Quiet (EvaTC._getOperandTypesForOperator op).
Proof. unfold EvaTC._getOperandTypesForOperator. quiet. Qed.
Lemma Quiet_some_allowed l t : Quiet (EvaTC.some_allowed l t).
Proof. induction l; simpl; quiet. Qed.
#[local] Hint Resolve Quiet_isTypeCastCondition Quiet_getSpecifiedType
  Quiet_checkArity Quiet_getOperandTypes Quiet_some_allowed : quiet.

Lemma Quiet_expectOperatorType t l : Quiet (EvaTC._expectOperatorType t l).
Proof. unfold EvaTC._expectOperatorType. quiet. Qed.
Lemma Quiet_expect a b : Quiet (EvaTC._expect a b).
Proof. unfold EvaTC._expect. quiet. Qed.
#[local] Hint Resolve Quiet_expectOperatorType Quiet_expect : quiet.

Lemma Quiet_check_args ps l : Quiet (EvaTC.check_args ps l).
Proof. revert ps. induction l; intros; simpl; quiet. Qed.
#[local] Hint Resolve Quiet_check_args : quiet.

Lemma Quiet_checkFunctionCall fn l : Quiet (EvaTC._checkFunctionCall fn l).
Proof. unfold EvaTC._checkFunctionCall. quiet. Qed.
Lemma Quiet_bindFunctionTypes ps r m : Quiet (EvaTC._bindFunctionTypes ps r m).
Proof.
  unfold EvaTC._bindFunctionTypes.
  destruct ps; quiet; apply Quiet_mapM; intros; quiet.
Qed.
Lemma Quiet_extractActualCallTypes exp :
  Quiet (EvaTC._extractActualCallTypes exp).
Proof. unfold EvaTC._extractActualCallTypes. quiet. Qed.
Lemma Quiet_createGenericFunctionType exp env :
  Quiet (EvaTC._createGenericFunctionType exp env).
Proof. unfold EvaTC._createGenericFunctionType. quiet. Qed.
Lemma Quiet_signature_types ps : Quiet (EvaTC.signature_types ps).
Proof.
  unfold EvaTC.signature_types. destruct ps; quiet.
  apply Quiet_mapM; intros; quiet.
Qed.
Lemma Quiet_bind_params l r ts : Quiet (EvaTC.bind_params l r ts).
Proof. revert r ts. induction l; intros; simpl; quiet. Qed.
#[local] Hint Resolve Quiet_checkFunctionCall Quiet_bindFunctionTypes
  Quiet_extractActualCallTypes Quiet_createGenericFunctionType
  Quiet_signature_types Quiet_bind_params : quiet.

(** ** Which scopes a computation may write *)

Lemma unchanged_refl P s : unchanged_outside P s s.
Proof. split; auto. Qed.

Lemma unchanged_trans P s1 s2 s3 :
  unchanged_outside P s1 s2 -> unchanged_outside P s2 s3 ->
  unchanged_outside P s1 s3.
Proof.
  intros [L1 H1] [L2 H2]. split; [lia|].
  intros e He Hp. rewrite H2 by (auto; lia). auto.
Qed.

Lemma Frame_quiet {A} P (m : M A) : Quiet m -> Frame P m.
Proof. intros H s a s' E. apply H in E. split; rewrite E; auto. Qed.

Lemma Frame_bind {A B} P (m : M A) (k : A -> M B) :
  Frame P m -> (forall a, Frame P (k a)) -> Frame P (bind m k).
Proof.
  intros Hm Hk s b s' H. apply bind_Val in H as (a & s1 & E & H).
  eapply unchanged_trans; [eapply Hm|eapply Hk]; eauto.
Qed.

Lemma Frame_mono {A} (P Q : nat -> Prop) (m : M A) :
  (forall e, P e -> Q e) -> Frame P m -> Frame Q m.
Proof.
  intros HPQ Hm s a s' H. destruct (Hm _ _ _ H) as [L U].
  split; auto.
Qed.

(** A scope created on the way may be written freely. *)
Lemma Frame_scoped_bind {A B} P (m : M A) (f : A -> nat) (k : A -> M B) :
  Scoped P m f ->
  (forall a, Frame (fun e => P e \/ e = f a) (k a)) ->
  Frame P (bind m k).
Proof.
  intros Hm Hk s b s' H.
  apply bind_Val in H as (a & s1 & E & H).
  destruct (Hm _ _ _ E) as [[L1 U1] Hf].
  apply Hk in H. destruct H as [L U].
  split; [lia|].
  intros e He Hp. rewrite U; [auto | lia |].
  intros [? | ->]; [auto |]. destruct Hf; [auto | lia].
Qed.

Lemma Scoped_new P rec par : Scoped P (Env.new rec par) id.
Proof.
  intros s a s' [= <- <-]. split; [|right; simpl; lia].
  split; simpl.
  - rewrite length_app. lia.
  - intros e He _. apply lookup_app_l. exact He.
Qed.

Lemma Scoped_ret (P : nat -> Prop) env : P env -> Scoped P (ret env) id.
Proof. intros HP s a s' [= <- <-]. split; [apply unchanged_refl | auto]. Qed.

Lemma Scoped_throw {A} P e (f : A -> nat) : Scoped P (throw e) f.
Proof. intros s a s' H. discriminate. Qed.

Lemma Scoped_bind {A B} P (m : M A) (k : A -> M B) (f : B -> nat) :
  Frame P m -> (forall a, Scoped P (k a) f) -> Scoped P (bind m k) f.
Proof.
  intros Hm Hk s b s' H.
  apply bind_Val in H as (a & s1 & E & H).
  pose proof (Hm _ _ _ E) as U1. destruct (Hk _ _ _ _ H) as [U2 Hf].
  split; [eapply unchanged_trans; eauto|].
  destruct U1 as [L1 _]. destruct Hf; [auto | right; lia].
Qed.

Lemma Scoped_map {A B} P (m : M A) (g : A -> B) (f : B -> nat) :
  Scoped P m (fun a => f (g a)) -> Scoped P (bind m (fun a => ret (g a))) f.
Proof.
  intros Hm s b s' H. apply bind_Val in H as (a & s1 & E & H).
  inversion H; subst. eapply Hm; eauto.
Qed.

Lemma Frame_new_bind {B} P rec par (k : nat -> M B) :
  (forall F, Frame (fun e => P e \/ e = F) (k F)) ->
  Frame P (bind (Env.new rec par) k).
Proof. intros Hk. eapply Frame_scoped_bind; [apply Scoped_new|exact Hk]. Qed.

Lemma Frame_new P rec par : Frame P (Env.new rec par).
Proof. intros s a s' H. eapply Scoped_new; eauto. Qed.

Lemma Frame_define (P : nat -> Prop) env name v :
  P env -> Frame P (Env.define env name v).
Proof.
  intros HP s a s' H. unfold Env.define in H.
  destruct (heap s !! env) eqn:E; inversion H; subst; clear H.
  split; cbn [heap].
  - rewrite length_insert. lia.
  - intros e He Hp. apply list_lookup_insert_ne. intros ->. auto.
Qed.

Lemma Scoped_new_Class P name superClass :
  Scoped P (EvaTC.new_Class name superClass) snd.
Proof.
  unfold EvaTC.new_Class.
  apply Scoped_bind; [apply Frame_quiet, Quiet_static|]. intros null_.
  apply (Scoped_map P _ (fun e => (Class name _ e, e)) snd). simpl.
  repeat match goal with
    | |- Scoped _ (if ?b then _ else _) _ => destruct b
    | |- Scoped _ (match ?x with _ => _ end) _ => destruct x
    end;
    first [apply Scoped_new | apply Scoped_throw].
Qed.

Ltac frame_side := cbv beta; first [assumption | tauto | auto].

Ltac frame_step :=
  match goal with
  | |- Frame _ (bind (Env.new _ _) _) => apply Frame_new_bind; intros
  | |- Frame _ (bind (EvaTC.new_Class _ _) _) =>
      eapply Frame_scoped_bind; [apply Scoped_new_Class | intros [? ?]]
  | |- Frame _ (bind _ _) => apply Frame_bind; [|intros]
  | |- Frame _ (Env.new _ _) => apply Frame_new
  | |- Frame _ (Env.define _ _ _) => apply Frame_define; frame_side
  | |- Frame _ (if ?b then _ else _) => destruct b
  | |- Frame _ (match ?x with _ => _ end) => destruct x
  | |- Frame _ _ => apply Frame_quiet; solve [quiet]
  end.
Ltac frame := repeat frame_step.

Lemma Frame_mapM {A B} P (f : A -> M B) l :
  (forall x, Frame P (f x)) -> Frame P (mapM f l).
Proof. intros Hf. induction l; simpl; frame; auto. Qed.

Section FrameCheck.
Variable tc : sexp -> nat -> M jsval.
Hypothesis tc_frame : forall exp env, Frame (eq env) (tc exp env).

Lemma Frame_tc (P : nat -> Prop) exp env : P env -> Frame P (tc exp env).
Proof.
  intros HP. eapply Frame_mono; [|apply tc_frame]. intros e <-. exact HP.
Qed.

Ltac frame_tc :=
  repeat first
    [ apply Frame_tc; frame_side
    | apply Frame_mapM; intros
    | frame_step ].

Lemma Frame_tcBlock (P : nat -> Prop) block env :
  P env -> Frame P (EvaTC._tcBlock tc block env).
Proof.
  intros HP. unfold EvaTC._tcBlock. destruct (Js.iter block); frame.
  generalize (@ret jsval None), (Frame_quiet P _ (Quiet_ret (@None ty))).
  induction (tl l); simpl; intros acc Hacc; auto.
  apply IHl0. frame_tc. exact Hacc.
Qed.

Lemma Frame_tcBody (P : nat -> Prop) body env :
  P env -> Frame P (EvaTC._tcBody tc body env).
Proof.
  intros HP. unfold EvaTC._tcBody.
  destruct body; frame_tc; apply Frame_tcBlock; frame_side.
Qed.

Lemma Frame_tcFunction (P : nat -> Prop) ps r b env :
  Frame P (EvaTC._tcFunction tc ps r b env).
Proof.
  unfold EvaTC._tcFunction. frame_tc. apply Frame_tcBody. frame_side.
Qed.

Lemma Frame_tc_step exp env : Frame (eq env) (EvaTC.tc_step tc exp env).
Proof.
  unfold EvaTC.tc_step.
  repeat match goal with
    | |- Frame _ (if ?b then _ else _) => destruct b
    | |- Frame _ (bind _ _) => apply Frame_bind; [|intros]
    end;
    try solve [frame].
  - unfold EvaTC._binary. frame_tc.
  - unfold EvaTC._booleanBinary. frame_tc.
  - unfold EvaTC.tc_type. frame_tc.
  - unfold EvaTC.tc_class. frame_tc. apply Frame_tcBody. frame_side.
  - unfold EvaTC.tc_new. frame_tc.
  - unfold EvaTC.tc_super. frame_tc.
  - unfold EvaTC.tc_prop. frame_tc.
  - unfold EvaTC.tc_var. frame_tc.
  - unfold EvaTC.tc_set. frame_tc.
  - unfold EvaTC.tc_begin. frame_tc. apply Frame_tcBlock. frame_side.
  - unfold EvaTC.tc_if.
    apply Frame_bind; [frame_tc | intros t1].
    apply Frame_bind; [frame | intros boolean].
    apply Frame_bind; [frame | intros _].
    apply Frame_bind; [frame | intros cast].
    eapply (Frame_scoped_bind _ _ id).
    + destruct cast; [|apply Scoped_ret; reflexivity].
      apply Scoped_bind; [frame|]. intros [name specificType].
      apply Scoped_bind; [frame|]. intros t. apply Scoped_new.
    + intros F. frame_tc.
  - unfold EvaTC.tc_while. frame_tc.
  - unfold EvaTC.tc_def. frame_tc.
  - unfold EvaTC.tc_lambda, EvaTC._createSimpleFunctionType. frame_tc.
    apply Frame_tcFunction.
  - unfold EvaTC.tc_call. frame_tc. apply Frame_tcFunction.
Qed.
End FrameCheck.

(** [tc] writes the scope it is given and scopes it creates, nothing
    else. *)
Lemma tc_frame fuel exp env : Frame (eq env) (EvaTC.tc fuel exp env).
Proof.
  revert exp env. induction fuel; intros; simpl.
  - apply Frame_quiet, Quiet_timeout.
  - apply Frame_tc_step. exact IHfuel.
Qed.

(** ** The structural equality of types *)

Lemma size_in_list_sum (t : ty) (l : list ty) :
  In t l -> Ty.size t <= list_sum (List.map Ty.size l).
Proof.
  induction l as [|x l IH]; simpl; intros H; [contradiction|].
  destruct H as [->|H]; [lia|]. apply IH in H. lia.
Qed.

Lemma params_equal_refl (eq_ : ty -> jsval -> result bool) (ps : list ty) :
  (forall p, In p ps -> eq_ p (Some p) = Val true) ->
  Ty.params_equal eq_ ps ps = Val true.
Proof.
  induction ps as [|p ps IH]; intros H; simpl; [reflexivity|].
  rewrite H by (left; reflexivity). simpl.
  apply IH. intros q Hq. apply H. right. exact Hq.
Qed.

(** A type equals itself, at any nesting bound that covers its size. *)
Lemma equals_upto_refl null_ fuel t :
  Ty.size t <= fuel -> Ty.equals_upto fuel null_ t (Some t) = Val true.
Proof.
  revert t. induction fuel as [|fuel IH]; intros t Hsz.
  - destruct t; simpl in Hsz; lia.
  - destruct t; simpl in *.
    + unfold Ty.Type_equals. simpl. rewrite String.eqb_refl. reflexivity.
    + unfold Ty.Function_equals. rewrite Nat.eqb_refl. simpl.
      rewrite params_equal_refl.
      * simpl. rewrite IH by lia. reflexivity.
      * intros p Hp. apply IH. apply size_in_list_sum in Hp. lia.
    + unfold Ty.Alias_equals. simpl. rewrite String.eqb_refl. reflexivity.
    + unfold Ty.Class_equals. simpl. rewrite Nat.eqb_refl. reflexivity.
    + unfold Ty.Union_equals. simpl. rewrite Nat.eqb_refl. reflexivity.
    + unfold Ty.Type_equals. simpl. rewrite String.eqb_refl. reflexivity.
Qed.

(** [equals] is reflexive on every type value. *)
Lemma equals_refl null_ t : Ty.equals null_ t (Some t) = Val true.
Proof.
  apply equals_upto_refl. unfold Ty.equals_bound. simpl. lia.
Qed.

(** An alias equals its parent. *)
Lemma alias_equals_parent null_ n p :
  Ty.equals null_ (Alias n p) (Some p) = Val true.
Proof.
  unfold Ty.equals, Ty.equals_bound. simpl.
  unfold Ty.Alias_equals.
  destruct (String.eqb n (Ty.getName p)); [reflexivity|].
  apply equals_upto_refl. lia.
Qed.

(** *** The nesting bound of [equals] is never reached *)

Lemma rbind_no_timeout {A B} (m : result A) (k : A -> result B) :
  m <> Timeout -> (forall a, k a <> Timeout) -> rbind m k <> Timeout.
Proof. destruct m; simpl; auto; discriminate. Qed.

Lemma some_equals_no_timeout (eq_ : ty -> jsval -> result bool) xs other :
  (forall t, In t xs -> eq_ t other <> Timeout) ->
  Ty.some_equals eq_ xs other <> Timeout.
Proof.
  induction xs as [|t xs IH]; intros H; simpl; [discriminate|].
  apply rbind_no_timeout; [apply H; left; reflexivity|].
  intros []; [discriminate|]. apply IH. intros u Hu. apply H. right. exact Hu.
Qed.

Lemma includes_each_no_timeout (eq_ : ty -> jsval -> result bool) this types :
  (forall t, In t types -> eq_ this t <> Timeout) ->
  Ty.includes_each eq_ this types <> Timeout.
Proof.
  induction types as [|t ts IH]; intros H; simpl; [discriminate|].
  apply rbind_no_timeout; [apply H; left; reflexivity|].
  intros []; simpl; [|discriminate].
  apply IH. intros u Hu. apply H. right. exact Hu.
Qed.

Lemma params_equal_no_timeout (eq_ : ty -> jsval -> result bool) ps qs bound :
  list_sum (List.map Ty.size qs) <= bound ->
  (forall p q, In p ps -> Ty.size_val q <= bound -> eq_ p q <> Timeout) ->
  Ty.params_equal eq_ ps qs <> Timeout.
Proof.
  revert qs. induction ps as [|p ps IH]; intros qs Hq H; simpl;
    [discriminate|].
  apply rbind_no_timeout.
  - apply H; [left; reflexivity|]. destruct qs; simpl in *; lia.
  - intros []; [|discriminate]. apply IH.
    + destruct qs; simpl in *; lia.
    + intros p' q Hp. apply H. right. exact Hp.
Qed.

Lemma size_pos t : 1 <= Ty.size t.
Proof. destruct t; simpl; lia. Qed.

Lemma equals_upto_no_timeout null_ fuel this other :
  Ty.need this other <= fuel ->
  Ty.equals_upto fuel null_ this other <> Timeout.
Proof.
  revert this other. induction fuel as [|fuel IH]; intros this other Hn.
  - unfold Ty.need in Hn. lia.
  - assert (Hswap : forall o, other = Some o ->
              (Ty.is_alias o = true /\ Ty.is_alias this = false)
              \/ (Ty.is_union o = true
                  /\ match this with
                     | Prim _ | GenericFunction _ _ _ _ _ _ => True
                     | _ => False
                     end) ->
              Ty.equals_upto fuel null_ o (Some this) <> Timeout).
    { intros o -> Hcase. apply IH. unfold Ty.need in *.
      destruct Hcase as [[Ho Ht]|[Ho Ht]];
        destruct o; try discriminate; destruct this; try discriminate;
        try contradiction; simpl in *; lia. }
    assert (Hsub : forall t, Ty.size t < Ty.size this ->
              Ty.equals_upto fuel null_ t other <> Timeout).
    { intros t Ht. apply IH. unfold Ty.need in *.
      assert (Ty.swaps t other <= 1)
        by (destruct other as [[]|]; destruct t; simpl; lia).
      lia. }
    destruct this as [n|n ps r|n p|n s e|i n os|n gs ps r b e];
      cbn [Ty.equals_upto Ty.dispatch_equals].
    + unfold Ty.Type_equals. destruct other as [o|]; [|discriminate].
      destruct (Ty.is_alias o) eqn:Ea; [apply Hswap; auto|].
      destruct (Ty.is_union o) eqn:Eu; [apply Hswap; auto|discriminate].
    + unfold Ty.Function_equals.
      destruct other as [[| m qs r' | | | |]|]; try discriminate.
      destruct (negb _); [discriminate|].
      unfold Ty.need in Hn. simpl in Hn.
      apply rbind_no_timeout.
      * apply (params_equal_no_timeout _ ps qs
                 (list_sum (List.map Ty.size qs))); [lia|].
        intros p q Hp Hq. apply IH. apply size_in_list_sum in Hp.
        unfold Ty.need.
        assert (Ty.swaps p q <= 1)
          by (destruct q as [[]|]; destruct p; simpl; lia).
        lia.
      * intros []; simpl; [|discriminate].
        apply rbind_no_timeout; [|intros []; discriminate].
        apply IH. unfold Ty.need. cbn [Ty.size_val].
        assert (Ty.swaps r (Some r') <= 1)
          by (destruct r'; destruct r; simpl; lia).
        lia.
    + unfold Ty.Alias_equals. destruct other as [o|]; [|discriminate].
      destruct (String.eqb n (Ty.getName o)); [discriminate|].
      apply Hsub. simpl. lia.
    + unfold Ty.Class_equals.
      destruct (match other with Some o => Ty.same _ o | None => false end);
        [discriminate|].
      assert (Hsuper : (if Ty.loose_ne s null_
                        then match s with
                             | Some s0 => Ty.equals_upto fuel null_ s0 other
                             | None => Exn JsTypeError
                             end
                        else Val false) <> Timeout).
      { destruct (Ty.loose_ne s null_); [|discriminate].
        destruct s as [s0|]; [|discriminate]. apply Hsub. simpl. lia. }
      destruct other as [[]|]; try exact Hsuper.
      apply Hswap; auto.
    + unfold Ty.Union_equals.
      destruct (match other with Some o => Ty.same _ o | None => false end);
        [discriminate|].
      assert (Hsome : Ty.some_equals (Ty.equals_upto fuel null_) os other
                      <> Timeout).
      { apply some_equals_no_timeout. intros t Ht. apply Hsub.
        apply size_in_list_sum in Ht. simpl. lia. }
      destruct other as [[| | | | j m os' |]|]; try exact Hsome.
      * apply Hswap; auto.
      * unfold Ty.includesAll. destruct (negb _); [discriminate|].
        apply includes_each_no_timeout. intros t Ht.
        apply in_map_iff in Ht as (o' & <- & Ho').
        apply IH. apply size_in_list_sum in Ho'.
        assert (Ty.swaps (Union i n os) (Some o') <= 1)
          by (destruct o'; simpl; lia).
        unfold Ty.need in *. cbn [Ty.size_val Ty.size] in *.
        cbn [Ty.swaps] in Hn. lia.
    + unfold Ty.Type_equals. destruct other as [o|]; [|discriminate].
      destruct (Ty.is_alias o) eqn:Ea; [apply Hswap; auto|].
      destruct (Ty.is_union o) eqn:Eu; [apply Hswap; auto|discriminate].
Qed.

(** [equals] always returns or throws: the bound it is unfolded to is
    enough for every pair of type values. *)
Lemma equals_no_timeout null_ this other :
  Ty.equals null_ this other <> Timeout.
Proof.
  apply equals_upto_no_timeout. unfold Ty.need, Ty.equals_bound.
  assert (Ty.swaps this other <= 1)
    by (destruct other as [[]|]; destruct this; simpl; lia).
  lia.
Qed.

(** ** [Type.fromString] needs no more than two levels *)

Lemma Total_ret {A} (a : A) : Total (ret a).
Proof. intros s. discriminate. Qed.

Lemma Total_throw {A} e : Total (@throw A e).
Proof. intros s. discriminate. Qed.

Lemma Total_bind {A B} (m : M A) (k : A -> M B) :
  Total m -> (forall a, Total (k a)) -> Total (bind m k).
Proof.
  intros Hm Hk s. unfold bind.
  destruct (m s) as [[a s1]| |] eqn:E; [apply Hk | discriminate |].
  exfalso. exact (Hm s E).
Qed.

Lemma Total_mapM {A B} (f : A -> M B) l :
  Forall (fun x => Total (f x)) l -> Total (mapM f l).
Proof.
  induction 1; simpl; [apply Total_ret|].
  apply Total_bind; [assumption|]. intros y.
  apply Total_bind; [assumption|]. intros ys. apply Total_ret.
Qed.

Lemma all_chars_app p a b :
  Js.all_chars p (a ++ b) = Js.all_chars p a && Js.all_chars p b.
Proof.
  induction a as [|c a IH]; simpl; [reflexivity|].
  rewrite IH. apply andb_assoc.
Qed.

Lemma span_all p s : Js.all_chars p (fst (Js.span p s)) = true.
Proof.
  induction s as [|c s IH]; simpl; [reflexivity|].
  destruct (p c) eqn:E; [|reflexivity].
  destruct (Js.span p s). simpl in *. rewrite E, IH. reflexivity.
Qed.

Lemma split_comma_ws_all p skip cur s :
  Js.all_chars p cur = true -> Js.all_chars p s = true ->
  Forall (fun piece => Js.all_chars p piece = true)
         (Js.split_comma_ws_aux skip cur s).
Proof.
  revert skip cur. induction s as [|c s IH]; intros skip cur Hc Hs; simpl.
  - constructor; [assumption | constructor].
  - simpl in Hs. apply andb_prop in Hs as [Hpc Hs].
    destruct (Ascii.eqb c ",").
    + constructor; [assumption|]. apply IH; auto.
    + destruct (skip && Js.is_space c).
      * apply IH; auto.
      * apply IH; auto. rewrite all_chars_app, Hc. simpl.
        rewrite Hpc. reflexivity.
Qed.

Lemma prefix_cons a p b s :
  String.prefix (String a p) (String b s)
  = if ascii_dec a b then String.prefix p s else false.
Proof. reflexivity. Qed.

Lemma param_piece_is_no_function s :
  Js.all_chars Js.is_param_char s = true -> String.prefix "Fn<" s = false.
Proof.
  destruct s as [|c s]; [reflexivity|]. intros H.
  rewrite prefix_cons.
  destruct (ascii_dec "F" c) as [<-|]; [discriminate | reflexivity].
Qed.

Lemma word_is_no_function s :
  Js.all_chars Js.is_word s = true -> String.prefix "Fn<" s = false.
Proof.
  destruct s as [|c1 [|c2 [|c3 s]]]; try reflexivity; intros H;
    rewrite prefix_cons; destruct (ascii_dec _ c1); try reflexivity;
    rewrite prefix_cons; destruct (ascii_dec _ c2); try reflexivity.
  rewrite prefix_cons. destruct (ascii_dec _ c3) as [<-|]; [|reflexivity].
  subst. discriminate.
Qed.

(** A descriptor that does not start with [Fn<] is resolved without a
    nested call. *)
Lemma leaf_descriptor_total rec s :
  String.prefix "Fn<" s = false -> Total (Reg.Type_fromString rec (Str s)).
Proof.
  intros Hp st. unfold Reg.Type_fromString, bind, Reg.hasOwnProperty, Reg.get.
  destruct (bool_decide _).
  - destruct (Type_ st !! _); discriminate.
  - rewrite Hp. discriminate.
Qed.

Lemma re_fn_params_classes s ret_ ps :
  Js.re_fn_params s = Some (ret_, ps) ->
  Js.all_chars Js.is_word ret_ = true
  /\ Js.all_chars Js.is_param_char ps = true.
Proof.
  unfold Js.re_fn_params. destruct (Js.strip_prefix _ s) as [r|]; [|discriminate].
  pose proof (span_all Js.is_word r) as Hw.
  destruct (Js.span Js.is_word r) as [w r1]. destruct r1 as [|c r2]; [discriminate|].
  destruct (Js.nonempty w && Ascii.eqb c "<"); [|discriminate].
  pose proof (span_all Js.is_param_char r2) as Hp.
  destruct (Js.span Js.is_param_char r2) as [q r3].
  destruct (Js.nonempty q && String.eqb r3 ">>"); [|discriminate].
  intros [= <- <-]. auto.
Qed.

Lemma re_fn_ret_class s ret_ :
  Js.re_fn_ret s = Some ret_ -> Js.all_chars Js.is_word ret_ = true.
Proof.
  unfold Js.re_fn_ret. destruct (Js.strip_prefix _ s) as [r|]; [|discriminate].
  pose proof (span_all Js.is_word r) as Hw.
  destruct (Js.span Js.is_word r) as [w r1].
  destruct (Js.nonempty w && String.eqb r1 ">"); [|discriminate].
  intros [= <-]. exact Hw.
Qed.

Lemma Total_set key t : Total (Reg.set key t).
Proof. intros s. discriminate. Qed.

Lemma Total_hasOwnProperty key : Total (Reg.hasOwnProperty key).
Proof. intros s. discriminate. Qed.

Lemma Total_get key : Total (Reg.get key).
Proof. intros s. discriminate. Qed.

Lemma found_total (t : jsval) :
  Total (match t with Some t => ret t | None => throw JsTypeError end).
Proof. destruct t; [apply Total_ret | apply Total_throw]. Qed.

(** [Type.fromString] returns or throws on every descriptor: the second
    level resolves the pieces of a function descriptor, and those never
    ask for a third. *)
Lemma fromString_total typeStr : Total (Reg.fromString typeStr).
Proof.
  unfold Reg.fromString. cbn [Reg.fromString_upto].
  unfold Reg.Type_fromString at 1.
  apply Total_bind; [apply Total_hasOwnProperty|]. intros [|].
  { apply Total_bind; [apply Total_get | apply found_total]. }
  destruct typeStr; try apply Total_throw.
  destruct (String.prefix "Fn<" s); [|apply Total_throw].
  unfold Reg.Function_fromString.
  apply Total_bind; [apply Total_hasOwnProperty|]. intros [|].
  { apply Total_bind; [apply Total_get | apply found_total]. }
  destruct (Js.re_fn_params s) as [[ret_ ps]|] eqn:E.
  - apply re_fn_params_classes in E as [Hw Hp].
    apply Total_bind.
    + apply Total_mapM.
      eapply Forall_impl;
        [apply (split_comma_ws_all Js.is_param_char false EmptyString ps);
           [reflexivity | exact Hp]|].
      intros piece Hpiece. apply leaf_descriptor_total.
      apply param_piece_is_no_function. exact Hpiece.
    + intros paramTypes. apply Total_bind.
      * apply leaf_descriptor_total, word_is_no_function, Hw.
      * intros r. apply Total_bind; [apply Total_set | intros; apply Total_ret].
  - destruct (Js.re_fn_ret s) as [ret_|] eqn:E'; [|apply Total_throw].
    apply re_fn_ret_class in E'.
    apply Total_bind.
    + apply leaf_descriptor_total, word_is_no_function, E'.
    + intros r. apply Total_bind; [apply Total_set | intros; apply Total_ret].
Qed.

(** [equals], as the checker calls it, returns or throws. *)
Lemma equals_total a b : Total (EvaTC.equals a b).
Proof.
  intros st. unfold EvaTC.equals, lift. destruct a as [t|]; [|discriminate].
  pose proof (equals_no_timeout (Type_ st !! "null") t b) as H.
  destruct (Ty.equals _ t b); [discriminate | discriminate | contradiction].
Qed.

(** ** More nesting never changes an outcome *)

Lemma Extends_refl {A} (m : M A) : Extends m m.
Proof. intros s _. reflexivity. Qed.

Lemma Extends_bind {A B} (m m' : M A) (k k' : A -> M B) :
  Extends m m' -> (forall a, Extends (k a) (k' a)) ->
  Extends (bind m k) (bind m' k').
Proof.
  intros Hm Hk s H. unfold bind in *.
  destruct (m s) as [[a s1]| |] eqn:E.
  - rewrite Hm, E by (rewrite E; discriminate). apply Hk. exact H.
  - rewrite Hm, E by (rewrite E; discriminate). reflexivity.
  - contradiction.
Qed.

Lemma Extends_mapM {A B} (f f' : A -> M B) l :
  (forall x, Extends (f x) (f' x)) -> Extends (mapM f l) (mapM f' l).
Proof.
  intros Hf. induction l as [|x l IH]; simpl; [apply Extends_refl|].
  apply Extends_bind; [apply Hf|]. intros y.
  apply Extends_bind; [apply IH|]. intros ys. apply Extends_refl.
Qed.

Lemma Extends_fold_left {A B} (f f' : M A -> B -> M A) l acc acc' :
  (forall a a' x, Extends a a' -> Extends (f a x) (f' a' x)) ->
  Extends acc acc' ->
  Extends (fold_left f l acc) (fold_left f' l acc').
Proof.
  intros Hf. revert acc acc'. induction l as [|x l IH]; intros acc acc' H;
    simpl; [exact H|].
  apply IH. apply Hf. exact H.
Qed.

Section ExtendsCheck.
Variables tc tc' : sexp -> nat -> M jsval.
Hypothesis tc_extends : forall exp env, Extends (tc exp env) (tc' exp env).

Ltac ext_step :=
  match goal with
  | |- Extends ?m ?m => apply Extends_refl
  | |- Extends (tc _ _) (tc' _ _) => apply tc_extends
  | |- Extends (bind _ _) (bind _ _) => apply Extends_bind; [|intros]
  | |- Extends (mapM _ _) (mapM _ _) => apply Extends_mapM; intros
  | |- Extends (if ?b then _ else _) _ => destruct b
  | |- Extends (match ?x with _ => _ end) _ => destruct x
  end.
Ltac ext := repeat ext_step.

Lemma Extends_tcBlock block env :
  Extends (EvaTC._tcBlock tc block env) (EvaTC._tcBlock tc' block env).
Proof.
  unfold EvaTC._tcBlock. destruct (Js.iter block); ext.
  apply Extends_fold_left; [|apply Extends_refl].
  intros a a' x H. ext. exact H.
Qed.

Lemma Extends_tcBody body env :
  Extends (EvaTC._tcBody tc body env) (EvaTC._tcBody tc' body env).
Proof.
  unfold EvaTC._tcBody. destruct body; ext; apply Extends_tcBlock.
Qed.

Lemma Extends_tcFunction ps r b env :
  Extends (EvaTC._tcFunction tc ps r b env) (EvaTC._tcFunction tc' ps r b env).
Proof.
  unfold EvaTC._tcFunction. ext. apply Extends_tcBody.
Qed.

Lemma Extends_tc_step exp env :
  Extends (EvaTC.tc_step tc exp env) (EvaTC.tc_step tc' exp env).
Proof.
  unfold EvaTC.tc_step.
  repeat match goal with
    | |- Extends (if ?b then _ else _) _ => destruct b
    | |- Extends (bind _ _) (bind _ _) => apply Extends_bind; [|intros]
    | |- Extends ?m ?m => apply Extends_refl
    end.
  - unfold EvaTC._binary. ext.
  - unfold EvaTC._booleanBinary. ext.
  - unfold EvaTC.tc_class. ext. apply Extends_tcBody.
  - unfold EvaTC.tc_new. ext.
  - unfold EvaTC.tc_prop. ext.
  - unfold EvaTC.tc_var. ext.
  - unfold EvaTC.tc_set. ext.
  - unfold EvaTC.tc_begin. ext. apply Extends_tcBlock.
  - unfold EvaTC.tc_if. ext.
  - unfold EvaTC.tc_while. ext.
  - unfold EvaTC.tc_def. ext.
  - unfold EvaTC.tc_lambda, EvaTC._createSimpleFunctionType. ext.
    apply Extends_tcFunction.
  - unfold EvaTC.tc_call. ext. apply Extends_tcFunction.
Qed.
End ExtendsCheck.

(** One more level of nesting reproduces every outcome reached so far. *)
Lemma tc_extends_S fuel exp env :
  Extends (EvaTC.tc fuel exp env) (EvaTC.tc (S fuel) exp env).
Proof.
  revert exp env. induction fuel as [|fuel IH]; intros exp env.
  - intros s H. exfalso. apply H. reflexivity.
  - change (Extends (EvaTC.tc_step (EvaTC.tc fuel) exp env)
              (EvaTC.tc_step (EvaTC.tc (S fuel)) exp env)).
    apply Extends_tc_step. exact IH.
Qed.

Lemma tc_extends_add fuel k exp env :
  Extends (EvaTC.tc fuel exp env) (EvaTC.tc (k + fuel) exp env).
Proof.
  induction k as [|k IH]; [apply Extends_refl|].
  intros s H. simpl plus.
  rewrite (tc_extends_S (k + fuel) exp env s); rewrite (IH s H); auto.
Qed.

(** What a program checks to, or fails with, at some nesting bound is its
    outcome at every larger bound. *)
Lemma run_extends_add fuel k exp :
  EvaTC.run fuel exp <> Timeout -> EvaTC.run (k + fuel) exp = EvaTC.run fuel exp.
Proof.
  unfold EvaTC.run, EvaTC.tcGlobal.
  apply (Extends_bind EvaTC._createGlobal EvaTC._createGlobal); [apply Extends_refl|].
  intros global. apply Extends_tcBody. intros e env. apply tc_extends_add.
Qed.

Lemma run_value_stable fuel exp (r : result jsval) :
  value (EvaTC.run fuel exp) = r -> r <> Timeout ->
  forall k, value (EvaTC.run (k + fuel) exp) = r.
Proof.
  intros Hr Hne k. rewrite run_extends_add; [exact Hr|].
  intros E. rewrite E in Hr. simpl in Hr. congruence.
Qed.

(** Settles a statement about [run (k + n) e] by evaluating [run n e]. *)
Ltac evaluate :=
  intros; rewrite ?run_extends_add by (vm_compute; discriminate);
  vm_compute; repeat split; reflexivity.

(** ** Reading a scope back *)

Lemma lookup_own env name v sc st :
  heap st !! env = Some sc ->
  record sc !! Js.toString name = Some v ->
  Env.lookup env name st = Val (v, st).
Proof.
  intros Hsc Hv. unfold Env.lookup. cbn [Env.resolve].
  rewrite Hsc, Hv. reflexivity.
Qed.

Lemma define_spec env name v sc st :
  heap st !! env = Some sc ->
  Env.define env name v st
  = Val (v, mkState (Type_ st)
              (<[env := mkEnv (<[Js.toString name := v]> (record sc))
                              (parent sc)]> (heap st))
              (stamp st)).
Proof. intros H. unfold Env.define. rewrite H. reflexivity. Qed.

Lemma lookup_after_define env name v sc st :
  heap st !! env = Some sc ->
  let st' := mkState (Type_ st)
               (<[env := mkEnv (<[Js.toString name := v]> (record sc))
                               (parent sc)]> (heap st))
               (stamp st) in
  Env.lookup env name st' = Val (v, st').
Proof.
  intros H st'. eapply lookup_own.
  - unfold st'. cbn [heap]. apply list_lookup_insert_eq.
    eapply lookup_lt_Some; eauto.
  - cbn [record]. apply lookup_insert_eq.
Qed.

(** ** Claims *)

Lemma lookup_from_child child env name v csc sc st :
  heap st !! child = Some csc ->
  parent csc = Some env ->
  record csc !! Js.toString name = None ->
  child <> env ->
  heap st !! env = Some sc ->
  record sc !! Js.toString name = Some v ->
  Env.lookup child name st = Val (v, st).
Proof.
  intros Hc Hp Hn Hne He Hv. unfold Env.lookup.
  assert (1 <= List.length (heap st)) as L.
  { apply lookup_lt_Some in Hc. lia. }
  destruct (List.length (heap st)) as [|n]; [lia|].
  cbn [Env.resolve]. rewrite Hc, Hn, Hp, He, Hv. reflexivity.
Qed.

(** In a store whose parent links point to older scopes, a walk from
    scope [env] needs no more than [env + 1] steps. *)
Lemma resolve_total h fuel env name :
  Env.well_founded h -> env < fuel -> Env.resolve fuel h env name <> Timeout.
Proof.
  intros Hwf. revert env. induction fuel as [|fuel IH]; intros env Hlt;
    [lia|].
  cbn [Env.resolve]. destruct (h !! env) as [sc|] eqn:E; [|discriminate].
  destruct (record sc !! name); [discriminate|].
  destruct (parent sc) as [p|] eqn:Ep; [|discriminate].
  apply IH. specialize (Hwf _ _ _ E Ep). lia.
Qed.

Lemma lookup_total env name st :
  Env.well_founded (heap st) -> Env.lookup env name st <> Timeout.
Proof.
  intros Hwf. unfold Env.lookup, lift.
  destruct (heap st !! env) as [sc|] eqn:E.
  - pose proof (resolve_total (heap st) (S (List.length (heap st))) env
                  (Js.toString name) Hwf) as H.
    apply lookup_lt_Some in E.
    destruct (Env.resolve _ _ env _); [discriminate | discriminate |].
    exfalso. apply H; [lia | reflexivity].
  - cbn [Env.resolve]. rewrite E. discriminate.
Qed.

(** ** Claims *)

(** C3.  A non-generic [(def name params -> ret body)] whose declared
    signature resolves is checked as [(var name (lambda params -> ret
    body))] in a state where [name] is already bound, in the enclosing
    scope, to the function type built from the declared signature; the
    binding does not depend on the body.  The body is then checked in a
    new scope below the enclosing one, where [name], unless a parameter
    shadows it, reads as that declared function type, and the declaration
    yields the function type of the declared signature.  The recursive
    [fact] of the specification checks to [Fn<number<number>>], and so
    does a function whose body is nothing but a call of itself. *)
Theorem def_prebinds_declared_signature :
  forall fuel name params arrow ret_ body env st pts st1 rt st2 sc
         rt' st4 rec pts' st5,
    EvaTC.signature_types (Arr params) st = Val (pts, st1) ->
    Reg.fromString ret_ st1 = Val (rt, st2) ->
    heap st !! env = Some sc ->
    let declared := Ty.mkFunction pts rt in
    let st3 :=
      mkState (Type_ st2)
        (<[env := mkEnv (<[name := Some declared]> (record sc)) (parent sc)]>
           (heap st))
        (stamp st2) in
    Reg.fromString ret_ st3 = Val (rt', st4) ->
    EvaTC.bind_params params ∅ [] st4 = Val ((rec, pts'), st5) ->
    let fnEnv := List.length (heap st) in
    let st6 :=
      mkState (Type_ st5) (heap st3 ++ [mkEnv rec (Some env)]) (stamp st5) in
    let def := Arr [Str "def"; Str name; Arr params; arrow; ret_; body] in
    EvaTC.tc (S fuel) def env st
    = EvaTC.tc fuel
        (Arr [Str "var"; Str name;
              Arr [Str "lambda"; Arr params; arrow; ret_; body]]) env st3
    /\ Env.lookup env (Str name) st3 = Val (Some declared, st3)
    /\ EvaTC.tc (S (S (S fuel))) def env st
       = (do valueType <-
            (do actualReturnType <- EvaTC._tcBody (EvaTC.tc fuel) body fnEnv;
             do ok <- EvaTC.equals (Some rt') actualReturnType;
             if negb ok then throw ReturnTypeMismatch
             else ret (Some (Ty.mkFunction pts' rt')));
          Env.define env (Str name) valueType) st6
    /\ (rec !! name = None ->
        Env.lookup fnEnv (Str name) st6 = Val (Some declared, st6))
    /\ (forall k,
          value (EvaTC.run (k + 8) Sample.fact)
          = Val (Some (Function "Fn<number<number>>"
                         [Sample.number_t] Sample.number_t))
          /\ value (EvaTC.run (k + 8) Sample.loop)
             = Val (Some (Function "Fn<number<number>>"
                            [Sample.number_t] Sample.number_t))).
Proof.
  intros fuel name params arrow ret_ body env st pts st1 rt st2 sc
    rt' st4 rec pts' st5 Hsig Hret Hsc declared st3 Hret' Hpar fnEnv st6 def.
  assert (Hheap : heap st2 = heap st).
  { rewrite (Quiet_fromString _ _ _ _ Hret).
    apply (Quiet_signature_types _ _ _ _ Hsig). }
  assert (Hheap5 : heap st5 = heap st3).
  { rewrite (Quiet_bind_params _ _ _ _ _ _ Hpar).
    apply (Quiet_fromString _ _ _ _ Hret'). }
  assert (Hpre : forall f, EvaTC.tc (S f) def env st
    = EvaTC.tc f
        (Arr [Str "var"; Str name;
              Arr [Str "lambda"; Arr params; arrow; ret_; body]]) env st3).
  { intros f.
    change (EvaTC.tc (S f) def env st)
      with (EvaTC.tc_def (EvaTC.tc f) def env st).
    unfold EvaTC.tc_def.
    change (EvaTC._isGenericDefFunction _) with false. cbn [negb].
    cbn [Js.index nth def].
    unfold bind. rewrite Hsig, Hret.
    rewrite define_spec with (sc := sc) by (rewrite Hheap; exact Hsc).
    rewrite Hheap. reflexivity. }
  assert (Hlen : List.length (heap st3) = fnEnv).
  { unfold st3, fnEnv. cbn [heap]. apply length_insert. }
  assert (Henv : env < fnEnv).
  { eapply lookup_lt_Some; eauto. }
  split; [apply Hpre|]. split; [|split; [|split]].
  - apply (lookup_after_define env (Str name) (Some declared) sc
             (mkState (Type_ st2) (heap st) (stamp st2))). exact Hsc.
  - rewrite Hpre.
    change (EvaTC.tc (S (S fuel)) ?e env st3)
      with ((do valueType <-
               EvaTC._tcFunction (EvaTC.tc fuel) (Arr params) ret_ body env;
             Env.define env (Str name) valueType) st3).
    unfold EvaTC._tcFunction, bind. rewrite Hret', Hpar.
    unfold Env.new. rewrite Hheap5, Hlen. reflexivity.
  - intros Hrec.
    eapply (lookup_from_child fnEnv env (Str name)).
    + unfold st6. cbn [heap]. rewrite <- Hlen.
      rewrite lookup_app_r by lia. rewrite Nat.sub_diag. reflexivity.
    + reflexivity.
    + exact Hrec.
    + lia.
    + unfold st6, st3. cbn [heap]. rewrite lookup_app_l.
      * apply list_lookup_insert_eq. exact Henv.
      * rewrite length_insert. exact Henv.
    + cbn [record]. apply lookup_insert_eq.
  - evaluate.
Qed.

(** C7, as amended.  For a typed declaration [(var (name descriptor)
    value)] whose descriptor resolves: when the inferred type of the
    value compares unequal to the declared type the check fails with
    TypeMismatch; when it compares equal the check returns the declared
    type and binds the name to it, not to the inferred type.  So widening
    to a declared union succeeds: after [(type U (or number string))],
    [(var (y U) 10)] checks and binds [y] to the union [U]. *)
Theorem typed_var_binds_declared_type :
  forall fuel name typeStr val env st valueType st1 expected st2 sc b,
    EvaTC.tc fuel val env st = Val (valueType, st1) ->
    Reg.fromString typeStr st1 = Val (expected, st2) ->
    heap st2 !! env = Some sc ->
    EvaTC.equals valueType (Some expected) st2 = Val (b, st2) ->
    let exp := Arr [Str "var"; Arr [name; typeStr]; val] in
    let st3 :=
      mkState (Type_ st2)
        (<[env := mkEnv (<[Js.toString name := Some expected]> (record sc))
                        (parent sc)]> (heap st2))
        (stamp st2) in
    (if b
     then EvaTC.tc (S fuel) exp env st = Val (Some expected, st3)
          /\ Env.lookup env name st3 = Val (Some expected, st3)
     else EvaTC.tc (S fuel) exp env st = Exn TypeMismatch)
    /\ (forall k,
          match EvaTC.run (k + 4) Sample.widening with
          | Val (t, st') =>
              let U := Union 0 "U" [Sample.number_t; Sample.string_t] in
              t = Some U /\ Env.lookup 0 (Str "y") st' = Val (Some U, st')
          | _ => False
          end).
Proof.
  intros fuel name typeStr val env st valueType st1 expected st2 sc b
    Hval Hty Hsc Heq exp st3.
  split; [|evaluate].
  assert (Hrun : EvaTC.tc (S fuel) exp env st
    = (do _ <- EvaTC._expect valueType (Some expected);
       Env.define env name (Some expected)) st2).
  { change (EvaTC.tc (S fuel) exp env st)
      with (EvaTC.tc_var (EvaTC.tc fuel) exp env st).
    unfold EvaTC.tc_var. cbn [Js.index nth exp EvaTC.isArray].
    unfold bind at 1. rewrite Hval.
    unfold bind at 1. rewrite Hty. reflexivity. }
  rewrite Hrun. unfold EvaTC._expect, bind. rewrite Heq.
  destruct b; cbn [negb].
  - split.
    + unfold ret. apply define_spec. exact Hsc.
    + apply (lookup_after_define env name (Some expected) sc st2 Hsc).
  - reflexivity.
Qed.

(** C7, the specification's own example: an inline union descriptor is
    not a descriptor [Type.fromString] understands, and the declaration
    does not check. *)
Lemma inline_union_descriptor_is_rejected :
  value (EvaTC.run 4 Sample.inline_union_var) = Exn JsTypeError.
Proof. vm_compute. reflexivity. Qed.

(** ** Dispatch to the call branch *)

Lemma tc_step_call tc exp env st :
  is_call_form exp = true ->
  EvaTC.tc_step tc exp env st = EvaTC.tc_call tc exp env st.
Proof.
  intros H. destruct exp as [| | | |l]; try discriminate.
  unfold is_call_form, keywords in H. cbn [forallb EvaTC.isArray] in H.
  repeat match goal with
    | H : _ && _ = true |- _ => apply andb_prop in H; destruct H
    | H : negb _ = true |- _ => apply negb_true_iff in H
    end.
  unfold EvaTC.tc_step, EvaTC._isBinary, bind, ret.
  cbn [EvaTC._isNumber EvaTC._isString EvaTC._isBoolean Js.is_str orb
       EvaTC._isVariableName EvaTC.isArray].
  repeat match goal with
    | H : _ = false |- _ => rewrite H; clear H
    end.
  reflexivity.
Qed.

(** ** The substitution built for a generic call *)

Lemma fold_left_ext_in {A B} (f g : A -> B -> A) (l : list B) (a : A) :
  (forall x a', In x l -> f a' x = g a' x) ->
  fold_left f l a = fold_left g l a.
Proof.
  revert a. induction l as [|x l IH]; intros a H; simpl; [reflexivity|].
  rewrite H by (left; reflexivity). apply IH.
  intros y a' Hy. apply H. right. exact Hy.
Qed.

(** Actual types beyond the generic parameters play no part. *)
Lemma genericTypesMap_take gs actual :
  EvaTC._getGenericTypesMap gs actual
  = EvaTC._getGenericTypesMap gs (take (List.length gs) actual).
Proof.
  unfold EvaTC._getGenericTypesMap. apply fold_left_ext_in.
  intros i m Hi. apply in_seq in Hi.
  rewrite lookup_take_lt by lia. reflexivity.
Qed.

Lemma genericTypesMap_prefix gs (val : nat -> sexp) n i g :
  n <= List.length gs -> i < n -> gs !! i = Some g ->
  (forall j, i < j -> gs !! j <> Some g) ->
  fold_left (fun m j => <[nth j gs EmptyString := val j]> m) (seq 0 n)
    (∅ : gmap string sexp) !! g = Some (val i).
Proof.
  induction n as [|n IH]; intros Hn Hi Hg Hlast; [lia|].
  rewrite seq_S, fold_left_app. simpl.
  destruct (decide (i = n)) as [->|Hne].
  - rewrite (nth_lookup_Some _ _ _ _ Hg). apply lookup_insert_eq.
  - destruct (nth_lookup_or_length gs n EmptyString) as [Hn'|]; [|lia].
    rewrite lookup_insert_ne.
    + apply IH; [lia | lia | exact Hg | exact Hlast].
    + intros E. apply (Hlast n); [lia|]. rewrite <- E. exact Hn'.
Qed.

(** A generic parameter is mapped to the actual type at its position, the
    last one if it is listed more than once, or to [undefined] when there
    is no actual type at that position. *)
Lemma genericTypesMap_positional gs actual i g :
  gs !! i = Some g ->
  (forall j, i < j -> gs !! j <> Some g) ->
  EvaTC._getGenericTypesMap gs actual !! g
  = Some (match actual !! i with Some a => Str a | None => Undefined end).
Proof.
  intros Hg Hlast. unfold EvaTC._getGenericTypesMap.
  apply (genericTypesMap_prefix gs
           (fun j => match actual !! j with
                     | Some a => Str a
                     | None => Undefined
                     end)); auto.
  eapply lookup_lt_Some; eauto.
Qed.

(** C6, as amended.  In a call whose head checks to a generic function,
    the second element must read as a bracketed list of actual types or
    the call fails; the actual types are matched to the generic
    parameters by position (a parameter listed twice takes its last
    position, one without an actual type is bound to [undefined]); their
    count is not checked: the call is checked with the substitution built
    from the first actual types, as many as there are generic parameters,
    and actual types beyond those are ignored. *)
Theorem generic_call_actual_types :
  forall fuel exp env st n gs ps r b fe st1,
    is_call_form exp = true ->
    EvaTC.tc fuel (Js.index exp 0) env st
    = Val (Some (GenericFunction n gs ps r b fe), st1) ->
    match Js.re_angle (Js.toString (Js.index exp 1)) with
    | None => EvaTC.tc (S fuel) exp env st = Exn NoActualTypes
    | Some inner =>
        let actual := Js.split_comma inner in
        let m := EvaTC._getGenericTypesMap gs (take (List.length gs) actual) in
        (forall i g,
           gs !! i = Some g ->
           (forall j, i < j -> gs !! j <> Some g) ->
           m !! g = Some (match actual !! i with
                          | Some a => Str a
                          | None => Undefined
                          end))
        /\ EvaTC.tc (S fuel) exp env st
           = (do (boundParams, boundReturnType) <-
                EvaTC._bindFunctionTypes ps r m;
              do actualFn <-
                EvaTC._tcFunction (EvaTC.tc fuel) boundParams boundReturnType
                  b fe;
              do argTypes <-
                mapM (fun arg => EvaTC.tc fuel arg env)
                     (match exp with Arr l => tl (tl l) | _ => [] end);
              EvaTC._checkFunctionCall actualFn argTypes) st1
    end.
Proof.
  intros fuel exp env st n gs ps r b fe st1 Hcall Hfn.
  change (EvaTC.tc (S fuel) exp env st)
    with (EvaTC.tc_step (EvaTC.tc fuel) exp env st).
  rewrite tc_step_call by exact Hcall.
  unfold EvaTC.tc_call. rewrite (bind_of_Val _ _ _ _ _ Hfn). cbv beta iota.
  unfold EvaTC._extractActualCallTypes.
  destruct (Js.re_angle (Js.toString (Js.index exp 1))) as [inner|];
    [|reflexivity].
  split.
  - intros i g Hg Hlast.
    rewrite <- genericTypesMap_take.
    apply genericTypesMap_positional; assumption.
  - rewrite <- genericTypesMap_take.
    unfold bind, ret.
    destruct (EvaTC._bindFunctionTypes ps r _ st1)
      as [[[boundParams boundReturnType] s2]| |]; [|reflexivity..].
    destruct (EvaTC._tcFunction _ boundParams boundReturnType b fe s2)
      as [[actualFn s3]| |]; reflexivity.
Qed.

(** C6, the claim as stated fails: with one generic parameter and two
    actual types the call checks, and it does so with two generic
    parameters and one actual type. *)
Lemma wrong_count_of_actual_types_is_accepted :
  value (EvaTC.run 5 Sample.identity_two_actuals) = Val (Some Sample.number_t)
  /\ value (EvaTC.run 5 Sample.first_of_two_one_actual)
     = Val (Some Sample.number_t).
Proof. split; vm_compute; reflexivity. Qed.

(** ** Tokens, numbers and booleans are checked without writing a scope *)

Lemma atom_index exp i :
  EvaTC.isArray exp = false -> EvaTC.isArray (Js.index exp i) = false.
Proof.
  destruct exp; simpl; try reflexivity; [|discriminate].
  intros _. destruct (String.get i s); reflexivity.
Qed.

Lemma atom_tag exp kw :
  EvaTC.isArray exp = false -> 2 <= String.length kw ->
  Js.is_str (Js.index exp 0) kw = false.
Proof.
  destruct exp; simpl; try reflexivity; [|discriminate].
  intros _ Hkw. destruct s as [|c s]; simpl; [reflexivity|].
  destruct kw as [|k [|k' kw]]; simpl in *; try lia.
  apply andb_false_r.
Qed.

Lemma tc_atom_quiet fuel exp env :
  EvaTC.isArray exp = false -> Quiet (EvaTC.tc fuel exp env).
Proof.
  revert exp env. induction fuel as [|fuel IH]; intros exp env Hatom; simpl.
  - apply Quiet_timeout.
  - unfold EvaTC.tc_step.
    rewrite !atom_tag by (auto; simpl; lia). rewrite Hatom.
    unfold EvaTC._binary, EvaTC._booleanBinary.
    quiet; apply IH; apply atom_index; exact Hatom.
Qed.

Lemma mapM_atoms_quiet fuel env l :
  Forall (fun e => EvaTC.isArray e = false) l ->
  Quiet (mapM (fun arg => EvaTC.tc fuel arg env) l).
Proof.
  induction 1; simpl; quiet; auto using tc_atom_quiet.
Qed.

(** A computation that returns values satisfying [Q] and stays within
    [P] may be continued by one that needs [Q]. *)
Lemma Frame_bind_post {A B} P (Q : A -> Prop) (m : M A) (k : A -> M B) :
  Frame P m ->
  (forall s a s', m s = Val (a, s') -> Q a) ->
  (forall a, Q a -> Frame P (k a)) ->
  Frame P (bind m k).
Proof.
  intros Hm HQ Hk s b s' H. apply bind_Val in H as (a & s1 & E & H).
  eapply unchanged_trans; [eapply Hm | eapply Hk]; eauto.
Qed.

(** The narrowing condition [(== (typeof x) "T")] writes no scope that
    existed before it was checked. *)
Lemma typeof_condition_frame fuel x T env :
  Frame nowhere (EvaTC.tc fuel (typeof_is x T) env).
Proof.
  destruct fuel as [|fuel]; [apply Frame_quiet, Quiet_timeout|].
  change (Frame nowhere
            (EvaTC._booleanBinary (EvaTC.tc fuel) (typeof_is x T) env)).
  unfold EvaTC._booleanBinary. cbn [Js.index typeof_is nth].
  apply Frame_bind; [frame | intros _].
  apply Frame_bind.
  - destruct fuel as [|fuel]; [apply Frame_quiet, Quiet_timeout|].
    change (Frame nowhere
              (EvaTC.tc_call (EvaTC.tc fuel)
                 (Arr [Str "typeof"; Str x]) env)).
    unfold EvaTC.tc_call. cbn [Js.index nth tl].
    apply Frame_bind; [apply Frame_quiet, tc_atom_quiet; reflexivity|].
    intros fn.
    apply (Frame_bind_post _
             (fun p => Forall (fun e => EvaTC.isArray e = false) (snd p))).
    + destruct fn as [[]|]; frame.
      apply Frame_tcFunction. apply tc_frame.
    + intros s [actualFn argValues] s' H. simpl.
      destruct fn as [[]|];
        try (inversion H; subst; repeat constructor).
      repeat (apply bind_Val in H as (? & ? & _ & H);
              try match type of H with
                | (let '(_, _) := ?p in _) _ = _ => destruct p
                end).
      inversion H; subst. constructor.
    + intros [actualFn argValues] Hargs. simpl in Hargs.
      apply Frame_bind; [|intros; frame].
      apply Frame_quiet, mapM_atoms_quiet. exact Hargs.
  - intros t1. apply Frame_bind; [|intros; frame].
    apply Frame_quiet, tc_atom_quiet. reflexivity.
Qed.

(** C2.  When the condition of an [if] is [(== (typeof x) "T")], checks
    to boolean, and [T] names a type, the consequent is checked in a new
    scope below the current one in which [x] is bound to that type, and
    the alternative is checked in the current scope itself.  Checking the
    consequent leaves every scope that existed before the [if] exactly as
    it was, so the alternative and whatever is checked after the
    conditional still see the original binding of [x]. *)
Theorem narrowing_is_confined_to_consequent :
  forall fuel x T A B env st t1 st1 ty st2,
    let cond := typeof_is x T in
    EvaTC.tc fuel cond env st = Val (t1, st1) ->
    EvaTC.equals t1 (Type_ st1 !! "boolean") st1 = Val (true, st1) ->
    Reg.fromString (Str T) st1 = Val (ty, st2) ->
    let child := List.length (heap st2) in
    let st3 :=
      mkState (Type_ st2)
        (heap st2 ++ [mkEnv {[x := Some ty]} (Some env)]) (stamp st2) in
    EvaTC.tc (S fuel) (Arr [Str "if"; cond; A; B]) env st
    = (do t2 <- EvaTC.tc fuel A child;
       do t3 <- EvaTC.tc fuel B env;
       EvaTC._expect t3 t2) st3
    /\ Env.lookup child (Str x) st3 = Val (Some ty, st3)
    /\ (forall t2 st4,
          EvaTC.tc fuel A child st3 = Val (t2, st4) ->
          forall e, e < List.length (heap st) ->
                    heap st4 !! e = heap st !! e).
Proof.
  intros fuel x T A B env st t1 st1 ty st2 cond Hcond Hbool Hty child st3.
  assert (Hheap2 : heap st2 = heap st1)
    by apply (Quiet_fromString _ _ _ _ Hty).
  destruct (typeof_condition_frame fuel x T env _ _ _ Hcond) as [Hlen Hold].
  split; [|split].
  - change (EvaTC.tc (S fuel) ?e env st)
      with (EvaTC.tc_if (EvaTC.tc fuel) e env st).
    unfold EvaTC.tc_if. cbn [Js.index nth].
    rewrite (bind_of_Val _ _ _ _ _ Hcond).
    change (EvaTC._isTypeCastCondition cond) with (@ret bool true).
    change (EvaTC._getSpecifiedType cond)
      with (@ret (sexp * sexp) (Str x, Str (Js.slice_1_m1 (quoted T)))).
    rewrite slice_quoted.
    unfold EvaTC._expect at 1. unfold bind, Reg.static, ret.
    rewrite Hbool. cbn [negb]. rewrite Hty. reflexivity.
  - eapply lookup_own.
    + unfold st3, child. cbn [heap].
      rewrite lookup_app_r by lia. rewrite Nat.sub_diag. reflexivity.
    + cbn [record Js.toString]. apply lookup_singleton_eq.
  - intros t2 st4 HA e He.
    destruct (tc_frame fuel A child _ _ _ HA) as [_ Hframe].
    assert (e < child) by (unfold child; rewrite Hheap2; lia).
    rewrite Hframe.
    + unfold st3. cbn [heap]. rewrite lookup_app_l by exact H.
      rewrite Hheap2. apply Hold; [exact He | intros []].
    + unfold st3. cbn [heap]. rewrite length_app. simpl. lia.
    + lia.
Qed.

(** C9.  Whatever the scopes hold, the tokens [true] and [false] and the
    native booleans check to [Type.boolean] at the first unfolding of
    [tc], with the state untouched: the boolean test precedes the
    identifier test, so no lookup of a name [true] or [false] is ever
    made.  After [(var true 5)] the token [true] still checks to
    boolean. *)
Theorem boolean_literal_precedes_lookup :
  forall fuel env st,
    (forall b, EvaTC.tc (S fuel) (Bool b) env st
               = Val (Type_ st !! "boolean", st))
    /\ EvaTC.tc (S fuel) (Str "true") env st = Val (Type_ st !! "boolean", st)
    /\ EvaTC.tc (S fuel) (Str "false") env st = Val (Type_ st !! "boolean", st)
    /\ value (EvaTC.run (fuel + 3) Sample.shadowed_true)
       = Val (Some Sample.boolean_t).
Proof. intros. repeat split. evaluate. Qed.

(** C10.  In every scope and state, [(begin)] with no subexpressions
    completes and returns [undefined]: as an expression it only adds an
    empty scope below the current one, and as a whole program it leaves
    the state as it was. *)
Theorem empty_block_returns_undefined :
  forall fuel env st,
    EvaTC.tc (S fuel) (Arr [Str "begin"]) env st
    = Val (None,
           mkState (Type_ st) (heap st ++ [mkEnv ∅ (Some env)]) (stamp st))
    /\ EvaTC.tcGlobal fuel (Arr [Str "begin"]) env st = Val (None, st).
Proof. intros. split; reflexivity. Qed.

(** C1.  On a union whose only option is [number], [+] is refused with
    OperatorOperandMismatch although that option is allowed; and on a
    union one of whose options is [boolean], [+] is let through.  The
    test compares the count of allowed types with the count of options
    and asks that every allowed type equal the union, instead of asking
    that every option be allowed. *)
Theorem union_operand_test_is_not_per_option :
  forall k,
    value (EvaTC.run (k + 5) Sample.plus_on_singleton_union)
    = Exn OperatorOperandMismatch
    /\ value (EvaTC._expectOperatorType
                (Some (Union 0 "N" [Sample.number_t]))
                [Some Sample.string_t; Some Sample.number_t] Sample.fresh)
       = Exn OperatorOperandMismatch
    /\ value (EvaTC.run (k + 5) Sample.plus_on_boolean_in_union)
       = Val (Some (Union 1 "V"
                      [Union 0 "U" [Sample.string_t; Sample.number_t];
                       Sample.boolean_t])).
Proof. evaluate. Qed.

(** C4.  Declaring a union under a name that is already registered does
    not fail: the second union replaces the first in the registry.  A
    class declared under the name of an alias replaces the alias.  Only
    the alias form of [type] refuses a registered name. *)
Theorem redeclaration_replaces_registry_entry :
  forall k,
    match EvaTC.run (k + 5) Sample.union_declared_twice with
    | Val (t, st) =>
        let U2 := Union 1 "U" [Sample.number_t; Sample.boolean_t] in
        t = Some U2 /\ Type_ st !! "U" = Some U2
    | _ => False
    end
    /\ match EvaTC.run (k + 5) Sample.class_over_alias with
       | Val (t, st) =>
           Type_ st !! "int" = Some (Class "int" (Some (Prim "null")) 1)
       | _ => False
       end
    /\ value (EvaTC.run (k + 5) Sample.alias_declared_twice)
       = Exn DuplicateType.
Proof. evaluate. Qed.

(** C5.  A class whose superclass name is not registered is checked
    without error: the class is built with no superclass and its scope
    and body are checked as usual.  The [new] and [super] forms do fail
    on the same unregistered name. *)
Theorem unknown_superclass_is_accepted :
  forall k,
    match EvaTC.run (k + 5) Sample.class_with_unknown_super with
    | Val (t, st) =>
        t = Some (Class "A" (Some (Prim "null")) 1)
        /\ heap st !! 1 = Some (mkEnv {["x" := Some Sample.number_t]} None)
    | _ => False
    end
    /\ value (EvaTC.run (k + 5) (Arr [Str "new"; Str "Missing"]))
       = Exn UnknownClass
    /\ value (EvaTC.run (k + 5) (Arr [Str "super"; Str "Missing"]))
       = Exn UnknownClass.
Proof. evaluate. Qed.

(** C8.  [equals] is reflexive on every type value, and an alias
    equals its parent.  The converse fails for a parent that is a
    function type: for the alias [F] of [Fn<number<number>>],
    [P.equals(F)] throws, because the [equals] of function types reads
    the parameter list of its argument without first delegating to an
    alias.  A typed declaration of a variable of type [F] holding
    [square] stops with that exception. *)
Theorem equals_reflexive_but_function_rejects_alias :
  (forall null_ t, Ty.equals null_ t (Some t) = Val true)
  /\ (forall null_ n p, Ty.equals null_ (Alias n p) (Some p) = Val true)
  /\ (let P := Function "Fn<number<number>>"
                 [Sample.number_t] Sample.number_t in
      Ty.equals (Some (Prim "null")) P (Some (Alias "F" P)) = Exn JsTypeError)
  /\ (forall k,
        value (EvaTC.run (k + 5) Sample.function_alias_var) = Exn JsTypeError).
Proof.
  split; [exact equals_refl|]. split; [exact alias_equals_parent|].
  split; [vm_compute; reflexivity | evaluate].
Qed.

(** ** The theorems at concrete inputs *)

(** C2 at [(if (== (typeof x) "string") (+ x "a") "b")], with [x] of the
    union type [U]: inside the consequent [x] reads as [string], and in
    the global scope it still reads as [U]. *)
Lemma narrowing_is_confined_to_consequent_witness :
  (EvaTC.tc 3 (typeof_is "x" "string") 0 Sample.after_union_x
   = Val (Some Sample.boolean_t, Sample.after_union_x)
   /\ EvaTC.equals (Some Sample.boolean_t)
        (Type_ Sample.after_union_x !! "boolean") Sample.after_union_x
      = Val (true, Sample.after_union_x)
   /\ Reg.fromString (Str "string") Sample.after_union_x
      = Val (Sample.string_t, Sample.after_union_x))
  /\ Env.lookup 1 (Str "x") Sample.narrowed
     = Val (Some Sample.string_t, Sample.narrowed)
  /\ Env.lookup 0 (Str "x") Sample.narrowed
     = Val (Some (Union 0 "U" [Sample.number_t; Sample.string_t]),
            Sample.narrowed).
Proof.
  assert (H1 : EvaTC.tc 3 (typeof_is "x" "string") 0 Sample.after_union_x
               = Val (Some Sample.boolean_t, Sample.after_union_x))
    by (vm_compute; reflexivity).
  assert (H2 : EvaTC.equals (Some Sample.boolean_t)
                 (Type_ Sample.after_union_x !! "boolean")
                 Sample.after_union_x
               = Val (true, Sample.after_union_x))
    by (vm_compute; reflexivity).
  assert (H3 : Reg.fromString (Str "string") Sample.after_union_x
               = Val (Sample.string_t, Sample.after_union_x))
    by (vm_compute; reflexivity).
  split; [auto|]. split.
  - exact (proj1 (proj2
      (narrowing_is_confined_to_consequent 3 "x" "string"
         (Arr [Str "+"; Str "x"; Str (quoted "a")]) (Str (quoted "b"))
         0 _ _ _ _ _ H1 H2 H3))).
  - vm_compute. reflexivity.
Defined.

(** C3 at the [fact] of the specification, declared in a fresh checker:
    in the scope of the body, [fact] reads as [Fn<number<number>>]. *)
Lemma def_prebinds_declared_signature_witness :
  (EvaTC.signature_types (Arr [Arr [Str "n"; Str "number"]]) Sample.fresh
   = Val ([Sample.number_t], Sample.fresh)
   /\ Reg.fromString (Str "number") Sample.fresh
      = Val (Sample.number_t, Sample.fresh)
   /\ heap Sample.fresh !! 0 = Some (Sample.global_scope Sample.fresh)
   /\ Reg.fromString (Str "number") Sample.fact_prebound
      = Val (Sample.number_t, Sample.fact_prebound)
   /\ EvaTC.bind_params [Arr [Str "n"; Str "number"]] ∅ [] Sample.fact_prebound
      = Val (({["n" := Some Sample.number_t]}, [Sample.number_t]),
             Sample.fact_prebound))
  /\ Env.lookup 1 (Str "fact") Sample.fact_body
     = Val (Some (Function "Fn<number<number>>"
                    [Sample.number_t] Sample.number_t),
            Sample.fact_body).
Proof.
  assert (H1 : EvaTC.signature_types (Arr [Arr [Str "n"; Str "number"]])
                 Sample.fresh
               = Val ([Sample.number_t], Sample.fresh))
    by (vm_compute; reflexivity).
  assert (H2 : Reg.fromString (Str "number") Sample.fresh
               = Val (Sample.number_t, Sample.fresh))
    by (vm_compute; reflexivity).
  assert (H3 : heap Sample.fresh !! 0 = Some (Sample.global_scope Sample.fresh))
    by (vm_compute; reflexivity).
  assert (H4 : Reg.fromString (Str "number") Sample.fact_prebound
               = Val (Sample.number_t, Sample.fact_prebound))
    by (vm_compute; reflexivity).
  assert (H5 : EvaTC.bind_params [Arr [Str "n"; Str "number"]] ∅ []
                 Sample.fact_prebound
               = Val (({["n" := Some Sample.number_t]}, [Sample.number_t]),
                      Sample.fact_prebound))
    by (vm_compute; reflexivity).
  split; [auto 6|].
  apply (proj1 (proj2 (proj2 (proj2
    (def_prebinds_declared_signature 5 "fact" _ (Str "->") (Str "number")
       (Js.index Sample.fact 5) 0 _ _ _ _ _ _ _ _ _ _ _ H1 H2 H3 H4 H5))))).
  vm_compute. reflexivity.
Defined.

(** C6 at the identity function called with two actual types: the one
    generic parameter is matched with the first, and the call is checked
    with that substitution alone. *)
Lemma generic_call_actual_types_witness :
  (is_call_form Sample.identity_two_actuals = true
   /\ EvaTC.tc 1 Sample.identity 0 Sample.fresh
      = Val (Some (GenericFunction "lambda <T>" ["T"]
                     (Arr [Arr [Str "x"; Str "T"]]) (Str "T") (Str "x") 0),
             Sample.fresh))
  /\ EvaTC._getGenericTypesMap ["T"] (take 1 ["number"; "string"]) !! "T"
     = Some (Str "number").
Proof.
  assert (H1 : is_call_form
                 Sample.identity_two_actuals = true)
    by reflexivity.
  assert (H2 : EvaTC.tc 1 Sample.identity 0 Sample.fresh
               = Val (Some (GenericFunction "lambda <T>" ["T"]
                              (Arr [Arr [Str "x"; Str "T"]]) (Str "T")
                              (Str "x") 0),
                      Sample.fresh))
    by (vm_compute; reflexivity).
  split; [auto|].
  pose proof (generic_call_actual_types 1
                Sample.identity_two_actuals
                0 _ _ _ _ _ _ _ _ H1 H2) as H.
  change (Js.re_angle _) with (Some "number,string") in H.
  cbv beta iota zeta in H. destruct H as [Hpos _].
  apply (Hpos 0 "T"); [reflexivity|].
  intros [|j] Hj; [lia | discriminate].
Defined.

(** C7 at [(var (y U) 10)] after [(type U (or number string))]: the
    declaration checks to the union and binds [y] to it. *)
Lemma typed_var_binds_declared_type_witness :
  (EvaTC.tc 1 (Num 10) 0 Sample.after_union
   = Val (Some Sample.number_t, Sample.after_union)
   /\ Reg.fromString (Str "U") Sample.after_union
      = Val (Union 0 "U" [Sample.number_t; Sample.string_t],
             Sample.after_union)
   /\ heap Sample.after_union !! 0
      = Some (Sample.global_scope Sample.after_union)
   /\ EvaTC.equals (Some Sample.number_t)
        (Some (Union 0 "U" [Sample.number_t; Sample.string_t]))
        Sample.after_union
      = Val (true, Sample.after_union))
  /\ value (EvaTC.tc 2 (Sample.var_typed "y" (Str "U") (Num 10)) 0
              Sample.after_union)
     = Val (Some (Union 0 "U" [Sample.number_t; Sample.string_t])).
Proof.
  assert (H1 : EvaTC.tc 1 (Num 10) 0 Sample.after_union
               = Val (Some Sample.number_t, Sample.after_union))
    by (vm_compute; reflexivity).
  assert (H2 : Reg.fromString (Str "U") Sample.after_union
               = Val (Union 0 "U" [Sample.number_t; Sample.string_t],
                      Sample.after_union))
    by (vm_compute; reflexivity).
  assert (H3 : heap Sample.after_union !! 0
               = Some (Sample.global_scope Sample.after_union))
    by (vm_compute; reflexivity).
  assert (H4 : EvaTC.equals (Some Sample.number_t)
                 (Some (Union 0 "U" [Sample.number_t; Sample.string_t]))
                 Sample.after_union
               = Val (true, Sample.after_union))
    by (vm_compute; reflexivity).
  split; [auto 6|].
  pose proof (proj1 (typed_var_binds_declared_type 1 (Str "y") (Str "U")
                       (Num 10) 0 _ _ _ _ _ _ true H1 H2 H3 H4)) as H.
  cbv beta iota zeta in H. destruct H as [H _].
  unfold Sample.var_typed. rewrite H. reflexivity.
Defined.

(** * Further properties *)

(** ** The equality of types ([Type.js]) *)

(** X1.  [equals] terminates on every pair of type values: although a
    call may hand over to [other.equals(this)], it does so at most once
    before an argument shrinks, so every comparison returns a boolean or
    throws. *)
Theorem equals_always_terminates :
  forall null_ this other, settled (Ty.equals null_ this other).
Proof.
  intros null_ this other. unfold settled.
  pose proof (equals_no_timeout null_ this other) as H.
  destruct (Ty.equals null_ this other); [eauto | eauto | contradiction].
Qed.

Lemma alias_chain_upto null_ fuel t :
  Ty.size t <= fuel -> Ty.equals_upto fuel null_ t (Some (root t)) = Val true.
Proof.
  revert t. induction fuel as [|fuel IH]; intros t Hsz.
  - destruct t; simpl in Hsz; lia.
  - destruct t; try (apply equals_upto_refl; exact Hsz).
    simpl in *. unfold Ty.Alias_equals.
    destruct (String.eqb name (Ty.getName (root t))); [reflexivity|].
    apply IH. lia.
Qed.

(** X2.  Through any chain of aliases, a type equals the type the chain
    ends in; and that type equals the alias in return, unless it is a
    function type, whose [equals] throws on an alias. *)
Theorem alias_chain_equals_its_root :
  forall null_ t,
    Ty.equals null_ t (Some (root t)) = Val true
    /\ Ty.equals null_ (root t) (Some t)
       = if is_function (root t) && Ty.is_alias t then Exn JsTypeError
         else Val true.
Proof.
  intros null_ t. split.
  - apply alias_chain_upto. unfold Ty.equals_bound. simpl. lia.
  - destruct t as [n|n ps r|n p|n s e|i n os|n gs ps r b e];
      try (simpl; rewrite ?andb_false_r; apply equals_refl).
    assert (Hroot : Ty.is_alias (root (Alias n p)) = false).
    { simpl. clear. induction p; simpl; auto. }
    assert (Hback : forall fuel, Ty.size (Alias n p) <= fuel ->
              Ty.equals_upto fuel null_ (Alias n p) (Some (root (Alias n p)))
              = Val true) by (intros; apply alias_chain_upto; assumption).
    unfold Ty.equals, Ty.equals_bound.
    set (R := root (Alias n p)) in *.
    cbn [Ty.is_alias andb]. rewrite andb_true_r.
    assert (Hsz : Ty.size (Alias n p)
                  <= 2 * (Ty.size R + Ty.size_val (Some (Alias n p))) + 1)
      by (simpl; lia).
    replace (2 * (Ty.size R + Ty.size_val (Some (Alias n p))) + 2)
      with (S (2 * (Ty.size R + Ty.size_val (Some (Alias n p))) + 1)) by lia.
    destruct R eqn:ER; try discriminate; cbn [is_function];
      cbn [Ty.equals_upto Ty.dispatch_equals].
    + unfold Ty.Type_equals. cbn [Ty.is_alias]. apply Hback. exact Hsz.
    + reflexivity.
    + unfold Ty.Class_equals. cbn [Ty.same]. apply Hback. exact Hsz.
    + unfold Ty.Union_equals. cbn [Ty.same]. apply Hback. exact Hsz.
    + unfold Ty.Type_equals. cbn [Ty.is_alias]. apply Hback. exact Hsz.
Qed.

Lemma some_equals_prims (eq_ : ty -> jsval -> result bool) os o' :
  (forall t, is_prim t = true ->
     eq_ t (Some o') = Val (String.eqb (Ty.getName t) (Ty.getName o'))) ->
  forallb is_prim os = true ->
  Ty.some_equals eq_ os (Some o')
  = Val (existsb (fun o => String.eqb (Ty.getName o) (Ty.getName o')) os).
Proof.
  intros Heq. induction os as [|t os IH]; intros Hp; simpl; [reflexivity|].
  simpl in Hp. apply andb_prop in Hp as [Ht Hos].
  rewrite Heq by exact Ht. simpl.
  destruct (String.eqb (Ty.getName t) (Ty.getName o')); [reflexivity|].
  apply IH. exact Hos.
Qed.

Lemma includes_each_prims (eq_ : ty -> jsval -> result bool) this
  (f : ty -> bool) os' :
  (forall o', is_prim o' = true -> eq_ this (Some o') = Val (f o')) ->
  forallb is_prim os' = true ->
  Ty.includes_each eq_ this (List.map Some os') = Val (forallb f os').
Proof.
  intros Heq. induction os' as [|o os' IH]; intros Hp; simpl; [reflexivity|].
  simpl in Hp. apply andb_prop in Hp as [Ho Hos].
  rewrite Heq by exact Ho. simpl.
  destruct (f o); simpl; [apply IH; exact Hos | reflexivity].
Qed.

(** X3.  Between two distinct unions whose options are primitives,
    [U.equals(V)] holds exactly when both have the same number of options
    and every option of [V] is, by name, among those of [U]: the order of
    the options plays no part, and repeated options make the relation
    one-sided. *)
Theorem union_equality_on_primitive_options :
  forall null_ i n os j m os',
    forallb is_prim os = true ->
    forallb is_prim os' = true ->
    i <> j ->
    Ty.equals null_ (Union i n os) (Some (Union j m os'))
    = Val (Nat.eqb (List.length os') (List.length os)
           && forallb
                (fun o' =>
                   existsb (fun o => String.eqb (Ty.getName o) (Ty.getName o'))
                           os)
                os').
Proof.
  intros null_ i n os j m os' Hos Hos' Hij.
  unfold Ty.equals, Ty.equals_bound.
  assert (Hfuel : exists f, 2 * (Ty.size (Union i n os)
                    + Ty.size_val (Some (Union j m os'))) + 2 = S (S (S f))).
  { exists (2 * (list_sum (List.map Ty.size os)
                    + list_sum (List.map Ty.size os')) + 3).
    cbn [Ty.size Ty.size_val]. lia. }
  destruct Hfuel as [f ->].
  cbn [Ty.equals_upto Ty.dispatch_equals]. unfold Ty.Union_equals at 1.
  cbn [Ty.same]. replace (Nat.eqb i j) with false
    by (symmetry; apply Nat.eqb_neq; exact Hij).
  unfold Ty.includesAll. rewrite length_map.
  destruct (Nat.eqb (List.length os') (List.length os)); simpl;
    [|reflexivity].
  apply includes_each_prims; [|exact Hos'].
  intros o' Ho'. destruct o'; try discriminate.
  cbn [Ty.equals_upto Ty.dispatch_equals]. unfold Ty.Union_equals.
  cbn [Ty.same]. apply some_equals_prims; [|exact Hos].
  intros t Ht. destruct t; try discriminate. reflexivity.
Qed.

Lemma union_equality_on_primitive_options_witness :
  (forallb is_prim [Prim "number"; Prim "string"] = true
   /\ forallb is_prim [Prim "string"; Prim "number"] = true
   /\ 0 <> 1)
  /\ Ty.equals (Some (Prim "null"))
       (Union 0 "U" [Prim "number"; Prim "string"])
       (Some (Union 1 "V" [Prim "string"; Prim "number"]))
     = Val true.
Proof.
  split; [repeat split; discriminate|].
  exact (union_equality_on_primitive_options (Some (Prim "null"))
           0 "U" [Prim "number"; Prim "string"]
           1 "V" [Prim "string"; Prim "number"]
           eq_refl eq_refl (fun H : 0 = 1 => O_S 0 H)).
Defined.

Lemma nth_super_size k C A :
  nth_super k C = Some A -> k + Ty.size A <= Ty.size C.
Proof.
  revert C. induction k as [|k IH]; intros C H; simpl in H.
  - injection H as ->. lia.
  - destruct C as [| | |n [s|] e| |]; try discriminate.
    apply IH in H. simpl. lia.
Qed.

Lemma nth_super_class k C A :
  nth_super k C = Some A -> is_class A = true -> is_class C = true.
Proof.
  destruct k; simpl; intros H HA.
  - injection H as ->. exact HA.
  - destruct C as [| | |n [s|] e| |]; try discriminate. reflexivity.
Qed.

Lemma class_equals_ancestor_upto fuel k C A :
  nth_super k C = Some A -> is_class A = true -> k < fuel ->
  Ty.equals_upto fuel (Some (Prim "null")) C (Some A) = Val true.
Proof.
  revert k C. induction fuel as [|fuel IH]; intros k C H HA Hk; [lia|].
  destruct k as [|k]; simpl in H.
  - injection H as ->. destruct A; try discriminate.
    simpl. unfold Ty.Class_equals. simpl. rewrite Nat.eqb_refl. reflexivity.
  - destruct C as [| | |n [s|] e| |]; try discriminate.
    pose proof (nth_super_class _ _ _ H HA) as Hs.
    cbn [Ty.equals_upto Ty.dispatch_equals]. unfold Ty.Class_equals.
    destruct A as [| | |an asup ae| |]; try discriminate.
    destruct (Ty.same (Class n (Some s) e) (Class an asup ae));
      [reflexivity|].
    destruct s; try discriminate. cbn [Ty.loose_ne Ty.same negb].
    apply (IH k); [exact H | reflexivity | lia].
Qed.

(** X4.  A class equals each class on its chain of superclasses, so a
    value of a subclass passes where an ancestor is expected; a class
    without superclass equals no class but itself, so the converse
    fails. *)
Theorem class_equals_its_ancestors :
  forall k C A,
    nth_super k C = Some A -> is_class A = true ->
    Ty.equals (Some (Prim "null")) C (Some A) = Val true
    /\ (forall n e,
          Ty.same (Class n (Some (Prim "null")) e) C = false ->
          Ty.equals (Some (Prim "null"))
            (Class n (Some (Prim "null")) e) (Some C) = Val false).
Proof.
  intros k C A H HA. split.
  - apply (class_equals_ancestor_upto _ k); [exact H | exact HA|].
    apply nth_super_size in H. unfold Ty.equals_bound. simpl. lia.
  - intros n e Hne. pose proof (nth_super_class _ _ _ H HA) as HC.
    destruct C; try discriminate.
    unfold Ty.equals, Ty.equals_bound.
    replace (2 * _ + 2) with (S (2 * (Ty.size (Class n (Some (Prim "null")) e)
      + Ty.size_val (Some (Class name superClass env))) + 1)) by lia.
    cbn [Ty.equals_upto Ty.dispatch_equals]. unfold Ty.Class_equals.
    rewrite Hne. reflexivity.
Qed.

Lemma class_equals_its_ancestors_witness :
  (nth_super 1
     (Class "B" (Some (Class "A" (Some (Prim "null")) 1)) 2)
   = Some (Class "A" (Some (Prim "null")) 1)
   /\ is_class (Class "A" (Some (Prim "null")) 1) = true)
  /\ Ty.equals (Some (Prim "null"))
       (Class "B" (Some (Class "A" (Some (Prim "null")) 1)) 2)
       (Some (Class "A" (Some (Prim "null")) 1)) = Val true
  /\ Ty.equals (Some (Prim "null"))
       (Class "A" (Some (Prim "null")) 1)
       (Some (Class "B" (Some (Class "A" (Some (Prim "null")) 1)) 2))
     = Val false.
Proof.
  split; [split; reflexivity|].
  destruct (class_equals_its_ancestors 1
              (Class "B" (Some (Class "A" (Some (Prim "null")) 1)) 2)
              (Class "A" (Some (Prim "null")) 1) eq_refl eq_refl)
    as [H1 H2].
  split; [exact H1 | apply H2; reflexivity].
Defined.

(** ** The registry of declared types ([Type.fromString]) *)

Lemma leaf_descriptor_inv rec s st t st' :
  String.prefix "Fn<" s = false ->
  Reg.Type_fromString rec (Str s) st = Val (t, st') ->
  st' = st /\ Type_ st !! s = Some t.
Proof.
  intros Hp. unfold Reg.Type_fromString, bind, Reg.hasOwnProperty, Reg.get.
  cbn [Js.toString]. destruct (bool_decide _).
  - destruct (Type_ st !! s) as [t0|]; [|discriminate].
    unfold ret. intros [= <- <-]. auto.
  - rewrite Hp. discriminate.
Qed.

Lemma leaf_descriptors_inv rec pieces st ts st' :
  Forall (fun p => String.prefix "Fn<" p = false) pieces ->
  mapM (fun p => Reg.Type_fromString rec (Str p)) pieces st = Val (ts, st') ->
  st' = st /\ Forall (fun t => exists k, Type_ st !! k = Some t) ts.
Proof.
  intros Hall. revert ts st'.
  induction Hall as [|p pieces Hp _ IH]; intros ts st' H.
  - injection H as <- <-. auto.
  - simpl in H. apply bind_Val in H as (y & s1 & Hy & H).
    apply (leaf_descriptor_inv _ _ _ _ _ Hp) in Hy as [-> Hy].
    apply bind_Val in H as (ys & s2 & Hys & H).
    apply IH in Hys as [-> Hys]. injection H as <- <-.
    split; [reflexivity|]. constructor; [eauto | exact Hys].
Qed.

Lemma fromString_inv typeStr st t st' :
  Reg.fromString typeStr st = Val (t, st') ->
  (Type_ st !! Js.toString typeStr = Some t /\ st' = st)
  \/ (exists s ps r,
        typeStr = Str s /\ Type_ st !! s = None /\ t = Function s ps r
        /\ st' = mkState (<[s := t]> (Type_ st)) (heap st) (stamp st)
        /\ Forall (fun p => exists k, Type_ st !! k = Some p) ps
        /\ exists k, Type_ st !! k = Some r).
Proof.
  unfold Reg.fromString. cbn [Reg.fromString_upto].
  unfold Reg.Type_fromString at 1. unfold bind at 1, Reg.hasOwnProperty at 1.
  destruct (bool_decide (is_Some (Type_ st !! Js.toString typeStr))) eqn:Hk.
  { unfold bind, Reg.get.
    destruct (Type_ st !! Js.toString typeStr); [|discriminate].
    intros [= <- <-]. auto. }
  apply bool_decide_eq_false in Hk.
  assert (Hnone : Type_ st !! Js.toString typeStr = None).
  { destruct (Type_ st !! Js.toString typeStr) eqn:E; [|reflexivity].
    exfalso. apply Hk. eauto. }
  destruct typeStr as [| | |s|]; try discriminate.
  cbn [Js.toString] in Hnone.
  destruct (String.prefix "Fn<" s); [|discriminate].
  unfold Reg.Function_fromString. unfold bind at 1, Reg.hasOwnProperty at 1.
  cbn [Js.toString]. rewrite Hnone.
  rewrite bool_decide_eq_false_2 by (intros [? ?]; discriminate).
  intros H. right. exists s.
  destruct (Js.re_fn_params s) as [[ret_ ps]|] eqn:E.
  - apply re_fn_params_classes in E as [Hw Hp].
    apply bind_Val in H as (pts & s1 & Hpts & H).
    apply leaf_descriptors_inv in Hpts as [-> Hpts].
    2:{ eapply Forall_impl;
          [apply (split_comma_ws_all Js.is_param_char false EmptyString ps);
             [reflexivity | exact Hp]|].
        intros piece Hpiece. apply param_piece_is_no_function. exact Hpiece. }
    apply bind_Val in H as (r & s2 & Hr & H).
    apply leaf_descriptor_inv in Hr as [-> Hr];
      [|apply word_is_no_function, Hw].
    unfold bind, Reg.set, ret in H. injection H as <- <-.
    exists pts, r. repeat split; eauto.
  - destruct (Js.re_fn_ret s) as [ret_|] eqn:E'; [|discriminate].
    apply re_fn_ret_class in E'.
    apply bind_Val in H as (r & s2 & Hr & H).
    apply leaf_descriptor_inv in Hr as [-> Hr];
      [|apply word_is_no_function, E'].
    unfold bind, Reg.set, ret in H. injection H as <- <-.
    exists [], r. repeat split; eauto.
Qed.

Lemma fromString_known typeStr st t :
  Type_ st !! Js.toString typeStr = Some t ->
  Reg.fromString typeStr st = Val (t, st).
Proof.
  intros H. unfold Reg.fromString. cbn [Reg.fromString_upto].
  unfold Reg.Type_fromString, bind, Reg.hasOwnProperty, Reg.get.
  rewrite bool_decide_eq_true_2 by eauto. rewrite H. reflexivity.
Qed.

(** X5.  [Type.fromString] memoizes: once a descriptor has been resolved
    it is an entry of the registry, resolving it again returns the very
    same type and changes nothing, and the first resolution touched no
    other registry entry and no scope. *)
Theorem fromString_registers_and_memoizes :
  forall typeStr st t st',
    Reg.fromString typeStr st = Val (t, st') ->
    Type_ st' !! Js.toString typeStr = Some t
    /\ Reg.fromString typeStr st' = Val (t, st')
    /\ heap st' = heap st /\ stamp st' = stamp st
    /\ (forall k, k <> Js.toString typeStr ->
          Type_ st' !! k = Type_ st !! k).
Proof.
  intros typeStr st t st' H.
  assert (Hreg : Type_ st' !! Js.toString typeStr = Some t
                 /\ heap st' = heap st /\ stamp st' = stamp st
                 /\ (forall k, k <> Js.toString typeStr ->
                       Type_ st' !! k = Type_ st !! k)).
  { apply fromString_inv in H
      as [[Hk ->] | (s & ps & r & -> & Hnone & -> & -> & _)].
    - auto.
    - cbn [Js.toString Type_ heap stamp].
      rewrite lookup_insert_eq. repeat split; try reflexivity.
      intros k Hne. apply lookup_insert_ne. congruence. }
  destruct Hreg as (Hk & Hh & Hs & Hother).
  repeat split; try assumption.
  apply fromString_known. exact Hk.
Qed.

Lemma fromString_registers_and_memoizes_witness :
  Reg.fromString (Str "Fn<number<number,string>>") initial_state
  = Val (Function "Fn<number<number,string>>"
           [Prim "number"; Prim "string"] (Prim "number"),
         mkState (<["Fn<number<number,string>>" :=
                      Function "Fn<number<number,string>>"
                        [Prim "number"; Prim "string"] (Prim "number")]>
                    Reg.initial) [] 0)
  /\ Reg.fromString (Str "Fn<number<number,string>>")
       (mkState (<["Fn<number<number,string>>" :=
                      Function "Fn<number<number,string>>"
                        [Prim "number"; Prim "string"] (Prim "number")]>
                    Reg.initial) [] 0)
     = Val (Function "Fn<number<number,string>>"
              [Prim "number"; Prim "string"] (Prim "number"),
            mkState (<["Fn<number<number,string>>" :=
                         Function "Fn<number<number,string>>"
                           [Prim "number"; Prim "string"] (Prim "number")]>
                       Reg.initial) [] 0).
Proof.
  assert (H : Reg.fromString (Str "Fn<number<number,string>>") initial_state
    = Val (Function "Fn<number<number,string>>"
             [Prim "number"; Prim "string"] (Prim "number"),
           mkState (<["Fn<number<number,string>>" :=
                        Function "Fn<number<number,string>>"
                          [Prim "number"; Prim "string"] (Prim "number")]>
                      Reg.initial) [] 0)) by (vm_compute; reflexivity).
  split; [exact H|].
  exact (proj1 (proj2 (fromString_registers_and_memoizes _ _ _ _ H))).
Defined.

(** X6.  A function descriptor is resolved from declared names only: a
    descriptor that is not yet an entry yields a function type named by
    the descriptor as written, and each of its parameter types and its
    return type was an entry of the registry beforehand.  No nested
    function type is ever built from a descriptor. *)
Theorem function_descriptor_uses_declared_types :
  forall s st t st',
    Reg.fromString (Str s) st = Val (t, st') ->
    Type_ st !! s = None ->
    exists ps r,
      t = Function s ps r
      /\ Forall (fun p => exists k, Type_ st !! k = Some p) ps
      /\ (exists k, Type_ st !! k = Some r)
      /\ Type_ st' = <[s := t]> (Type_ st).
Proof.
  intros s st t st' H Hnone.
  apply fromString_inv in H
    as [[Hk _] | (s0 & ps & r & [= <-] & _ & -> & -> & Hps & Hr)].
  - cbn [Js.toString] in Hk. congruence.
  - exists ps, r. auto.
Qed.

Lemma function_descriptor_uses_declared_types_witness :
  (Reg.fromString (Str "Fn<string>") initial_state
   = Val (Function "Fn<string>" [] (Prim "string"),
          mkState (<["Fn<string>" := Function "Fn<string>" [] (Prim "string")]>
                     Reg.initial) [] 0)
   /\ Type_ initial_state !! "Fn<string>" = None)
  /\ exists ps r,
       Function "Fn<string>" [] (Prim "string") = Function "Fn<string>" ps r
       /\ Forall (fun p => exists k, Type_ initial_state !! k = Some p) ps
       /\ (exists k, Type_ initial_state !! k = Some r)
       /\ Type_ (mkState (<["Fn<string>" :=
                              Function "Fn<string>" [] (Prim "string")]>
                            Reg.initial) [] 0)
          = <["Fn<string>" := Function "Fn<string>" [] (Prim "string")]>
              (Type_ initial_state).
Proof.
  assert (H : Reg.fromString (Str "Fn<string>") initial_state
    = Val (Function "Fn<string>" [] (Prim "string"),
           mkState (<["Fn<string>" := Function "Fn<string>" [] (Prim "string")]>
                      Reg.initial) [] 0)) by (vm_compute; reflexivity).
  assert (Hn : Type_ initial_state !! "Fn<string>" = None)
    by (vm_compute; reflexivity).
  split; [split; assumption|].
  exact (function_descriptor_uses_declared_types _ _ _ _ H Hn).
Defined.

(** ** Which scopes the checker writes ([tc]) *)

(** X7.  Checking an expression in a scope never removes a scope and
    never changes any other scope that existed before: apart from scopes
    it creates, [tc] writes the scope it is given and nothing else. *)
Theorem tc_writes_only_its_own_scope :
  forall fuel exp env st t st',
    EvaTC.tc fuel exp env st = Val (t, st') ->
    List.length (heap st) <= List.length (heap st')
    /\ forall e, e < List.length (heap st) -> e <> env ->
                 heap st' !! e = heap st !! e.
Proof.
  intros fuel exp env st t st' H.
  destruct (tc_frame fuel exp env _ _ _ H) as [L U].
  split; [exact L|]. intros e He Hne. apply U; [exact He | congruence].
Qed.

Lemma tc_writes_only_its_own_scope_witness :
  EvaTC.tc 3 (Arr [Str "begin"; Arr [Str "var"; Str "x"; Num 1]]) 1
    (mkState Reg.initial [mkEnv ∅ None; mkEnv ∅ (Some 0)] 0)
  = Val (Some (Prim "number"),
         mkState Reg.initial
           [mkEnv ∅ None; mkEnv ∅ (Some 0);
            mkEnv {["x" := Some (Prim "number")]} (Some 1)] 0)
  /\ 2 <= 3.
Proof.
  assert (H : EvaTC.tc 3 (Arr [Str "begin"; Arr [Str "var"; Str "x"; Num 1]]) 1
    (mkState Reg.initial [mkEnv ∅ None; mkEnv ∅ (Some 0)] 0)
  = Val (Some (Prim "number"),
         mkState Reg.initial
           [mkEnv ∅ None; mkEnv ∅ (Some 0);
            mkEnv {["x" := Some (Prim "number")]} (Some 1)] 0))
    by (vm_compute; reflexivity).
  split; [exact H|].
  exact (proj1 (tc_writes_only_its_own_scope _ _ _ _ _ _ H)).
Defined.

Lemma head_is_keyword exp kw :
  Js.is_str (Js.index exp 0) kw = true -> 2 <= String.length kw ->
  exists l, exp = Arr (Str kw :: l).
Proof.
  intros H Hkw. destruct exp as [| | |s|l].
  - discriminate.
  - discriminate.
  - discriminate.
  - rewrite atom_tag in H by (auto; lia). discriminate.
  - destruct l as [|h l]; [discriminate|]. cbn [Js.index nth] in H.
    destruct h; try discriminate. simpl in H.
    apply String.eqb_eq in H. subst. eauto.
Qed.



(** ** Names and tokens ([tc], [_isVariableName], [_isBinary]) *)

Lemma tc_step_name tc s env st :
  reads_as_name s = true ->
  EvaTC.tc_step tc (Str s) env st = Env.lookup env (Str s) st.
Proof.
  unfold reads_as_name. intros H.
  repeat match goal with
    | H : _ && _ = true |- _ => apply andb_prop in H; destruct H
    | H : negb _ = true |- _ => apply negb_true_iff in H
    end.
  unfold EvaTC.tc_step, EvaTC._isBinary, bind, ret.
  cbn [EvaTC._isNumber].
  repeat match goal with
    | H : _ = false |- _ => rewrite H; clear H
    end.
  rewrite !atom_tag by (auto; simpl; lia).
  match goal with H : _ = true |- _ => rewrite H end.
  reflexivity.
Qed.

(** X9.  A variable declared by [(var x e)] reads back, in the same
    scope, with the type inferred for [e]: the declaration returns that
    type and a later occurrence of [x] checks to it. *)
Theorem declared_variable_reads_back :
  forall fuel fuel' x val env st t st',
    reads_as_name x = true ->
    EvaTC.tc (S fuel) (Arr [Str "var"; Str x; val]) env st = Val (t, st') ->
    EvaTC.tc (S fuel') (Str x) env st' = Val (t, st')
    /\ exists st1, EvaTC.tc fuel val env st = Val (t, st1).
Proof.
  intros fuel fuel' x val env st t st' Hx H.
  change (EvaTC.tc (S fuel) ?e env st)
    with (EvaTC.tc_var (EvaTC.tc fuel) e env st) in H.
  unfold EvaTC.tc_var in H. cbn [Js.index nth EvaTC.isArray] in H.
  apply bind_Val in H as (vt & s1 & Hval & Hdef).
  unfold Env.define in Hdef.
  destruct (heap s1 !! env) as [sc|] eqn:Hsc; [|discriminate].
  injection Hdef as <- <-.
  split; [|eauto].
  cbn [EvaTC.tc]. rewrite tc_step_name by exact Hx.
  apply (lookup_after_define env (Str x) vt sc s1 Hsc).
Qed.

Lemma declared_variable_reads_back_witness :
  (reads_as_name "x" = true
   /\ EvaTC.tc 2 (Arr [Str "var"; Str "x"; Num 1]) 0
        (mkState Reg.initial [mkEnv ∅ None] 0)
      = Val (Some (Prim "number"),
             mkState Reg.initial
               [mkEnv {["x" := Some (Prim "number")]} None] 0))
  /\ EvaTC.tc 1 (Str "x") 0
       (mkState Reg.initial [mkEnv {["x" := Some (Prim "number")]} None] 0)
     = Val (Some (Prim "number"),
            mkState Reg.initial
              [mkEnv {["x" := Some (Prim "number")]} None] 0).
Proof.
  assert (H : EvaTC.tc 2 (Arr [Str "var"; Str "x"; Num 1]) 0
        (mkState Reg.initial [mkEnv ∅ None] 0)
      = Val (Some (Prim "number"),
             mkState Reg.initial
               [mkEnv {["x" := Some (Prim "number")]} None] 0))
    by (vm_compute; reflexivity).
  split; [split; [reflexivity | exact H]|].
  exact (proj1 (declared_variable_reads_back 1 0 "x" (Num 1) 0 _ _ _
                  eq_refl H)).
Defined.

(** X10.  A token that begins with one of [+ - * / < >] is never looked
    up as a variable, although [_isVariableName] accepts such names: the
    operator tests come first and read the first character of the token.
    Unless the token is exactly three characters long, checking it fails
    with the arity error of the operator. *)
Theorem operator_led_token_is_not_a_name :
  forall fuel s env st,
    operator_led s = true -> String.length s <> 3 ->
    EvaTC.tc (S fuel) (Str s) env st = Exn ArityMismatch.
Proof.
  intros fuel s env st Hop Hlen. destruct s as [|c s]; [discriminate|].
  cbn [operator_led] in Hop.
  assert (Hstr : EvaTC._isString (Str (String c s)) = false).
  { unfold EvaTC._isString. cbn [Js.index String.get Js.is_str].
    destruct (Ascii.eqb_spec c dquote) as [->|Hne]; [discriminate|].
    replace (String.eqb (String c EmptyString) (String dquote EmptyString))
      with false; [reflexivity|].
    symmetry. apply String.eqb_neq. congruence. }
  assert (Hbool : EvaTC._isBoolean (Str (String c s)) = false).
  { unfold EvaTC._isBoolean, Js.is_str.
    destruct (String.eqb_spec (String c s) "true") as [[= -> _]|_];
      [discriminate|].
    destruct (String.eqb_spec (String c s) "false") as [[= -> _]|_];
      [discriminate|reflexivity]. }
  assert (Hlen' : EvaTC.has_length (Str (String c s)) 3 = false).
  { unfold EvaTC.has_length. cbn [Js.length].
    apply Nat.eqb_neq. exact Hlen. }
  cbn [EvaTC.tc]. unfold EvaTC.tc_step.
  cbn [EvaTC._isNumber]. rewrite Hstr, Hbool.
  unfold EvaTC._isBinary, bind at 1, ret.
  cbn [Js.index String.get Js.toString Js.re_arith].
  destruct (Js.is_arith_char c) eqn:Ha.
  - unfold EvaTC._binary, EvaTC._checkArity, bind. rewrite Hlen'. reflexivity.
  - cbn [orb] in Hop.
    assert (Hbb : EvaTC._isBooleanBinary (Str (String c s)) = true).
    { unfold EvaTC._isBooleanBinary. cbn [Js.index String.get Js.is_str].
      apply orb_prop in Hop as [Hc | Hc]; apply Ascii.eqb_eq in Hc; subst;
        reflexivity. }
    rewrite Hbb.
    unfold EvaTC._booleanBinary, EvaTC._checkArity, bind. rewrite Hlen'.
    reflexivity.
Qed.

Lemma operator_led_token_is_not_a_name_witness :
  (operator_led "-x" = true /\ String.length "-x" <> 3)
  /\ EvaTC._isVariableName (Str "-x") = true
  /\ EvaTC.tc 1 (Str "-x") 0 initial_state = Exn ArityMismatch.
Proof.
  split; [split; [reflexivity | discriminate]|].
  split; [reflexivity|].
  exact (operator_led_token_is_not_a_name 0 "-x" 0 initial_state eq_refl
           (fun H : String.length "-x" = 3 =>
              eq_ind 2 (fun n => match n with 2 => True | _ => False end)
                     I 3 H)).
Defined.

Lemma span_app p s a b : Js.span p s = (a, b) -> s = a ++ b.
Proof.
  revert a b. induction s as [|c s IH]; simpl; intros a b H.
  - injection H as <- <-. reflexivity.
  - destruct (p c).
    + destruct (Js.span p s) as [a' b']. injection H as <- <-.
      rewrite (IH a' b' eq_refl). reflexivity.
    + injection H as <- <-. reflexivity.
Qed.

Lemma re_angle_shape g inner :
  Js.re_angle g = Some inner ->
  g = String "<" (inner ++ ">") /\ Js.slice_1_m1 g = inner.
Proof.
  unfold Js.re_angle. destruct g as [|c r]; [discriminate|].
  destruct (Ascii.eqb_spec c "<") as [->|]; [|discriminate].
  destruct (Js.span Js.not_gt r) as [i rest] eqn:E.
  destruct (Js.nonempty i && String.eqb rest ">") eqn:Hc; [|discriminate].
  intros [= ->]. apply andb_prop in Hc as [_ Hr].
  apply String.eqb_eq in Hr. subst rest. apply span_app in E. subst r.
  split; [reflexivity|].
  unfold Js.slice_1_m1. cbn [String.length substring].
  rewrite length_append. cbn [String.length].
  replace (S (String.length inner + 1) - 2) with (String.length inner) by lia.
  apply substring_prefix.
Qed.

(** X11.  A generic function declaration is not checked when it is
    declared: [(def name <K,...> params -> ret body)] succeeds for every
    parameter list, return type and body, and binds [name] in the current
    scope to a closure that records them unevaluated, together with the
    scope of the declaration. *)
Theorem generic_def_is_deferred :
  forall fuel name g inner params arrow ret_ body env st sc,
    Js.re_angle g = Some inner ->
    heap st !! env = Some sc ->
    let closure :=
      GenericFunction ("lambda <" ++ inner ++ ">") (Js.split_comma inner)
        params ret_ body env in
    EvaTC.tc (S (S (S fuel)))
      (Arr [Str "def"; Str name; Str g; params; arrow; ret_; body]) env st
    = Val (Some closure,
           mkState (Type_ st)
             (<[env := mkEnv (<[name := Some closure]> (record sc))
                             (parent sc)]> (heap st))
             (stamp st)).
Proof.
  intros fuel name g inner params arrow ret_ body env st sc Hg Hsc closure.
  pose proof (re_angle_shape _ _ Hg) as [_ Hslice].
  assert (Hgen : EvaTC.matches_angle (Str g) = true).
  { unfold EvaTC.matches_angle. cbn [Js.toString]. rewrite Hg.
    reflexivity. }
  change (EvaTC.tc (S (S (S fuel))) ?e env st)
    with (EvaTC.tc_def (EvaTC.tc (S (S fuel))) e env st).
  unfold EvaTC.tc_def, EvaTC._transformDefToVarLambda,
    EvaTC._isGenericDefFunction.
  cbn [EvaTC.has_length Js.length List.length Nat.eqb Js.index nth andb].
  rewrite Hgen. cbn [negb]. unfold bind at 1, ret at 1.
  change (EvaTC.tc (S (S fuel)) ?e env st)
    with (EvaTC.tc_var (EvaTC.tc (S fuel)) e env st).
  unfold EvaTC.tc_var. cbn [Js.index nth EvaTC.isArray].
  change (EvaTC.tc (S fuel) ?e env)
    with (EvaTC.tc_lambda (EvaTC.tc fuel) e env).
  unfold EvaTC.tc_lambda, EvaTC._isGenericLambdaFunction.
  cbn [EvaTC.has_length Js.length List.length Nat.eqb Js.index nth andb].
  rewrite Hgen.
  unfold EvaTC._createGenericFunctionType, EvaTC.slice_1_m1.
  cbn [Js.index nth]. unfold bind, ret. rewrite Hslice.
  apply (define_spec env (Str name) (Some closure) sc st Hsc).
Qed.

Lemma generic_def_is_deferred_witness :
  (Js.re_angle "<K>" = Some "K"
   /\ heap (mkState Reg.initial [mkEnv ∅ None] 0) !! 0
      = Some (mkEnv ∅ None))
  /\ EvaTC.tc 3
       (Arr [Str "def"; Str "f"; Str "<K>"; Arr [Arr [Str "x"; Str "K"]];
             Str "->"; Str "K"; Arr [Str "undeclared"; Str "x"]])
       0 (mkState Reg.initial [mkEnv ∅ None] 0)
     = Val (Some (GenericFunction "lambda <K>" ["K"]
                    (Arr [Arr [Str "x"; Str "K"]]) (Str "K")
                    (Arr [Str "undeclared"; Str "x"]) 0),
            mkState Reg.initial
              [mkEnv (<["f" := Some (GenericFunction "lambda <K>" ["K"]
                                (Arr [Arr [Str "x"; Str "K"]]) (Str "K")
                                (Arr [Str "undeclared"; Str "x"]) 0)]> ∅)
                     None] 0).
Proof.
  split; [split; reflexivity|].
  exact (generic_def_is_deferred 0 "f" "<K>" "K"
           (Arr [Arr [Str "x"; Str "K"]]) (Str "->") (Str "K")
           (Arr [Str "undeclared"; Str "x"]) 0
           (mkState Reg.initial [mkEnv ∅ None] 0) (mkEnv ∅ None)
           eq_refl eq_refl).
Defined.

(** ** Calls and operators ([_checkFunctionCall], [_binary]) *)

Lemma check_args_any ps argTypes st :
  Type_ st !! "any" = Some (Prim "any") ->
  Forall (eq (Prim "any")) ps ->
  List.length ps = List.length argTypes ->
  EvaTC.check_args ps argTypes st = Val (tt, st).
Proof.
  intros Hany Hps. revert argTypes.
  induction Hps as [|p ps <- _ IH]; intros [|a argTypes] Hlen;
    try discriminate; [reflexivity|].
  cbn [EvaTC.check_args hd_error tl]. unfold bind at 1, Reg.static.
  rewrite Hany. cbn [Ty.same]. unfold bind at 1, ret at 1.
  cbn [String.eqb Ascii.eqb Bool.eqb]. apply IH.
  simpl in Hlen. lia.
Qed.

(** X12.  A parameter of type [any] is not compared with its argument:
    a function all of whose parameters are [any] accepts every list of
    arguments of the right length, whatever their types, and the call has
    the declared return type. *)
Theorem any_parameters_accept_every_argument :
  forall n ps r argTypes st,
    Type_ st !! "any" = Some (Prim "any") ->
    Forall (eq (Prim "any")) ps ->
    List.length ps = List.length argTypes ->
    EvaTC._checkFunctionCall (Some (Function n ps r)) argTypes st
    = Val (Some r, st).
Proof.
  intros n ps r argTypes st Hany Hps Hlen. unfold EvaTC._checkFunctionCall.
  rewrite Hlen, Nat.eqb_refl. cbn [negb]. unfold bind.
  rewrite check_args_any by assumption. reflexivity.
Qed.

Lemma any_parameters_accept_every_argument_witness :
  (Type_ initial_state !! "any" = Some (Prim "any")
   /\ Forall (eq (Prim "any")) [Prim "any"; Prim "any"]
   /\ List.length [Prim "any"; Prim "any"]
      = List.length [None; Some (Prim "boolean")])
  /\ EvaTC._checkFunctionCall
       (Some (Function "f" [Prim "any"; Prim "any"] (Prim "string")))
       [None; Some (Prim "boolean")] initial_state
     = Val (Some (Prim "string"), initial_state).
Proof.
  assert (Hany : Type_ initial_state !! "any" = Some (Prim "any"))
    by (vm_compute; reflexivity).
  assert (Hps : Forall (eq (Prim "any")) [Prim "any"; Prim "any"])
    by (repeat constructor).
  split; [repeat split; assumption|].
  exact (any_parameters_accept_every_argument "f" _ (Prim "string")
           [None; Some (Prim "boolean")] initial_state Hany Hps eq_refl).
Defined.

Lemma mapM_length {A B} (f : A -> M B) l st ys st' :
  mapM f l st = Val (ys, st') -> List.length ys = List.length l.
Proof.
  revert st ys. induction l as [|x l IH]; intros st ys H; simpl in H.
  - injection H as <- <-. reflexivity.
  - apply bind_Val in H as (y & s1 & _ & H).
    apply bind_Val in H as (ys' & s2 & Hys & H). injection H as <- <-.
    simpl. f_equal. eapply IH. exact Hys.
Qed.

(** X13.  A call that passes the wrong number of arguments to a function
    does not end with the arity message of [_checkFunctionCall]: building
    that message reads the undeclared variable [epx], so the call stops
    with a ReferenceError. *)
Theorem wrong_argument_count_is_a_reference_error :
  forall fuel exp env st n ps r st1 argTypes st2,
    is_call_form exp = true ->
    EvaTC.tc fuel (Js.index exp 0) env st
    = Val (Some (Function n ps r), st1) ->
    mapM (fun arg => EvaTC.tc fuel arg env) (operands exp) st1
    = Val (argTypes, st2) ->
    List.length ps <> List.length (operands exp) ->
    EvaTC.tc (S fuel) exp env st = Exn JsReferenceError.
Proof.
  intros fuel exp env st n ps r st1 argTypes st2 Hcall Hfn Hargs Hlen.
  cbn [EvaTC.tc]. rewrite tc_step_call by exact Hcall.
  unfold EvaTC.tc_call. rewrite (bind_of_Val _ _ _ _ _ Hfn).
  unfold bind at 1, ret at 1.
  change (match exp with Arr l => tl l | _ => [] end) with (operands exp).
  rewrite (bind_of_Val _ _ _ _ _ Hargs).
  unfold EvaTC._checkFunctionCall.
  rewrite (mapM_length _ _ _ _ _ Hargs).
  replace (Nat.eqb (List.length ps) (List.length (operands exp))) with false
    by (symmetry; apply Nat.eqb_neq; exact Hlen).
  reflexivity.
Qed.

Lemma wrong_argument_count_is_a_reference_error_witness :
  value (EvaTC.run 3 (Arr [Str "square"; Num 1; Num 2]))
  = Exn JsReferenceError.
Proof.
  assert (Hg : EvaTC._createGlobal initial_state
               = Val (0, Sample.fresh)) by (vm_compute; reflexivity).
  unfold EvaTC.run, bind. rewrite Hg.
  change (EvaTC.tcGlobal 3 ?e 0 Sample.fresh)
    with (EvaTC.tc 3 e 0 Sample.fresh).
  rewrite (wrong_argument_count_is_a_reference_error 2
             (Arr [Str "square"; Num 1; Num 2]) 0 Sample.fresh
             "Fn<number<number>>" [Prim "number"] (Prim "number")
             Sample.fresh
             [Some (Prim "number"); Some (Prim "number")]
             Sample.fresh).
  - reflexivity.
  - reflexivity.
  - vm_compute. reflexivity.
  - vm_compute. reflexivity.
  - simpl. discriminate.
Defined.

Lemma tc_step_binary tc op e1 e2 env st :
  Js.re_arith op = true ->
  EvaTC.tc_step tc (Arr [Str op; e1; e2]) env st
  = EvaTC._binary tc (Arr [Str op; e1; e2]) env st.
Proof.
  intros H. unfold EvaTC.tc_step, EvaTC._isBinary, bind at 1, ret at 1.
  cbn [EvaTC._isNumber EvaTC._isString EvaTC._isBoolean Js.is_str orb
       Js.index nth Js.toString].
  rewrite H. reflexivity.
Qed.

Lemma re_arith_cases op :
  Js.re_arith op = true -> op = "+" \/ op = "-" \/ op = "*" \/ op = "/".
Proof.
  destruct op as [|c [|c' op]]; try discriminate. cbn [Js.re_arith].
  unfold Js.is_arith_char. intros H.
  repeat (apply orb_prop in H as [H | H]); apply Ascii.eqb_eq in H; subst;
    auto.
Qed.

Lemma prim_equals null_ a b :
  Ty.equals null_ (Prim a) (Some (Prim b)) = Val (String.eqb a b).
Proof. reflexivity. Qed.

Lemma prim_equals_st st x y :
  EvaTC.equals (Some (Prim x)) (Some (Prim y)) st = Val (String.eqb x y, st).
Proof. unfold EvaTC.equals, lift. rewrite prim_equals. reflexivity. Qed.

Lemma some_allowed_names names a st :
  EvaTC.some_allowed (List.map (fun k => Some (Prim k)) names)
    (Some (Prim a)) st
  = Val (existsb (fun k => String.eqb k a) names, st).
Proof.
  induction names as [|k names IH]; [reflexivity|].
  cbn [List.map EvaTC.some_allowed existsb]. unfold bind.
  rewrite prim_equals_st. destruct (String.eqb k a); [reflexivity|].
  exact IH.
Qed.

Lemma operand_types_of op st :
  Js.re_arith op = true ->
  Type_ st !! "number" = Some (Prim "number") ->
  Type_ st !! "string" = Some (Prim "string") ->
  EvaTC._getOperandTypesForOperator (Str op) st
  = Val (List.map (fun k => Some (Prim k))
           (if String.eqb op "+" then ["string"; "number"] else ["number"]),
         st).
Proof.
  intros Hop Hn Hs.
  apply re_arith_cases in Hop as [-> | [-> | [-> | ->]]];
    unfold EvaTC._getOperandTypesForOperator, Reg.static, bind, ret;
    cbn [Js.is_str String.eqb Ascii.eqb Bool.eqb orb andb];
    rewrite ?Hs, ?Hn; reflexivity.
Qed.

(** X14.  The typing rule of the arithmetic operators on operands of
    primitive type: [+] takes strings and numbers, [-], [*] and [/] take
    numbers only, an operand outside these is an operator mismatch; both
    operands must then have the same type, which is the type of the
    result. *)
Theorem arithmetic_on_primitive_operands :
  forall fuel op e1 e2 env st a st1 b st2,
    Js.re_arith op = true ->
    EvaTC.tc fuel e1 env st = Val (Some (Prim a), st1) ->
    EvaTC.tc fuel e2 env st1 = Val (Some (Prim b), st2) ->
    Type_ st2 !! "number" = Some (Prim "number") ->
    Type_ st2 !! "string" = Some (Prim "string") ->
    let allowed := if String.eqb op "+" then ["string"; "number"]
                   else ["number"] in
    let accepts n := existsb (fun k => String.eqb k n) allowed in
    EvaTC.tc (S fuel) (Arr [Str op; e1; e2]) env st
    = if accepts a && accepts b
      then if String.eqb b a then Val (Some (Prim b), st2)
           else Exn TypeMismatch
      else Exn OperatorOperandMismatch.
Proof.
  intros fuel op e1 e2 env st a st1 b st2 Hop H1 H2 Hn Hs allowed accepts.
  cbn [EvaTC.tc]. rewrite tc_step_binary by exact Hop.
  unfold EvaTC._binary, EvaTC._checkArity.
  cbn [EvaTC.has_length Js.length List.length Nat.eqb Js.index nth].
  unfold bind at 1, ret at 1.
  rewrite (bind_of_Val _ _ _ _ _ H1), (bind_of_Val _ _ _ _ _ H2).
  rewrite (bind_of_Val _ _ _ _ _ (operand_types_of op st2 Hop Hn Hs)).
  fold allowed. unfold EvaTC._expectOperatorType, bind.
  rewrite some_allowed_names. fold (accepts a).
  destruct (accepts a); [|reflexivity]. unfold ret at 1.
  rewrite some_allowed_names. fold (accepts b).
  destruct (accepts b); [|reflexivity]. unfold ret at 1. cbn [andb].
  unfold EvaTC._expect, bind. rewrite prim_equals_st.
  destruct (String.eqb b a); reflexivity.
Qed.

Lemma arithmetic_on_primitive_operands_witness :
  EvaTC.tc 2 (Arr [Str "+"; Str (quoted "a"); Str (quoted "b")]) 0
    Sample.fresh
  = Val (Some (Prim "string"), Sample.fresh)
  /\ EvaTC.tc 2 (Arr [Str "-"; Str (quoted "a"); Str (quoted "b")]) 0
       Sample.fresh
     = Exn OperatorOperandMismatch
  /\ EvaTC.tc 2 (Arr [Str "+"; Num 1; Str (quoted "b")]) 0 Sample.fresh
     = Exn TypeMismatch.
Proof.
  assert (Hn : Type_ Sample.fresh !! "number" = Some (Prim "number"))
    by (vm_compute; reflexivity).
  assert (Hs : Type_ Sample.fresh !! "string" = Some (Prim "string"))
    by (vm_compute; reflexivity).
  assert (Ha : EvaTC.tc 1 (Str (quoted "a")) 0 Sample.fresh
               = Val (Some (Prim "string"), Sample.fresh))
    by (vm_compute; reflexivity).
  assert (Hb : EvaTC.tc 1 (Str (quoted "b")) 0 Sample.fresh
               = Val (Some (Prim "string"), Sample.fresh))
    by (vm_compute; reflexivity).
  assert (H1 : EvaTC.tc 1 (Num 1) 0 Sample.fresh
               = Val (Some (Prim "number"), Sample.fresh))
    by (vm_compute; reflexivity).
  split; [|split].
  - exact (arithmetic_on_primitive_operands 1 "+" _ _ 0 _ _ _ _ _
             eq_refl Ha Hb Hn Hs).
  - exact (arithmetic_on_primitive_operands 1 "-" _ _ 0 _ _ _ _ _
             eq_refl Ha Hb Hn Hs).
  - exact (arithmetic_on_primitive_operands 1 "+" _ _ 0 _ _ _ _ _
             eq_refl H1 Hb Hn Hs).
Defined.

(** ** Declarations of types and classes ([tc], [Type.Class]) *)


Lemma resolve_app fuel h t env name v :
  Env.resolve fuel h env name = Val v ->
  Env.resolve fuel (h ++ t)%list env name = Val v.
Proof.
  revert env. induction fuel as [|fuel IH]; intros env H; [discriminate|].
  cbn [Env.resolve] in *.
  destruct (h !! env) as [sc|] eqn:E; [|discriminate].
  rewrite (lookup_app_l_Some _ _ _ _ E).
  destruct (record sc !! name); [exact H|].
  destruct (parent sc); [apply IH; exact H | discriminate].
Qed.

(** X16.  A class built below a superclass sees the fields of the
    superclass: the scope of the new class is empty and has the scope of
    the superclass as parent, so [getField] on the subclass finds every
    name that the scope of the superclass resolves. *)
Theorem subclass_inherits_fields :
  forall n sn ss se st C cenv st' name v,
    Type_ st !! "null" = Some (Prim "null") ->
    EvaTC.new_Class n (Some (Class sn ss se)) st = Val ((C, cenv), st') ->
    Env.lookup se name st = Val (v, st) ->
    C = Class n (Some (Class sn ss se)) cenv
    /\ heap st' !! cenv = Some (mkEnv ∅ (Some se))
    /\ EvaTC.getField (Some C) name st' = Val (v, st').
Proof.
  intros n sn ss se st C cenv st' name v Hnull Hnew Hv.
  unfold EvaTC.new_Class, bind, Reg.static, ret in Hnew.
  rewrite Hnull in Hnew. cbn [Ty.loose_ne Ty.same negb] in Hnew.
  unfold Env.new in Hnew. injection Hnew as <- <- <-.
  split; [reflexivity|]. split.
  - cbn [heap]. rewrite lookup_app_r by lia. rewrite Nat.sub_diag.
    reflexivity.
  - cbn [EvaTC.getField]. unfold Env.lookup, lift in *. cbn [heap].
    rewrite length_app. cbn [List.length].
    replace (List.length (heap st) + 1) with (S (List.length (heap st)))
      by lia.
    destruct (Env.resolve (S (List.length (heap st))) (heap st) se
                (Js.toString name)) as [v0| |] eqn:E; try discriminate.
    injection Hv as ->.
    apply (resolve_app _ _ [mkEnv ∅ (Some se)]) in E.
    remember (S (List.length (heap st))) as f eqn:Hf.
    cbn [Env.resolve]. rewrite lookup_app_r by lia. rewrite Nat.sub_diag.
    cbn [lookup list_lookup record parent]. rewrite lookup_empty.
    rewrite E. reflexivity.
Qed.

Lemma subclass_inherits_fields_witness :
  (Type_ (mkState Reg.initial
            [mkEnv ∅ None; mkEnv {["x" := Some (Prim "number")]} None] 0)
     !! "null" = Some (Prim "null")
   /\ EvaTC.new_Class "B" (Some (Class "A" (Some (Prim "null")) 1))
        (mkState Reg.initial
           [mkEnv ∅ None; mkEnv {["x" := Some (Prim "number")]} None] 0)
      = Val ((Class "B" (Some (Class "A" (Some (Prim "null")) 1)) 2, 2),
             mkState Reg.initial
               [mkEnv ∅ None; mkEnv {["x" := Some (Prim "number")]} None;
                mkEnv ∅ (Some 1)] 0))
  /\ EvaTC.getField
       (Some (Class "B" (Some (Class "A" (Some (Prim "null")) 1)) 2))
       (Str "x")
       (mkState Reg.initial
          [mkEnv ∅ None; mkEnv {["x" := Some (Prim "number")]} None;
           mkEnv ∅ (Some 1)] 0)
     = Val (Some (Prim "number"),
            mkState Reg.initial
              [mkEnv ∅ None; mkEnv {["x" := Some (Prim "number")]} None;
               mkEnv ∅ (Some 1)] 0).
Proof.
  assert (Hnull : Type_ (mkState Reg.initial
            [mkEnv ∅ None; mkEnv {["x" := Some (Prim "number")]} None] 0)
     !! "null" = Some (Prim "null")) by (vm_compute; reflexivity).
  assert (Hnew : EvaTC.new_Class "B" (Some (Class "A" (Some (Prim "null")) 1))
        (mkState Reg.initial
           [mkEnv ∅ None; mkEnv {["x" := Some (Prim "number")]} None] 0)
      = Val ((Class "B" (Some (Class "A" (Some (Prim "null")) 1)) 2, 2),
             mkState Reg.initial
               [mkEnv ∅ None; mkEnv {["x" := Some (Prim "number")]} None;
                mkEnv ∅ (Some 1)] 0)) by (vm_compute; reflexivity).
  assert (Hv : Env.lookup 1 (Str "x")
        (mkState Reg.initial
           [mkEnv ∅ None; mkEnv {["x" := Some (Prim "number")]} None] 0)
      = Val (Some (Prim "number"),
             mkState Reg.initial
               [mkEnv ∅ None; mkEnv {["x" := Some (Prim "number")]} None] 0))
    by (vm_compute; reflexivity).
  split; [split; assumption|].
  exact (proj2 (proj2 (subclass_inherits_fields _ _ _ _ _ _ _ _ _ _
                         Hnull Hnew Hv))).
Defined.

(** ** What the checker never undoes *)

Section Invariant.
Variable R : state -> state -> Prop.
Hypothesis R_refl : forall s, R s s.
Hypothesis R_trans : forall a b c, R a b -> R b c -> R a c.
Hypothesis R_set :
  forall key t s, R s (mkState (<[key := t]> (Type_ s)) (heap s) (stamp s)).
Hypothesis R_stamp :
  forall s, R s (mkState (Type_ s) (heap s) (S (stamp s))).
Hypothesis R_new :
  forall rec par s,
    R s (mkState (Type_ s) (heap s ++ [mkEnv rec par]) (stamp s)).
Hypothesis R_define :
  forall env name v sc s,
    heap s !! env = Some sc ->
    R s (mkState (Type_ s)
           (<[env := mkEnv (<[name := v]> (record sc)) (parent sc)]> (heap s))
           (stamp s)).

Lemma Respects_ret {A} (a : A) : Respects R (ret a).
Proof. intros s a' s' [= <- <-]. apply R_refl. Qed.

Lemma Respects_throw {A} e : Respects R (@throw A e).
Proof. intros s a s' H. discriminate. Qed.

Lemma Respects_timeout {A} : Respects R (@timeout A).
Proof. intros s a s' H. discriminate. Qed.

Lemma Respects_lift {A} (r : result A) : Respects R (lift r).
Proof.
  intros s a s' H. unfold lift in H.
  destruct r; inversion H; subst. apply R_refl.
Qed.

Lemma Respects_bind {A B} (m : M A) (k : A -> M B) :
  Respects R m -> (forall a, Respects R (k a)) -> Respects R (bind m k).
Proof.
  intros Hm Hk s b s' H. apply bind_Val in H as (a & s1 & E & H).
  eapply R_trans; [eapply Hm | eapply Hk]; eauto.
Qed.

Ltac respects_prim :=
  let H := fresh "H" in
  intros ? ? ? H;
  repeat match type of H with
    | context [match ?x with _ => _ end] =>
        destruct x eqn:?; try discriminate
    end;
  inversion H; subst; eauto.

Lemma Respects_get key : Respects R (Reg.get key).
Proof. unfold Reg.get. respects_prim. Qed.
Lemma Respects_static key : Respects R (Reg.static key).
Proof. unfold Reg.static. respects_prim. Qed.
Lemma Respects_hasOwnProperty key : Respects R (Reg.hasOwnProperty key).
Proof. unfold Reg.hasOwnProperty. respects_prim. Qed.
Lemma Respects_set key t : Respects R (Reg.set key t).
Proof. unfold Reg.set. respects_prim. Qed.
Lemma Respects_fresh_stamp : Respects R Reg.fresh_stamp.
Proof. unfold Reg.fresh_stamp. respects_prim. Qed.
Lemma Respects_new rec par : Respects R (Env.new rec par).
Proof. unfold Env.new. respects_prim. Qed.
Lemma Respects_define env name v : Respects R (Env.define env name v).
Proof. unfold Env.define. respects_prim. Qed.
Lemma Respects_lookup env name : Respects R (Env.lookup env name).
Proof. unfold Env.lookup, lift. respects_prim. Qed.
Lemma Respects_equals a b : Respects R (EvaTC.equals a b).
Proof. unfold EvaTC.equals, lift. respects_prim. Qed.
Lemma Respects_includesAll u os ts : Respects R (EvaTC.includesAll u os ts).
Proof. unfold EvaTC.includesAll, lift. respects_prim. Qed.

Create HintDb respects.
#[local] Hint Resolve Respects_get Respects_static Respects_hasOwnProperty
  Respects_set Respects_fresh_stamp Respects_new Respects_define
  Respects_lookup Respects_equals Respects_includesAll : respects.

Ltac respects_step :=
  match goal with
  | |- Respects _ (bind _ _) => apply Respects_bind; [|intros]
  | |- Respects _ (ret _) => apply Respects_ret
  | |- Respects _ (throw _) => apply Respects_throw
  | |- Respects _ timeout => apply Respects_timeout
  | |- Respects _ (lift _) => apply Respects_lift
  | |- Respects _ (if ?b then _ else _) => destruct b
  | |- Respects _ (match ?x with _ => _ end) => destruct x
  | |- Respects _ _ => solve [eauto with respects]
  end.
Ltac respects := repeat respects_step.

Lemma Respects_mapM {A B} (f : A -> M B) l :
  (forall x, Respects R (f x)) -> Respects R (mapM f l).
Proof. intros Hf. induction l; simpl; respects. Qed.

Lemma Respects_Type_fromString rec typeStr :
  (forall d, Respects R (rec d)) ->
  Respects R (Reg.Type_fromString rec typeStr).
Proof.
  intros Hr. unfold Reg.Type_fromString, Reg.Function_fromString.
  respects; apply Respects_mapM; intros; apply Hr.
Qed.

Lemma Respects_fromString typeStr : Respects R (Reg.fromString typeStr).
Proof.
  unfold Reg.fromString. generalize 2. intros fuel. revert typeStr.
  induction fuel; intros; simpl.
  - apply Respects_timeout.
  - apply Respects_Type_fromString. auto.
Qed.
#[local] Hint Resolve Respects_fromString : respects.

Lemma Respects_some_allowed l t : Respects R (EvaTC.some_allowed l t).
Proof. induction l; simpl; respects. Qed.
Lemma Respects_check_args ps l : Respects R (EvaTC.check_args ps l).
Proof.
  revert ps. induction l; intros; simpl; unfold EvaTC._expect; respects.
Qed.
Lemma Respects_bind_params l r ts : Respects R (EvaTC.bind_params l r ts).
Proof.
  revert r ts. induction l; intros; simpl; unfold EvaTC.destruct2; respects.
Qed.
#[local] Hint Resolve Respects_some_allowed Respects_check_args
  Respects_bind_params : respects.

Variable tc : sexp -> nat -> M jsval.
Hypothesis tc_respects : forall exp env, Respects R (tc exp env).
#[local] Hint Resolve tc_respects : respects.

Lemma Respects_tcBlock block env : Respects R (EvaTC._tcBlock tc block env).
Proof.
  unfold EvaTC._tcBlock. destruct (Js.iter block); respects.
  generalize (@ret jsval None), (Respects_ret (@None ty)).
  induction (tl l); simpl; intros acc Hacc; auto.
  apply IHl0. respects.
Qed.
#[local] Hint Resolve Respects_tcBlock : respects.

Lemma Respects_tcBody body env : Respects R (EvaTC._tcBody tc body env).
Proof. unfold EvaTC._tcBody. respects. Qed.
#[local] Hint Resolve Respects_tcBody : respects.

Lemma Respects_tcFunction ps r b env :
  Respects R (EvaTC._tcFunction tc ps r b env).
Proof. unfold EvaTC._tcFunction. respects. Qed.
#[local] Hint Resolve Respects_tcFunction : respects.

Lemma Respects_tc_step exp env : Respects R (EvaTC.tc_step tc exp env).
Proof.
  unfold EvaTC.tc_step, EvaTC._isBinary, EvaTC._binary, EvaTC._booleanBinary,
    EvaTC.tc_type, EvaTC.tc_class, EvaTC.tc_new, EvaTC.tc_super,
    EvaTC.tc_prop, EvaTC.tc_var, EvaTC.tc_set, EvaTC.tc_begin, EvaTC.tc_if,
    EvaTC.tc_while, EvaTC.tc_def, EvaTC.tc_lambda, EvaTC.tc_call,
    EvaTC._createSimpleFunctionType, EvaTC._createGenericFunctionType,
    EvaTC._checkFunctionCall, EvaTC._expect, EvaTC._expectOperatorType,
    EvaTC._getOperandTypesForOperator, EvaTC._checkArity, EvaTC.new_Class,
    EvaTC.getField, EvaTC._isTypeCastCondition, EvaTC._getSpecifiedType,
    EvaTC.signature_types, EvaTC._extractActualCallTypes,
    EvaTC._bindFunctionTypes, EvaTC.slice_1_m1, EvaTC.destruct2.
  respects; try (apply Respects_mapM; intros; respects).
Qed.
End Invariant.

Lemma tc_respects R fuel exp env :
  (forall s, R s s) ->
  (forall a b c, R a b -> R b c -> R a c) ->
  (forall key t s,
     R s (mkState (<[key := t]> (Type_ s)) (heap s) (stamp s))) ->
  (forall rec par s,
     R s (mkState (Type_ s) (heap s ++ [mkEnv rec par]) (stamp s))) ->
  (forall s, R s (mkState (Type_ s) (heap s) (S (stamp s)))) ->
  (forall env name v sc s,
     heap s !! env = Some sc ->
     R s (mkState (Type_ s)
            (<[env := mkEnv (<[name := v]> (record sc)) (parent sc)]> (heap s))
            (stamp s))) ->
  Respects R (EvaTC.tc fuel exp env).
Proof.
  intros Hrefl Htrans Hset Hnew Hstamp Hdef. revert exp env.
  induction fuel as [|fuel IH]; intros exp env; simpl.
  - intros s a s' H. discriminate.
  - apply Respects_tc_step; assumption.
Qed.

(** X17.  Nothing that has been declared is ever removed by checking an
    expression: every name of the registry is still registered
    afterwards (possibly with another type), and every scope is still
    there, below the same parent, binding at least the names it bound
    before. *)
Theorem declarations_are_never_removed :
  forall fuel exp env st t st',
    EvaTC.tc fuel exp env st = Val (t, st') ->
    registry_grows st st' /\ scopes_grow st st'.
Proof.
  intros fuel exp env st t st' H. split.
  - revert H. apply (tc_respects registry_grows); unfold registry_grows;
      cbn [Type_]; auto.
    intros key ty0 s k Hk. destruct (decide (key = k)) as [->|Hne].
    + rewrite lookup_insert_eq. eauto.
    + rewrite lookup_insert_ne by exact Hne. exact Hk.
  - revert H. apply (tc_respects scopes_grow); unfold scopes_grow;
      cbn [heap].
    + intros s e sc Hsc. eauto.
    + intros a b c Hab Hbc e sc Hsc.
      destruct (Hab _ _ Hsc) as (sc1 & H1 & Hp1 & Hk1).
      destruct (Hbc _ _ H1) as (sc2 & H2 & Hp2 & Hk2).
      exists sc2. split; [exact H2|]. split; [congruence | auto].
    + intros key ty0 s e sc Hsc. eauto.
    + intros rec par s e sc Hsc. exists sc.
      split; [apply lookup_app_l_Some; exact Hsc | auto].
    + intros s e sc Hsc. eauto.
    + intros env0 name v sc0 s Hsc0 e sc Hsc.
      destruct (decide (env0 = e)) as [->|Hne].
      * rewrite Hsc0 in Hsc. injection Hsc as ->.
        eexists. split.
        { apply list_lookup_insert_eq. eapply lookup_lt_Some; eauto. }
        cbn [parent record]. split; [reflexivity|].
        intros k Hk. destruct (decide (name = k)) as [->|Hnk].
        -- rewrite lookup_insert_eq. eauto.
        -- rewrite lookup_insert_ne by exact Hnk. exact Hk.
      * exists sc. rewrite list_lookup_insert_ne by exact Hne. auto.
Qed.

Lemma declarations_are_never_removed_witness :
  EvaTC.tc 2 (Arr [Str "var"; Str "x"; Num 1]) 0
    (mkState Reg.initial [mkEnv ∅ None] 0)
  = Val (Some (Prim "number"),
         mkState Reg.initial [mkEnv {["x" := Some (Prim "number")]} None] 0)
  /\ registry_grows
       (mkState Reg.initial [mkEnv ∅ None] 0)
       (mkState Reg.initial [mkEnv {["x" := Some (Prim "number")]} None] 0).
Proof.
  assert (H : EvaTC.tc 2 (Arr [Str "var"; Str "x"; Num 1]) 0
    (mkState Reg.initial [mkEnv ∅ None] 0)
  = Val (Some (Prim "number"),
         mkState Reg.initial [mkEnv {["x" := Some (Prim "number")]} None] 0))
    by (vm_compute; reflexivity).
  split; [exact H|].
  exact (proj1 (declarations_are_never_removed _ _ _ _ _ _ H)).
Defined.

(** ** The name of a function type, read back as a descriptor *)

Lemma string_app_cons x (a b : string) : String x a ++ b = String x (a ++ b).
Proof. reflexivity. Qed.

Lemma string_app_assoc (a b c : string) : (a ++ b) ++ c = a ++ (b ++ c).
Proof.
  induction a as [|x a IH]; [reflexivity|].
  rewrite !string_app_cons. f_equal. exact IH.
Qed.

Lemma string_app_nil_r (a : string) : a ++ EmptyString = a.
Proof.
  induction a as [|x a IH]; [reflexivity|].
  rewrite string_app_cons. f_equal. exact IH.
Qed.

Lemma substring_all (s : string) : substring 0 (String.length s) s = s.
Proof.
  induction s as [|c s IH]; simpl; [reflexivity|]. rewrite IH. reflexivity.
Qed.

Lemma strip_Fn rest :
  Js.strip_prefix "Fn<" (String "F" (String "n" (String "<" rest)))
  = Some rest.
Proof.
  unfold Js.strip_prefix. rewrite !prefix_cons.
  destruct (ascii_dec "F" "F") as [_|n]; [|contradiction n; reflexivity].
  destruct (ascii_dec "n" "n") as [_|n]; [|contradiction n; reflexivity].
  destruct (ascii_dec "<" "<") as [_|n]; [|contradiction n; reflexivity].
  cbn [String.prefix String.length Nat.sub substring].
  rewrite Nat.sub_0_r, substring_all. destruct rest; reflexivity.
Qed.

Lemma span_break p a c b :
  Js.all_chars p a = true -> p c = false ->
  Js.span p (a ++ String c b) = (a, String c b).
Proof.
  intros Ha Hc. induction a as [|x a IH].
  - change (EmptyString ++ String c b) with (String c b).
    cbn [Js.span]. rewrite Hc. reflexivity.
  - cbn [Js.all_chars] in Ha. apply andb_prop in Ha as [Hx Ha].
    rewrite string_app_cons. cbn [Js.span].
    rewrite Hx, (IH Ha). reflexivity.
Qed.

Lemma lower_code c :
  Js.is_lower c = true ->
  97 <= nat_of_ascii c /\ nat_of_ascii c <= 122.
Proof.
  unfold Js.is_lower, Js.in_range. cbv zeta. intros H.
  apply andb_prop in H as [H1 H2].
  apply Nat.leb_le in H1. apply Nat.leb_le in H2. lia.
Qed.

Lemma lower_not (c d : ascii) :
  Js.is_lower c = true -> nat_of_ascii d < 97 -> Ascii.eqb c d = false.
Proof.
  intros Hc Hd. apply lower_code in Hc.
  destruct (Ascii.eqb_spec c d) as [->|]; [lia | reflexivity].
Qed.

Lemma lower_not_space c : Js.is_lower c = true -> Js.is_space c = false.
Proof.
  intros Hc. unfold Js.is_space, Js.in_range. cbv zeta.
  rewrite (lower_not c " " Hc) by (vm_compute; lia).
  apply lower_code in Hc.
  replace (Nat.leb (nat_of_ascii c) 13) with false
    by (symmetry; apply Nat.leb_gt; lia).
  rewrite andb_false_r. reflexivity.
Qed.

Lemma lower_is_param c : Js.is_lower c = true -> Js.is_param_char c = true.
Proof. intros H. unfold Js.is_param_char. rewrite H. reflexivity. Qed.

Lemma split_lower skip cur x s :
  Js.all_chars Js.is_lower x = true ->
  (skip = true -> Js.nonempty x = true) ->
  Js.split_comma_ws_aux skip cur (x ++ s)
  = Js.split_comma_ws_aux false (cur ++ x) s.
Proof.
  revert skip cur. induction x as [|c x IH]; intros skip cur Hx Hne.
  - destruct skip; [discriminate (Hne eq_refl)|].
    rewrite string_app_nil_r. reflexivity.
  - simpl in Hx. apply andb_prop in Hx as [Hc Hx].
    rewrite string_app_cons. cbn [Js.split_comma_ws_aux].
    rewrite (lower_not c "," Hc) by (vm_compute; lia).
    rewrite (lower_not_space c Hc), andb_false_r.
    rewrite (IH false) by (auto; discriminate).
    rewrite string_app_assoc. rewrite string_app_cons. reflexivity.
Qed.

Lemma split_join skip names :
  names <> [] ->
  Forall (fun n => lower_name n = true) names ->
  Js.split_comma_ws_aux skip EmptyString (Js.join "," names) = names.
Proof.
  intros Hne Hall. revert skip.
  induction Hall as [|n names Hn Hall IH]; intros skip; [contradiction|].
  unfold lower_name in Hn. apply andb_prop in Hn as [Hn1 Hn2].
  destruct names as [|m names].
  - cbn [Js.join]. rewrite <- (string_app_nil_r n) at 1.
    rewrite split_lower by auto. reflexivity.
  - change (Js.join "," (n :: m :: names))
      with (n ++ String "," (Js.join "," (m :: names))).
    rewrite split_lower by auto.
    cbn [Js.split_comma_ws_aux Ascii.eqb Bool.eqb].
    rewrite IH by discriminate. reflexivity.
Qed.

Lemma join_param_chars names :
  Forall (fun n => lower_name n = true) names ->
  Js.all_chars Js.is_param_char (Js.join "," names) = true.
Proof.
  induction 1 as [|n names Hn Hall IH]; [reflexivity|].
  assert (Hp : Js.all_chars Js.is_param_char n = true).
  { unfold lower_name in Hn. apply andb_prop in Hn as [_ Hn].
    clear -Hn. induction n as [|c n IHn]; [reflexivity|].
    simpl in *. apply andb_prop in Hn as [Hc Hn].
    rewrite (lower_is_param c Hc). auto. }
  destruct names as [|m names]; [exact Hp|].
  change (Js.join "," (n :: m :: names))
    with (n ++ String "," (Js.join "," (m :: names))).
  rewrite all_chars_app, Hp. cbn [Js.all_chars andb]. exact IH.
Qed.

Lemma join_nonempty n names :
  Js.nonempty n = true -> Js.nonempty (Js.join "," (n :: names)) = true.
Proof.
  intros Hn. destruct n; [discriminate|].
  destruct names; reflexivity.
Qed.

Lemma Type_fromString_known rec typeStr st t :
  Type_ st !! Js.toString typeStr = Some t ->
  Reg.Type_fromString rec typeStr st = Val (t, st).
Proof.
  intros H. unfold Reg.Type_fromString, bind, Reg.hasOwnProperty, Reg.get.
  rewrite bool_decide_eq_true_2 by eauto. rewrite H. reflexivity.
Qed.

Lemma registered_names_resolve rec ps st :
  Forall (fun p => Type_ st !! Ty.getName p = Some p) ps ->
  mapM (fun p => Reg.Type_fromString rec (Str p)) (List.map Ty.getName ps) st
  = Val (ps, st).
Proof.
  induction 1 as [|p ps Hp _ IH]; [reflexivity|].
  cbn [List.map mapM]. unfold bind.
  rewrite (Type_fromString_known rec (Str (Ty.getName p)) st p Hp).
  rewrite IH. reflexivity.
Qed.

(** X18.  The name computed for a function type reads back as a
    descriptor of the same type: when the parameter types are registered
    under lower-case names and the return type under a word, and the
    computed name [Fn<ret<p1,...>>] is not yet an entry,
    [Type.fromString] of that name yields the function type with these
    very parameter and return types, and registers it under the name. *)
Theorem function_name_reads_back :
  forall ps r st,
    Forall (fun p => lower_name (Ty.getName p) = true) ps ->
    Forall (fun p => Type_ st !! Ty.getName p = Some p) ps ->
    word_name (Ty.getName r) = true ->
    Type_ st !! Ty.getName r = Some r ->
    Type_ st !! Ty.Function_getName ps r = None ->
    Reg.fromString (Str (Ty.Function_getName ps r)) st
    = Val (Ty.mkFunction ps r,
           mkState (<[Ty.Function_getName ps r := Ty.mkFunction ps r]>
                      (Type_ st))
                   (heap st) (stamp st)).
Proof.
  intros ps r st Hlow Hreg Hw Hr Hnone.
  unfold word_name in Hw. apply andb_prop in Hw as [Hw1 Hw2].
  assert (Hshape : exists rest,
            Ty.Function_getName ps r
            = String "F" (String "n" (String "<" rest))
            /\ Js.re_fn_params (Ty.Function_getName ps r)
               = match ps with
                 | [] => None
                 | _ => Some (Ty.getName r,
                              Js.join "," (List.map Ty.getName ps))
                 end
            /\ (ps = [] ->
                Js.re_fn_ret (Ty.Function_getName ps r)
                = Some (Ty.getName r))).
  { unfold Ty.Function_getName. destruct ps as [|p ps].
    - exists (Ty.getName r ++ ">").
      change ("Fn<" ++ Ty.getName r ++ EmptyString ++ ">")
        with (String "F" (String "n" (String "<" (Ty.getName r ++ ">")))).
      split; [reflexivity|].
      unfold Js.re_fn_params, Js.re_fn_ret. rewrite strip_Fn.
      rewrite (span_break Js.is_word (Ty.getName r) ">" EmptyString Hw2)
        by reflexivity.
      rewrite Hw1. split; [reflexivity|]. intros _. reflexivity.
    - set (names := List.map Ty.getName (p :: ps)).
      exists (Ty.getName r ++ String "<" (Js.join "," names ++ ">>")).
      assert (Heq : "Fn<" ++ Ty.getName r
                    ++ ("<" ++ Js.join "," names ++ ">") ++ ">"
                    = String "F" (String "n" (String "<"
                        (Ty.getName r
                         ++ String "<" (Js.join "," names ++ ">>"))))).
      { change ("Fn<" ++ Ty.getName r
                ++ ("<" ++ Js.join "," names ++ ">") ++ ">")
          with (String "F" (String "n" (String "<"
                  (Ty.getName r
                   ++ String "<" ((Js.join "," names ++ ">") ++ ">"))))).
        rewrite string_app_assoc. reflexivity. }
      rewrite Heq. split; [reflexivity|].
      split; [|discriminate].
      unfold Js.re_fn_params. rewrite strip_Fn.
      rewrite (span_break Js.is_word (Ty.getName r) "<" _ Hw2)
        by reflexivity.
      rewrite Hw1. cbn [andb Ascii.eqb Bool.eqb].
      assert (Hnames : Forall (fun n => lower_name n = true) names).
      { unfold names. apply Forall_map. exact Hlow. }
      rewrite (span_break Js.is_param_char (Js.join "," names) ">" ">"
                 (join_param_chars names Hnames)) by reflexivity.
      assert (Hne : Js.nonempty (Js.join "," names) = true).
      { unfold names. cbn [List.map]. apply join_nonempty.
        inversion Hlow as [|? ? Hp _]; subst.
        unfold lower_name in Hp. apply andb_prop in Hp as [Hp _].
        exact Hp. }
      rewrite Hne. reflexivity. }
  destruct Hshape as (rest & Hname & Hparams & Hret).
  unfold Reg.fromString. cbn [Reg.fromString_upto].
  unfold Reg.Type_fromString at 1. unfold bind at 1, Reg.hasOwnProperty at 1.
  cbn [Js.toString]. rewrite Hnone.
  rewrite bool_decide_eq_false_2 by (intros [? ?]; discriminate).
  assert (Hpre : String.prefix "Fn<" (Ty.Function_getName ps r) = true).
  { rewrite Hname. rewrite !prefix_cons.
    destruct (ascii_dec "F" "F") as [_|n]; [|contradiction n; reflexivity].
    destruct (ascii_dec "n" "n") as [_|n]; [|contradiction n; reflexivity].
    destruct (ascii_dec "<" "<") as [_|n]; [|contradiction n; reflexivity].
    destruct rest; reflexivity. }
  rewrite Hpre.
  unfold Reg.Function_fromString. unfold bind at 1, Reg.hasOwnProperty at 1.
  cbn [Js.toString]. rewrite Hnone.
  rewrite bool_decide_eq_false_2 by (intros [? ?]; discriminate).
  rewrite Hparams. destruct ps as [|p ps].
  - rewrite (Hret eq_refl). unfold bind.
    rewrite (Type_fromString_known _ (Str (Ty.getName r)) st r Hr).
    reflexivity.
  - unfold Js.split_comma_ws.
    rewrite split_join;
      [|discriminate | apply Forall_map; exact Hlow].
    unfold bind. rewrite (registered_names_resolve _ _ _ Hreg).
    rewrite (Type_fromString_known _ (Str (Ty.getName r)) st r Hr).
    reflexivity.
Qed.

Lemma function_name_reads_back_witness :
  Reg.fromString
    (Str (Ty.Function_getName [Prim "number"; Prim "string"] (Prim "boolean")))
    initial_state
  = Val (Ty.mkFunction [Prim "number"; Prim "string"] (Prim "boolean"),
         mkState
           (<[Ty.Function_getName [Prim "number"; Prim "string"]
                (Prim "boolean")
              := Ty.mkFunction [Prim "number"; Prim "string"]
                   (Prim "boolean")]> (Type_ initial_state))
           (heap initial_state) (stamp initial_state)).
Proof.
  apply function_name_reads_back.
  - repeat constructor.
  - repeat constructor.
  - reflexivity.
  - vm_compute. reflexivity.
  - vm_compute. reflexivity.
Defined.

(** ** Further facts on the equality of types *)

(** X19.  A union and a primitive type are equal, in either direction,
    exactly when the primitive is one of the options of the union, so a
    value of union type passes where one of its options is expected as
    well as the other way round. *)
Theorem union_and_option_are_equal_both_ways :
  forall null_ i n os a,
    forallb is_prim os = true ->
    let member := existsb (fun o => String.eqb (Ty.getName o) a) os in
    Ty.equals null_ (Union i n os) (Some (Prim a)) = Val member
    /\ Ty.equals null_ (Prim a) (Some (Union i n os)) = Val member.
Proof.
  intros null_ i n os a Hos member.
  assert (Hstep : forall f,
            Ty.equals_upto (S (S f)) null_ (Union i n os) (Some (Prim a))
            = Val member).
  { intros f. cbn [Ty.equals_upto Ty.dispatch_equals].
    unfold Ty.Union_equals. cbn [Ty.same].
    apply (some_equals_prims _ os (Prim a)); [|exact Hos].
    intros t Ht. destruct t; try discriminate. reflexivity. }
  split.
  - unfold Ty.equals, Ty.equals_bound.
    replace (2 * (Ty.size (Union i n os) + Ty.size_val (Some (Prim a))) + 2)
      with (S (S (2 * (Ty.size (Union i n os)
                       + Ty.size_val (Some (Prim a))))))
      by lia.
    apply Hstep.
  - unfold Ty.equals, Ty.equals_bound.
    replace (2 * (Ty.size (Prim a) + Ty.size_val (Some (Union i n os))) + 2)
      with (S (S (S (2 * (Ty.size (Prim a)
                          + Ty.size_val (Some (Union i n os))) - 1))))
      by (cbn [Ty.size Ty.size_val]; lia).
    cbn [Ty.equals_upto Ty.dispatch_equals]. unfold Ty.Type_equals at 1.
    cbn [Ty.is_alias Ty.is_union].
    apply (Hstep (2 * (Ty.size (Prim a)
                       + Ty.size_val (Some (Union i n os))) - 1 - 0)).
Qed.

Lemma union_and_option_are_equal_both_ways_witness :
  forallb is_prim [Prim "number"; Prim "string"] = true
  /\ Ty.equals None (Union 0 "U" [Prim "number"; Prim "string"])
       (Some (Prim "string")) = Val true
  /\ Ty.equals None (Prim "string")
       (Some (Union 0 "U" [Prim "number"; Prim "string"])) = Val true.
Proof.
  split; [reflexivity|].
  exact (union_and_option_are_equal_both_ways None 0 "U"
           [Prim "number"; Prim "string"] "string" eq_refl).
Defined.

(** X20.  Function types are compared by structure and only with
    function types: two function types with the same parameter and
    return types are equal whatever their names, while comparing a
    function type with anything that is not a function type, [undefined]
    included, throws instead of answering; so [_expect] on a function
    value and a non-function type stops with that exception, not with a
    type mismatch. *)
Theorem function_types_compare_by_structure :
  forall null_ n m ps r,
    Ty.equals null_ (Function n ps r) (Some (Function m ps r)) = Val true
    /\ (forall other,
          match other with Some o => is_function o | None => false end
          = false ->
          Ty.equals null_ (Function n ps r) other = Exn JsTypeError)
    /\ (forall expected st,
          match expected with Some o => is_function o | None => false end
          = false ->
          EvaTC._expect (Some (Function n ps r)) expected st
          = Exn JsTypeError).
Proof.
  intros null_ n m ps r.
  assert (Hthrow : forall other,
            match other with Some o => is_function o | None => false end
            = false ->
            forall nul, Ty.equals nul (Function n ps r) other
                         = Exn JsTypeError).
  { intros other Hother nul. unfold Ty.equals, Ty.equals_bound.
    replace (2 * (Ty.size (Function n ps r) + Ty.size_val other) + 2)
      with (S (2 * (Ty.size (Function n ps r) + Ty.size_val other) + 1))
      by lia.
    cbn [Ty.equals_upto Ty.dispatch_equals]. unfold Ty.Function_equals.
    destruct other as [[]|]; try reflexivity. discriminate. }
  split; [|split].
  - pose proof (equals_refl null_ (Function m ps r)) as H.
    unfold Ty.equals, Ty.equals_bound in *.
    change (Ty.size (Function n ps r)) with (Ty.size (Function m ps r)).
    destruct (2 * (Ty.size (Function m ps r)
                   + Ty.size_val (Some (Function m ps r))) + 2);
      [discriminate H | exact H].
  - intros other Hother. apply Hthrow. exact Hother.
  - intros expected st Hexp. unfold EvaTC._expect, bind, EvaTC.equals, lift.
    rewrite Hthrow by exact Hexp. reflexivity.
Qed.

(** ** Literals *)

Lemma slice_m1_quoted s :
  Js.slice_m1 (quoted s) = String dquote EmptyString.
Proof.
  unfold Js.slice_m1, quoted. cbn [String.length]. rewrite length_append.
  cbn [String.length].
  replace (S (String.length s + 1) - 1) with (S (String.length s)) by lia.
  cbn [substring]. induction s as [|c s IH]; [reflexivity|].
  rewrite string_app_cons. cbn [String.length substring]. exact IH.
Qed.

(** X21.  A number and a quoted token, whatever it encloses, check at
    once, in every scope, to the types that the registry holds under
    [number] and [string] when the check runs, and leave the state as it
    is.  The type of a literal is thus not fixed: once [number] has been
    redeclared as a union, a number literal checks to that union. *)
Theorem literals_read_the_registry :
  forall fuel env st,
    (forall n, EvaTC.tc (S fuel) (Num n) env st
               = Val (Type_ st !! "number", st))
    /\ (forall s, EvaTC.tc (S fuel) (Str (quoted s)) env st
                  = Val (Type_ st !! "string", st))
    /\ value (EvaTC.run (fuel + 4)
                (Arr [Str "begin";
                      Arr [Str "type"; Str "number";
                           Arr [Str "or"; Str "string"; Str "boolean"]];
                      Num 5]))
       = Val (Some (Union 0 "number" [Prim "string"; Prim "boolean"])).
Proof.
  intros fuel env st. split; [|split].
  - intros n. reflexivity.
  - intros s. cbn [EvaTC.tc]. unfold EvaTC.tc_step.
    cbn [EvaTC._isNumber]. unfold EvaTC._isString.
    rewrite slice_m1_quoted. reflexivity.
  - evaluate.
Qed.

(** ** Class declarations *)

Lemma new_Class_inv n superClass st C cenv st1 :
  EvaTC.new_Class n superClass st = Val ((C, cenv), st1) ->
  exists sup par,
    C = Class n sup cenv
    /\ cenv = List.length (heap st)
    /\ st1 = mkState (Type_ st) (heap st ++ [mkEnv ∅ par]) (stamp st).
Proof.
  unfold EvaTC.new_Class. intros H.
  apply bind_Val in H as (null_ & s1 & Hnull & H).
  unfold Reg.static in Hnull. injection Hnull as <- <-.
  apply bind_Val in H as (e & s2 & He & H).
  unfold ret in H. injection H as <- <- <-.
  assert (Hnew : forall par, Env.new ∅ par st = Val (e, s2) ->
            e = List.length (heap st)
            /\ s2 = mkState (Type_ st) (heap st ++ [mkEnv ∅ par]) (stamp st)).
  { intros par Hp. unfold Env.new in Hp. injection Hp as <- <-. auto. }
  destruct (Ty.loose_ne _ _).
  - destruct (match superClass with None => _ | Some _ => _ end)
      as [[]|]; try discriminate;
      apply Hnew in He as [-> ->]; eauto.
  - apply Hnew in He as [-> ->]. eauto.
Qed.


